(** * Route optimization engine: a shallow embedding in Rocq

    Source: route-optimization-engine/optimization
      - utils/distance.py      : [estimate_travel_time], [build_distance_matrix]
      - utils/constraints.py   : [check_skill_match], [check_time_window],
                                 [check_daily_limit]
      - solvers/base_solver.py : records, [_validate_inputs],
                                 [_get_priority_value]
      - solvers/greedy_solver.py, solvers/genetic_solver.py,
        solvers/vrp_solver.py (its no-solution result).

    Modelling conventions.
      - In the solver models Python floats are exact rationals [Q];
        [round(x, 2)] is round-half-even of [x * 100] ([round2]).  The
        functions of [utils/distance.py] and the minute sum of
        [validate_route] work on binary64 floats instead.
      - A [datetime] is a rational number of minutes since a fixed epoch;
        [t + timedelta(minutes=m)] is [t + m].  Travel minutes are multiples
        of 0.01 min and service minutes are integers, so the microsecond
        resolution of [timedelta] loses nothing.
      - A raised exception is the [Raise] branch of [result]. *)

From Stdlib Require Import QArith ZArith Lia Sorted Lqa.
From stdpp Require Import base list gmap sets strings.
From Stdlib Require Import Floats.

Open Scope Q_scope.

(** ** Exceptions *)

Inductive pyval :=
  | PStr (s : string)
  | PNum (q : Q)
  | PList (l : list string)
  | PNone.

Inductive verror :=
  | NegativeDistance (d : Q)
  | NonPositiveSpeed (s : Q)
  | WindowAfterEnd (ws we : Q)
  | NegativeHours
  | LocationMissingLatLng (idx : nat)
  | MathDomainError
  | EmptyWorkOrders
  | EmptyTechnicians
  | WorkOrderMissingKeys (idx : nat) (id : pyval) (missing : gset string)
  | TechnicianMissingKeys (idx : nat) (id : pyval) (missing : gset string)
  | MatrixRowCount (rows expected : nat)
  | MatrixRowLength (row cols expected : nat)
  | NegativeDistanceF (d : float)
  | NonPositiveSpeedF (s : float)
  | NonPositiveAvgSpeed (s : float)
  | EmptyRange
  | SampleSize
  | EmptyMin
  | UnpackCount.

Inductive exc :=
  | ValueError (e : verror)
  | IndexError
  | KeyError
  | OverflowError.

Inductive result (A : Type) :=
  | Ok (a : A)
  | Raise (e : exc).
Arguments Ok {A} a.
Arguments Raise {A} e.

Definition rbind {A B} (m : result A) (k : A -> result B) : result B :=
  match m with Ok a => k a | Raise e => Raise e end.

Notation "x <- m ;; k" := (rbind m (fun x => k))
  (at level 100, m at next level, right associativity).

Definition raises {A} (m : result A) : bool :=
  match m with Ok _ => false | Raise _ => true end.

(** [raise ValueError(...)] *)
Definition value_error {A} (e : verror) : result A := Raise (ValueError e).

(** ** Comparisons on floats *)

Definition Qltb (x y : Q) : bool := negb (Qle_bool y x).
Definition Qleb (x y : Q) : bool := Qle_bool x y.

(** ** Python's [round(x, 2)] *)

(** Round half to even of a rational. *)
Definition round_half_even (q : Q) : Z :=
  let d := Zpos (Qden q) in
  let fl := Z.div (Qnum q) d in
  let r := Z.modulo (Qnum q) d in
  match Z.compare (2 * r) d with
  | Lt => fl
  | Gt => (fl + 1)%Z
  | Eq => if Z.even fl then fl else (fl + 1)%Z
  end.

Definition round2 (q : Q) : Q := Qmake (round_half_even (q * 100)) 100.

(** ** utils/distance.py : estimate_travel_time, in exact arithmetic *)

(** [estimate_travel_time(distance_miles, speed_mph)] read in exact
    rationals, as the solver models below call it.  The binary64 function
    itself is [estimate_travel_time] further down. *)
Definition estimate_travel_time_q (distance_miles speed_mph : Q) : result Q :=
  if Qltb distance_miles 0 then value_error (NegativeDistance distance_miles)
  else if Qleb speed_mph 0 then value_error (NonPositiveSpeed speed_mph)
  else Ok (round2 ((distance_miles / speed_mph) * 60)).

(** ** utils/constraints.py *)

(** [check_skill_match]: [set(required).issubset(set(technician))]. *)
Definition check_skill_match (technician_skills required_skills : list string)
  : bool :=
  forallb (fun s => bool_decide (s ∈ technician_skills)) required_skills.

(** [check_time_window(arrival, window_start, window_end)] *)
Definition check_time_window (arrival window_start window_end : Q)
  : result bool :=
  if Qltb window_end window_start
  then value_error (WindowAfterEnd window_start window_end)
  else Ok (Qleb window_start arrival && Qleb arrival window_end).

(** [check_daily_limit(current_hours, max_hours, additional_hours)] *)
Definition check_daily_limit (current_hours max_hours additional_hours : Q)
  : result bool :=
  if Qltb current_hours 0 || Qltb max_hours 0 || Qltb additional_hours 0
  then value_error NegativeHours
  else Ok (Qleb (current_hours + additional_hours) max_hours).

(** ** solvers/base_solver.py : data model *)

(** A work-order record once validated: every key of
    [REQUIRED_WORK_ORDER_KEYS] is present and holds a value of its type. *)
Record WorkOrder := {
  wo_id : string;
  wo_property_id : string;
  wo_lat : Q;
  wo_lng : Q;
  wo_priority : string;
  wo_required_skills : list string;
  wo_duration_minutes : Q;
  wo_time_window_start : Q;
  wo_time_window_end : Q
}.

Record Technician := {
  tech_id : string;
  tech_name : string;
  tech_skills : list string;
  tech_home_lat : Q;
  tech_home_lng : Q;
  tech_max_hours : Q;
  tech_shift_start : Q;
  tech_shift_end : Q
}.

Record RouteStop := {
  work_order_id : string;
  property_id : string;
  stop_lat : Q;
  stop_lng : Q;
  sequence : nat;
  arrival_time : Q;
  departure_time : Q;
  travel_distance : Q;
  travel_duration : Q
}.

Record TechnicianRoute := {
  technician_id : string;
  technician_name : string;
  stops : list RouteStop;
  route_total_distance : Q;
  route_total_duration : Q;
  route_total_work_time : Q;
  utilization_percent : Q
}.

(** [metadata] is omitted: no property below reads it. *)
Record OptimizationResult := {
  routes : list TechnicianRoute;
  total_distance : Q;
  total_duration : Q;
  unassigned_orders : list string;
  algorithm : string
}.

(** [round(x, 1)] *)
Definition round1 (q : Q) : Q := Qmake (round_half_even (q * 10)) 10.

(** [min(100.0, (total_hours / max_hours) * 100.0) if max_hours > 0 else 0.0] *)
Definition utilization (total_hours max_hours : Q) : Q :=
  if Qltb 0 max_hours then
    (let u := (total_hours / max_hours) * 100 in if Qltb u 100 then u else 100)
  else 0.

(** ** Priorities: [BaseSolver._get_priority_value] *)

(** [str.lower] on ASCII letters. *)
Definition ascii_lower (c : Ascii.ascii) : Ascii.ascii :=
  let n := Ascii.nat_of_ascii c in
  if (Nat.leb 65 n && Nat.leb n 90)%bool then Ascii.ascii_of_nat (n + 32) else c.

Fixpoint str_lower (s : string) : string :=
  match s with
  | EmptyString => EmptyString
  | String c s' => String (ascii_lower c) (str_lower s')
  end.

(** [priority_map.get(priority.lower(), 99)] *)
Definition _get_priority_value (priority : string) : nat :=
  let p := str_lower priority in
  if String.eqb p "emergency" then 0
  else if String.eqb p "high" then 1
  else if String.eqb p "medium" then 2
  else if String.eqb p "low" then 3
  else 99.

(** [sorted(xs, key=key)] where [lt] compares keys strictly.  [sort_by]
    inserts the elements from the last to the first, and [insert_by] puts
    an element before every element whose key is not smaller; so elements
    of equal keys keep their input order, as in Python's stable sort. *)
Fixpoint insert_by {A} (lt : A -> A -> bool) (x : A) (l : list A) : list A :=
  match l with
  | [] => [x]
  | y :: l' => if lt y x then y :: insert_by lt x l' else x :: y :: l'
  end.

Fixpoint sort_by {A} (lt : A -> A -> bool) (l : list A) : list A :=
  match l with
  | [] => []
  | x :: l' => insert_by lt x (sort_by lt l')
  end.

(** Python's [<] on [str]: code-point order. *)
Definition str_ltb (a b : string) : bool :=
  match String.compare a b with Lt => true | _ => false end.

(** [sorted(a_set_of_str)] *)
Definition sorted_set (s : gset string) : list string :=
  sort_by str_ltb (elements s).

(** ** The solver's inputs ([self.work_orders], [self.technicians],
    [self.distance_matrix]) and the shared helpers *)

Section Solver.

Variable work_orders : list WorkOrder.
Variable technicians : list Technician.
Variable distance_matrix : list (list Q).

(** [self.work_orders[i]] *)
Definition get_work_order (i : nat) : result WorkOrder :=
  match work_orders !! i with Some wo => Ok wo | None => Raise IndexError end.

(** [self.distance_matrix[i][j]] *)
Definition get_dist (i j : nat) : result Q :=
  match distance_matrix !! i with
  | Some row => match row !! j with Some d => Ok d | None => Raise IndexError end
  | None => Raise IndexError
  end.

(** [BaseSolver._check_skill_match(technician, work_order)] *)
Definition _check_skill_match (tech : Technician) (wo : WorkOrder) : bool :=
  check_skill_match (tech_skills tech) (wo_required_skills wo).

Definition wo_priority_value (wo : WorkOrder) : nat :=
  _get_priority_value (wo_priority wo).

(** ** solvers/greedy_solver.py *)

(** The local variables of [_build_technician_route]. *)
Record GState := {
  g_stops : list RouteStop;
  g_route_distance : Q;
  g_route_duration : Q;
  g_route_work_time : Q;
  g_current_node : nat;
  g_current_time : Q;
  g_used_hours : Q;
  g_seq : nat;
  g_assigned : gset nat
}.

Section Greedy.

Variable avg_speed : Q.

(** The body of the candidate loop for [wo_idx] up to the
    "Nearest neighbor selection" comment: [Ok None] when the loop executes
    [continue], [Ok (Some dist)] when [wo_idx] is a feasible candidate at
    distance [dist]. *)
Definition greedy_candidate (tech : Technician) (st : GState) (wo_idx : nat)
  : result (option Q) :=
  if bool_decide (wo_idx ∈ g_assigned st) then Ok None else
  wo <- get_work_order wo_idx ;;
  let wo_node := (wo_idx + length technicians)%nat in
  if negb (_check_skill_match tech wo) then Ok None else
  dist <- get_dist (g_current_node st) wo_node ;;
  travel_min <- estimate_travel_time_q dist avg_speed ;;
  let service_min := wo_duration_minutes wo in
  let additional_hours := (travel_min + service_min) / 60 in
  ok <- check_daily_limit (g_used_hours st) (tech_max_hours tech) additional_hours ;;
  if negb ok then Ok None else
  let proposed_arrival := g_current_time st + travel_min in
  let tw_start := wo_time_window_start wo in
  let tw_end := wo_time_window_end wo in
  arr <- (if Qltb proposed_arrival tw_start then
            let wait_min := tw_start - proposed_arrival in
            let total_added := (travel_min + wait_min + service_min) / 60 in
            ok2 <- check_daily_limit (g_used_hours st) (tech_max_hours tech) total_added ;;
            Ok (if ok2 then Some tw_start else None)
          else Ok (Some proposed_arrival)) ;;
  match arr with
  | None => Ok None
  | Some proposed_arrival =>
      if Qltb tw_end proposed_arrival then Ok None else
      let proposed_departure := proposed_arrival + service_min in
      if Qltb (tech_shift_end tech) proposed_departure then Ok None else
      Ok (Some dist)
  end.

(** Nearest neighbor selection: [best] is [(best_wo_idx, best_dist)], or
    [None] while [best_wo_idx is None]. *)
Definition greedy_select (best : option (nat * Q)) (wo_idx : nat) (wo : WorkOrder)
  (dist : Q) : result (option (nat * Q)) :=
  let wo_priority := wo_priority_value wo in
  match best with
  | Some (best_wo_idx, best_dist) =>
      bwo <- get_work_order best_wo_idx ;;
      let best_priority := wo_priority_value bwo in
      if Nat.ltb wo_priority best_priority then Ok (Some (wo_idx, dist))
      else if (Nat.eqb wo_priority best_priority && Qltb dist best_dist)%bool
      then Ok (Some (wo_idx, dist))
      else Ok best
  | None => Ok (Some (wo_idx, dist))
  end.

(** One pass of [for wo_idx in sorted_wo_indices]. *)
Fixpoint greedy_scan (tech : Technician) (st : GState)
  (best : option (nat * Q)) (l : list nat) : result (option (nat * Q)) :=
  match l with
  | [] => Ok best
  | wo_idx :: l' =>
      c <- greedy_candidate tech st wo_idx ;;
      best' <- (match c with
                | None => Ok best
                | Some dist =>
                    wo <- get_work_order wo_idx ;;
                    greedy_select best wo_idx wo dist
                end) ;;
      greedy_scan tech st best' l'
  end.

(** "Assign the best candidate". *)
Definition greedy_commit (tech : Technician) (st : GState) (best_wo_idx : nat)
  : result GState :=
  wo <- get_work_order best_wo_idx ;;
  let wo_node := (best_wo_idx + length technicians)%nat in
  dist <- get_dist (g_current_node st) wo_node ;;
  travel_min <- estimate_travel_time_q dist avg_speed ;;
  let service_min := wo_duration_minutes wo in
  let proposed_arrival := g_current_time st + travel_min in
  let tw_start := wo_time_window_start wo in
  let proposed_arrival :=
    if Qltb proposed_arrival tw_start then tw_start else proposed_arrival in
  let departure := proposed_arrival + service_min in
  let stop := {| work_order_id := wo_id wo;
                 property_id := wo_property_id wo;
                 stop_lat := wo_lat wo;
                 stop_lng := wo_lng wo;
                 sequence := g_seq st;
                 arrival_time := proposed_arrival;
                 departure_time := departure;
                 travel_distance := round2 dist;
                 travel_duration := round2 travel_min |} in
  let route_duration := g_route_duration st + travel_min in
  let route_work_time := g_route_work_time st + service_min in
  Ok {| g_stops := g_stops st ++ [stop];
        g_route_distance := g_route_distance st + dist;
        g_route_duration := route_duration;
        g_route_work_time := route_work_time;
        g_current_node := wo_node;
        g_current_time := departure;
        g_used_hours := (route_duration + route_work_time) / 60;
        g_seq := S (g_seq st);
        g_assigned := {[ best_wo_idx ]} ∪ g_assigned st |}.

(** [while improved: ...].  Every round that does not stop adds an index
    of [sorted_wo_indices] (a permutation of [range(num_orders)]) that was
    not yet in [assigned]; so at most [num_orders] rounds commit, and the
    fuel [S num_orders] passed below is never exhausted. *)
Fixpoint greedy_loop (fuel : nat) (tech : Technician) (sorted_wo_indices : list nat)
  (st : GState) : result GState :=
  match fuel with
  | O => Ok st
  | S fuel' =>
      best <- greedy_scan tech st None sorted_wo_indices ;;
      match best with
      | None => Ok st
      | Some (best_wo_idx, _) =>
          st' <- greedy_commit tech st best_wo_idx ;;
          greedy_loop fuel' tech sorted_wo_indices st'
      end
  end.

(** [_build_technician_route(v_idx, tech, sorted_wo_indices, assigned,
    avg_speed)]; the mutated [assigned] set is returned with the route. *)
Definition _build_technician_route (v_idx : nat) (tech : Technician)
  (sorted_wo_indices : list nat) (assigned : gset nat)
  : result (TechnicianRoute * gset nat) :=
  let st0 := {| g_stops := []; g_route_distance := 0; g_route_duration := 0;
                g_route_work_time := 0; g_current_node := v_idx;
                g_current_time := tech_shift_start tech; g_used_hours := 0;
                g_seq := 0; g_assigned := assigned |} in
  st <- greedy_loop (S (length work_orders)) tech sorted_wo_indices st0 ;;
  let total_hours := (g_route_duration st + g_route_work_time st) / 60 in
  Ok ({| technician_id := tech_id tech;
         technician_name := tech_name tech;
         stops := g_stops st;
         route_total_distance := round2 (g_route_distance st);
         route_total_duration := round2 (g_route_duration st);
         route_total_work_time := round2 (g_route_work_time st);
         utilization_percent :=
           round1 (utilization total_hours (tech_max_hours tech)) |},
      g_assigned st).

(** [lambda i: self._get_priority_value(self.work_orders[i].get("priority", "low"))] *)
Definition wo_sort_key (i : nat) : nat :=
  match work_orders !! i with
  | Some wo => wo_priority_value wo
  | None => 99%nat
  end.

(** [sorted(range(num_orders), key=...)] *)
Definition sorted_wo_indices : list nat :=
  sort_by (fun i j => Nat.ltb (wo_sort_key i) (wo_sort_key j))
          (seq 0 (length work_orders)).

(** The [for v_idx, tech in enumerate(self.technicians)] loop. *)
Fixpoint greedy_routes (v_idx : nat) (techs : list Technician)
  (assigned : gset nat) : result (list TechnicianRoute * gset nat) :=
  match techs with
  | [] => Ok ([], assigned)
  | tech :: techs' =>
      ra <- _build_technician_route v_idx tech sorted_wo_indices assigned ;;
      rest <- greedy_routes (S v_idx) techs' (snd ra) ;;
      Ok (fst ra :: fst rest, snd rest)
  end.

Definition sumQ (l : list Q) : Q := fold_right Qplus 0 l.

(** [GreedySolver._solve_impl] *)
Definition greedy_solve : result OptimizationResult :=
  ra <- greedy_routes 0 technicians ∅ ;;
  let rs := fst ra in
  let assigned := snd ra in
  let all_order_ids := map wo_id work_orders in
  let unassigned :=
    omap (fun i => if bool_decide (i ∈ assigned) then None
                   else all_order_ids !! i)
         (seq 0 (length work_orders)) in
  Ok {| routes := rs;
        total_distance := round2 (sumQ (map route_total_distance rs));
        total_duration := round2 (sumQ (map route_total_duration rs));
        unassigned_orders := unassigned;
        algorithm := "GreedySolver" |}.

End Greedy.

(** ** solvers/vrp_solver.py : the result when OR-Tools finds no solution *)

Definition vrp_no_solution_result : OptimizationResult :=
  {| routes := [];
     total_distance := 0;
     total_duration := 0;
     unassigned_orders := map wo_id work_orders;
     algorithm := "VRPSolver" |}.

(** ** solvers/genetic_solver.py *)

Definition _SKILL_VIOLATION_PENALTY : Q := 500.
Definition _TIME_WINDOW_VIOLATION_PENALTY : Q := 200.
Definition _CAPACITY_VIOLATION_PENALTY : Q := 300.

Record Chromosome := {
  assignments : list nat;
  order_sequence : list nat;
  fitness : Q
}.

(** [tech_orders = {v: [] for v in range(num_technicians)}] followed by
    [for wo_idx in chromo.order_sequence:
       tech_orders[chromo.assignments[wo_idx]].append(wo_idx)];
    the dict is the list of its values in key order. *)
Fixpoint group_orders (assigns : list nat) (tech_orders : list (list nat))
  (seq_ : list nat) : result (list (list nat)) :=
  match seq_ with
  | [] => Ok tech_orders
  | wo_idx :: seq' =>
      match assigns !! wo_idx with
      | None => Raise IndexError
      | Some tech_idx =>
          if Nat.ltb tech_idx (length tech_orders)
          then group_orders assigns (alter (fun l => l ++ [wo_idx]) tech_idx tech_orders) seq'
          else Raise KeyError
      end
  end.

Definition tech_orders_of (chromo : Chromosome) : result (list (list nat)) :=
  group_orders (assignments chromo) (replicate (length technicians) [])
               (order_sequence chromo).

Section Genetic.

Variable avg_speed : Q.

(** The locals of the fitness loop: [total_distance] and [penalty] over the
    whole chromosome, the rest per technician. *)
Record FState := {
  f_total_distance : Q;
  f_penalty : Q;
  f_current_node : nat;
  f_current_time : Q;
  f_used_hours : Q
}.

(** The body of [for wo_idx in wo_indices] in [_evaluate_fitness]
    ([current_time] is a [datetime], never [None], for a valid technician). *)
Definition fitness_step (tech : Technician) (fs : FState) (wo_idx : nat)
  : result FState :=
  wo <- get_work_order wo_idx ;;
  let wo_node := (wo_idx + length technicians)%nat in
  let pen0 := if _check_skill_match tech wo then f_penalty fs
              else f_penalty fs + _SKILL_VIOLATION_PENALTY in
  dist <- get_dist (f_current_node fs) wo_node ;;
  travel_min <- estimate_travel_time_q dist avg_speed ;;
  let service_min := wo_duration_minutes wo in
  let arrival := f_current_time fs + travel_min in
  let tw_start := wo_time_window_start wo in
  let tw_end := wo_time_window_end wo in
  let arrival := if Qltb arrival tw_start then tw_start else arrival in
  let pen1 := if Qltb tw_end arrival
              then pen0 + _TIME_WINDOW_VIOLATION_PENALTY * (((arrival - tw_end)) / 60)
              else pen0 in
  let current_time := arrival + service_min in
  let pen2 := if Qltb (tech_shift_end tech) current_time
              then pen1 + _CAPACITY_VIOLATION_PENALTY
                            * ((current_time - tech_shift_end tech) / 60)
              else pen1 in
  Ok {| f_total_distance := f_total_distance fs + dist;
        f_penalty := pen2;
        f_current_node := wo_node;
        f_current_time := current_time;
        f_used_hours := f_used_hours fs + (travel_min + service_min) / 60 |}.

Fixpoint fitness_stops (tech : Technician) (fs : FState) (l : list nat)
  : result FState :=
  match l with
  | [] => Ok fs
  | wo_idx :: l' => fs' <- fitness_step tech fs wo_idx ;; fitness_stops tech fs' l'
  end.

(** One iteration of [for v_idx, wo_indices in tech_orders.items()];
    returns [(total_distance, penalty)]. *)
Definition fitness_tech (acc : Q * Q) (v_idx : nat) (wo_indices : list nat)
  : result (Q * Q) :=
  tech <- (match technicians !! v_idx with
           | Some t => Ok t | None => Raise IndexError end) ;;
  fs <- fitness_stops tech
          {| f_total_distance := fst acc; f_penalty := snd acc;
             f_current_node := v_idx; f_current_time := tech_shift_start tech;
             f_used_hours := 0 |} wo_indices ;;
  let max_hours := tech_max_hours tech in
  let penalty :=
    if Qltb max_hours (f_used_hours fs)
    then f_penalty fs + _CAPACITY_VIOLATION_PENALTY * (f_used_hours fs - max_hours)
    else f_penalty fs in
  Ok (f_total_distance fs, penalty).

Fixpoint fitness_techs (acc : Q * Q) (v_idx : nat) (tos : list (list nat))
  : result (Q * Q) :=
  match tos with
  | [] => Ok acc
  | wo_indices :: tos' =>
      acc' <- fitness_tech acc v_idx wo_indices ;;
      fitness_techs acc' (S v_idx) tos'
  end.

(** [GeneticSolver._evaluate_fitness(chromo, avg_speed)] *)
Definition _evaluate_fitness (chromo : Chromosome) : result Q :=
  tos <- tech_orders_of chromo ;;
  acc <- fitness_techs (0, 0) 0 tos ;;
  Ok (fst acc + snd acc).

(** The locals of the per-technician loop of [_decode_solution]. *)
Record DState := {
  d_stops : list RouteStop;
  d_route_distance : Q;
  d_route_duration : Q;
  d_route_work_time : Q;
  d_current_node : nat;
  d_current_time : Q;
  d_seq : nat;
  d_assigned_ids : gset string
}.

(** The body of [for wo_idx in wo_indices] in [_decode_solution]; a
    [continue] returns the state unchanged. *)
Definition decode_step (tech : Technician) (ds : DState) (wo_idx : nat)
  : result DState :=
  wo <- get_work_order wo_idx ;;
  let wo_node := (wo_idx + length technicians)%nat in
  if negb (_check_skill_match tech wo) then Ok ds else
  dist <- get_dist (d_current_node ds) wo_node ;;
  travel_min <- estimate_travel_time_q dist avg_speed ;;
  let service_min := wo_duration_minutes wo in
  let arrival := d_current_time ds + travel_min in
  let tw_start := wo_time_window_start wo in
  let tw_end := wo_time_window_end wo in
  let arrival := if Qltb arrival tw_start then tw_start else arrival in
  if Qltb tw_end arrival then Ok ds else
  let departure := arrival + service_min in
  if Qltb (tech_shift_end tech) departure then Ok ds else
  let total_hours_check :=
    (d_route_duration ds + d_route_work_time ds + travel_min + service_min) / 60 in
  if Qltb (tech_max_hours tech) total_hours_check then Ok ds else
  let stop := {| work_order_id := wo_id wo;
                 property_id := wo_property_id wo;
                 stop_lat := wo_lat wo;
                 stop_lng := wo_lng wo;
                 sequence := d_seq ds;
                 arrival_time := arrival;
                 departure_time := departure;
                 travel_distance := round2 dist;
                 travel_duration := round2 travel_min |} in
  Ok {| d_stops := d_stops ds ++ [stop];
        d_route_distance := d_route_distance ds + dist;
        d_route_duration := d_route_duration ds + travel_min;
        d_route_work_time := d_route_work_time ds + service_min;
        d_current_node := wo_node;
        d_current_time := departure;
        d_seq := S (d_seq ds);
        d_assigned_ids := {[ wo_id wo ]} ∪ d_assigned_ids ds |}.

Fixpoint decode_stops (tech : Technician) (ds : DState) (l : list nat)
  : result DState :=
  match l with
  | [] => Ok ds
  | wo_idx :: l' => ds' <- decode_step tech ds wo_idx ;; decode_stops tech ds' l'
  end.

(** One iteration of [for v_idx in range(num_technicians)]; returns the
    route with the unrounded [route_distance] and [route_duration] that are
    added to the totals, and the updated [assigned_ids]. *)
Definition decode_tech (v_idx : nat) (wo_indices : list nat)
  (assigned_ids : gset string)
  : result ((TechnicianRoute * (Q * Q)) * gset string) :=
  tech <- (match technicians !! v_idx with
           | Some t => Ok t | None => Raise IndexError end) ;;
  ds <- decode_stops tech
          {| d_stops := []; d_route_distance := 0; d_route_duration := 0;
             d_route_work_time := 0; d_current_node := v_idx;
             d_current_time := tech_shift_start tech; d_seq := 0;
             d_assigned_ids := assigned_ids |} wo_indices ;;
  let total_hours := (d_route_duration ds + d_route_work_time ds) / 60 in
  Ok (({| technician_id := tech_id tech;
          technician_name := tech_name tech;
          stops := d_stops ds;
          route_total_distance := round2 (d_route_distance ds);
          route_total_duration := round2 (d_route_duration ds);
          route_total_work_time := round2 (d_route_work_time ds);
          utilization_percent :=
            round1 (utilization total_hours (tech_max_hours tech)) |},
        (d_route_distance ds, d_route_duration ds)),
      d_assigned_ids ds).

Fixpoint decode_techs (v_idx : nat) (tos : list (list nat))
  (assigned_ids : gset string)
  : result (list (TechnicianRoute * (Q * Q)) * gset string) :=
  match tos with
  | [] => Ok ([], assigned_ids)
  | wo_indices :: tos' =>
      ra <- decode_tech v_idx wo_indices assigned_ids ;;
      rest <- decode_techs (S v_idx) tos' (snd ra) ;;
      Ok (fst ra :: fst rest, snd rest)
  end.

(** [GeneticSolver._decode_solution(best, avg_speed, convergence_history)]
    (without the metadata). *)
Definition _decode_solution (best : Chromosome) : result OptimizationResult :=
  tos <- tech_orders_of best ;;
  ra <- decode_techs 0 tos ∅ ;;
  let rts := fst ra in
  let assigned_ids := snd ra in
  let all_order_ids : gset string := list_to_set (map wo_id work_orders) in
  Ok {| routes := map fst rts;
        total_distance := round2 (sumQ (map (fun r => fst (snd r)) rts));
        total_duration := round2 (sumQ (map (fun r => snd (snd r)) rts));
        unassigned_orders := sorted_set (all_order_ids ∖ assigned_ids);
        algorithm := "GeneticSolver" |}.

End Genetic.

(** ** The evolution loop of [GeneticSolver._solve_impl] *)

(** [xs[:k]] *)
Definition py_prefix {A} (k : Z) (l : list A) : list A :=
  if Z.leb 0 k then take (Z.to_nat k) l
  else take (length l - Z.to_nat (- k)) l.

(** [xs[0]] *)
Definition py_head {A} (l : list A) : result A :=
  match l with x :: _ => Ok x | [] => Raise IndexError end.

(** [[f(x) for x in xs]] for an [f] that may raise. *)
Fixpoint map_result {A B} (f : A -> result B) (l : list A) : result (list B) :=
  match l with
  | [] => Ok []
  | x :: l' => y <- f x ;; ys <- map_result f l' ;; Ok (y :: ys)
  end.

(** [population.sort(key=lambda c: c.fitness)] *)
Definition sort_by_fitness (pop : list Chromosome) : list Chromosome :=
  sort_by (fun c d => Qltb (fitness c) (fitness d)) pop.

Definition set_fitness (c : Chromosome) (f : Q) : Chromosome :=
  {| assignments := assignments c; order_sequence := order_sequence c;
     fitness := f |}.

Section Evolution.

Variable avg_speed : Q.

(** The state of [random], and what the loop draws from it: two
    [_tournament_select]s, [_order_crossover], and [_mutate] on both
    children. *)
Variable rng : Type.
Variable breed : rng -> list Chromosome -> Chromosome * Chromosome * rng.

(** [pop_size], [elite_size], [generations] from the config. *)
Variables pop_size elite_size generations : Z.

(** [chromo.fitness = self._evaluate_fitness(chromo, avg_speed)] *)
Definition evaluated (c : Chromosome) : result Chromosome :=
  f <- _evaluate_fitness avg_speed c ;; Ok (set_fitness c f).

(** [while len(new_population) < pop_size: ...]; a round appends at least
    one child, so [pop_size] rounds of fuel are enough. *)
Fixpoint offspring_loop (fuel : nat) (population : list Chromosome) (g : rng)
  (new_population : list Chromosome) : result (list Chromosome * rng) :=
  match fuel with
  | O => Ok (new_population, g)
  | S fuel' =>
      if Z.ltb (Z.of_nat (length new_population)) pop_size then
        let '(c1, c2, g') := breed g population in
        child1 <- evaluated c1 ;;
        child2 <- evaluated c2 ;;
        let np := new_population ++ [child1] in
        let np := if Z.ltb (Z.of_nat (length np)) pop_size then np ++ [child2] else np in
        offspring_loop fuel' population g' np
      else Ok (new_population, g)
  end.

(** The body of [for gen in range(generations)], up to the sort. *)
Definition generation_step (population : list Chromosome) (g : rng)
  : result (list Chromosome * rng) :=
  let elites := py_prefix elite_size population in
  r <- offspring_loop (Z.to_nat pop_size) population g elites ;;
  let '(new_population, g') := r in
  Ok (sort_by_fitness new_population, g').

(** [for gen in range(generations): ...;
     convergence_history.append(population[0].fitness)] *)
Fixpoint evolution_loop (gens : nat) (population : list Chromosome) (g : rng)
  (convergence_history : list Q) : result (list Chromosome * list Q * rng) :=
  match gens with
  | O => Ok (population, convergence_history, g)
  | S gens' =>
      r <- generation_step population g ;;
      let '(population', g') := r in
      best <- py_head population' ;;
      evolution_loop gens' population' g' (convergence_history ++ [fitness best])
  end.

(** [_solve_impl] from the population [_initialize_population] returned to
    the end of the loop: the last population and [convergence_history]. *)
Definition ga_evolve (initial : list Chromosome) (g : rng)
  : result (list Chromosome * list Q * rng) :=
  pop <- map_result evaluated initial ;;
  let pop := sort_by_fitness pop in
  best <- py_head pop ;;
  evolution_loop (Z.to_nat generations) pop g [fitness best].

End Evolution.

End Solver.

(** ** The genetic operators of solvers/genetic_solver.py

    Their randomness comes from Python's [random] module, whose state is
    [rng]: [random.random()] draws [random_], and [Random._randbelow(n)]
    (for [n > 0]) draws [randbelow]; [randint], [choice] and [shuffle] are
    CPython's, written on top of [randbelow].  [random.sample(population, k)]
    is kept abstract: [sample_positions g n k] are the positions of the
    length-[n] population it picks, in selection order. *)

(** [xs[i]] for [i >= 0]. *)
Definition py_index {A} (l : list A) (i : nat) : result A :=
  match l !! i with Some x => Ok x | None => Raise IndexError end.

(** [x[i], x[j] = x[j], x[i]] *)
Definition py_swap {A} (i j : nat) (x : list A) : result (list A) :=
  match x !! j, x !! i with
  | Some xj, Some xi => Ok (<[j := xi]> (<[i := xj]> x))
  | _, _ => Raise IndexError
  end.

(** A [Chromosome] as [_initialize_population] and [_order_crossover]
    build it, before [_evaluate_fitness] sets its fitness (the dataclass
    default is [float('inf')]): its genes, with [None] at the positions of
    [order_sequence] that [_ox_sequence] left unfilled. *)
Record Genes := {
  g_assignments : list nat;
  g_order : list (option nat)
}.

(** [GeneticSolver._build_feasibility_mask] (and the same mask of
    [VRPSolver]): [mask[v][w]] for technician [v] and work order [w]. *)
Definition _build_feasibility_mask (work_orders : list WorkOrder)
  (technicians : list Technician) : list (list bool) :=
  map (fun tech =>
         map (fun wo => check_skill_match (tech_skills tech) (wo_required_skills wo))
             work_orders)
      technicians.

(** [feasible[v][i]] *)
Definition mask_at (feasible : list (list bool)) (v i : nat) : result bool :=
  row <- py_index feasible v ;; py_index row i.

(** [[v for v in vs if feasible[v][i]]] *)
Fixpoint feasible_techs_of (feasible : list (list bool)) (i : nat) (vs : list nat)
  : result (list nat) :=
  match vs with
  | [] => Ok []
  | v :: vs' =>
      b <- mask_at feasible v i ;;
      rest <- feasible_techs_of feasible i vs' ;;
      Ok (if b then v :: rest else rest)
  end.

Section GeneticOperators.

Variable rng : Type.
Variable random_ : rng -> Q * rng.
Variable randbelow : rng -> nat -> nat * rng.
Variable sample_positions : rng -> nat -> Z -> result (list nat * rng).

(** [random.randint(a, b)], that is [randrange(a, b + 1)] *)
Definition randint (a b : Z) (g : rng) : result (Z * rng) :=
  let width := (b + 1 - a)%Z in
  if Z.ltb 0 width then
    let '(j, g') := randbelow g (Z.to_nat width) in Ok ((a + Z.of_nat j)%Z, g')
  else value_error EmptyRange.

(** [random.choice(seq)] *)
Definition choice {A} (seq_ : list A) (g : rng) : result (A * rng) :=
  match seq_ with
  | [] => Raise IndexError
  | _ :: _ =>
      let '(j, g') := randbelow g (length seq_) in
      x <- py_index seq_ j ;; Ok (x, g')
  end.

(** [for i in reversed(range(1, len(x))):
       j = randbelow(i + 1); x[i], x[j] = x[j], x[i]], from index [i] down. *)
Fixpoint shuffle_down {A} (i : nat) (x : list A) (g : rng) : result (list A * rng) :=
  match i with
  | O => Ok (x, g)
  | S i' =>
      let '(j, g') := randbelow g (S i) in
      x' <- py_swap i j x ;;
      shuffle_down i' x' g'
  end.

(** [random.shuffle(x)] *)
Definition shuffle {A} (x : list A) (g : rng) : result (list A * rng) :=
  shuffle_down (length x - 1) x g.

(** [random.sample(range(n), k)] *)
Definition sample_range (n : nat) (k : Z) (g : rng) : result (list nat * rng) :=
  sample_positions g n k.

(** The gene drawn for work order [wo_idx] by [_initialize_population] and
    by [_mutate]:
    [feasible_techs = [v for v in range(num_technicians) if feasible[v][wo_idx]]]
    then [random.choice(feasible_techs)] if it is not empty, else
    [random.randint(0, num_technicians - 1)]. *)
Definition pick_technician (feasible : list (list bool)) (num_technicians : nat)
  (wo_idx : nat) (g : rng) : result (nat * rng) :=
  feasible_techs <- feasible_techs_of feasible wo_idx (seq 0 num_technicians) ;;
  match feasible_techs with
  | _ :: _ => choice feasible_techs g
  | [] =>
      r <- randint 0 (Z.of_nat num_technicians - 1) g ;;
      let '(v, g') := r in Ok (Z.to_nat v, g')
  end.

(** [for wo_idx in range(num_orders): assignments.append(...)] *)
Fixpoint init_assignments (feasible : list (list bool)) (num_technicians : nat)
  (wo_idxs : list nat) (g : rng) : result (list nat * rng) :=
  match wo_idxs with
  | [] => Ok ([], g)
  | wo_idx :: wo_idxs' =>
      r <- pick_technician feasible num_technicians wo_idx g ;;
      let '(v, g1) := r in
      r' <- init_assignments feasible num_technicians wo_idxs' g1 ;;
      let '(vs, g2) := r' in
      Ok (v :: vs, g2)
  end.

(** One individual of [_initialize_population]. *)
Definition init_chromosome (num_orders num_technicians : nat)
  (feasible : list (list bool)) (g : rng) : result (Genes * rng) :=
  r <- init_assignments feasible num_technicians (seq 0 num_orders) g ;;
  let '(assignments, g1) := r in
  r' <- shuffle (seq 0 num_orders) g1 ;;
  let '(order_sequence, g2) := r' in
  Ok ({| g_assignments := assignments; g_order := map Some order_sequence |}, g2).

(** [for _ in range(pop_size): ...; population.append(...)] *)
Fixpoint init_loop (k : nat) (num_orders num_technicians : nat)
  (feasible : list (list bool)) (g : rng) : result (list Genes * rng) :=
  match k with
  | O => Ok ([], g)
  | S k' =>
      r <- init_chromosome num_orders num_technicians feasible g ;;
      let '(c, g1) := r in
      r' <- init_loop k' num_orders num_technicians feasible g1 ;;
      let '(cs, g2) := r' in
      Ok (c :: cs, g2)
  end.

(** [GeneticSolver._initialize_population(pop_size, num_orders,
    num_technicians, feasible)]; [range(pop_size)] is empty for
    [pop_size <= 0]. *)
Definition _initialize_population (pop_size : Z) (num_orders num_technicians : nat)
  (feasible : list (list bool)) (g : rng) : result (list Genes * rng) :=
  init_loop (Z.to_nat pop_size) num_orders num_technicians feasible g.

(** [min(competitors, key=lambda c: c.fitness)]: the first element of
    least fitness. *)
Fixpoint min_fitness_from (best : Chromosome) (l : list Chromosome) : Chromosome :=
  match l with
  | [] => best
  | c :: l' =>
      if Qltb (fitness c) (fitness best) then min_fitness_from c l'
      else min_fitness_from best l'
  end.

Definition py_min_fitness (l : list Chromosome) : result Chromosome :=
  match l with
  | [] => value_error EmptyMin
  | c :: l' => Ok (min_fitness_from c l')
  end.

(** [GeneticSolver._tournament_select(population, tournament_size)] *)
Definition _tournament_select (population : list Chromosome) (tournament_size : Z)
  (g : rng) : result (Chromosome * rng) :=
  let n := length population in
  r <- sample_positions g n (Z.min tournament_size (Z.of_nat n)) ;;
  let '(ps, g1) := r in
  competitors <- map_result (py_index population) ps ;;
  c <- py_min_fitness competitors ;;
  Ok (c, g1).

(** The uniform crossover of [_order_crossover]:
    [for i in range(n): if random.random() < 0.5: ... else: ...] *)
Fixpoint xo_assign (a1 a2 : list nat) (is_ : list nat) (g : rng)
  : result (list nat * list nat * rng) :=
  match is_ with
  | [] => Ok ([], [], g)
  | i :: is' =>
      let '(r, g1) := random_ g in
      xs <- (if Qltb r (1 # 2)
             then x1 <- py_index a1 i ;; x2 <- py_index a2 i ;; Ok (x1, x2)
             else x1 <- py_index a2 i ;; x2 <- py_index a1 i ;; Ok (x1, x2)) ;;
      rest <- xo_assign a1 a2 is' g1 ;;
      let '(c1, c2, g2) := rest in
      Ok (xs.1 :: c1, xs.2 :: c2, g2)
  end.

(** [while child[pos] is not None: pos += 1] over [child[pos:]]. *)
Fixpoint next_hole (l : list (option nat)) (pos : nat) : result nat :=
  match l with
  | [] => Raise IndexError
  | None :: _ => Ok pos
  | Some _ :: l' => next_hole l' (S pos)
  end.

(** [for val in fill_values: while ...: pos += 1; child[pos] = val] *)
Fixpoint ox_fill (fill_values : list nat) (child : list (option nat)) (pos : nat)
  : result (list (option nat)) :=
  match fill_values with
  | [] => Ok child
  | val :: fill' =>
      pos' <- next_hole (drop pos child) pos ;;
      ox_fill fill' (<[pos' := Some val]> child) pos'
  end.

(** [GeneticSolver._ox_sequence(seq1, seq2)]. The drawn [start] and [end]
    are non-negative, and [child[start:end+1] = seq1[start:end+1]] replaces
    the slice in place (both lists have length [n], so the slices clip
    alike). *)
Definition _ox_sequence (seq1 seq2 : list nat) (g : rng)
  : result (list (option nat) * rng) :=
  let n := length seq1 in
  if Nat.leb n 2 then Ok (map Some seq1, g)
  else
    r1 <- randint 0 (Z.of_nat n - 2) g ;;
    let '(start, g1) := r1 in
    r2 <- randint (start + 1) (Z.of_nat n - 1) g1 ;;
    let '(end_, g2) := r2 in
    let s := Z.to_nat start in
    let e1 := Z.to_nat (end_ + 1) in
    let none := replicate n (@None nat) in
    let kept := drop s (take e1 seq1) in
    let child := take s none ++ map Some kept ++ drop e1 none in
    let fill_values := filter (fun x => x ∉ kept) seq2 in
    child' <- ox_fill fill_values child 0 ;;
    Ok (child', g2).

(** [GeneticSolver._order_crossover(parent1, parent2)] *)
Definition _order_crossover (parent1 parent2 : Chromosome) (g : rng)
  : result (Genes * Genes * rng) :=
  let n := length (order_sequence parent1) in
  r <- xo_assign (assignments parent1) (assignments parent2) (seq 0 n) g ;;
  let '(child1_assign, child2_assign, g1) := r in
  r1 <- _ox_sequence (order_sequence parent1) (order_sequence parent2) g1 ;;
  let '(child1_seq, g2) := r1 in
  r2 <- _ox_sequence (order_sequence parent2) (order_sequence parent1) g2 ;;
  let '(child2_seq, g3) := r2 in
  Ok ({| g_assignments := child1_assign; g_order := child1_seq |},
      {| g_assignments := child2_assign; g_order := child2_seq |}, g3).

(** [for i in range(n): if random.random() < mutation_rate: ...] *)
Fixpoint mutate_assign (mutation_rate : Q) (num_technicians : nat)
  (feasible : list (list bool)) (is_ : list nat) (assigns : list nat) (g : rng)
  : result (list nat * rng) :=
  match is_ with
  | [] => Ok (assigns, g)
  | i :: is' =>
      let '(r, g1) := random_ g in
      if Qltb r mutation_rate then
        p <- pick_technician feasible num_technicians i g1 ;;
        let '(v, g2) := p in
        mutate_assign mutation_rate num_technicians feasible is' (<[i := v]> assigns) g2
      else mutate_assign mutation_rate num_technicians feasible is' assigns g1
  end.

(** [GeneticSolver._mutate(chromo, mutation_rate, num_technicians, feasible)],
    which mutates [chromo] in place: the mutated genes. *)
Definition _mutate (chromo : Genes) (mutation_rate : Q) (num_technicians : nat)
  (feasible : list (list bool)) (g : rng) : result (Genes * rng) :=
  let n := length (g_assignments chromo) in
  r <- mutate_assign mutation_rate num_technicians feasible (seq 0 n)
         (g_assignments chromo) g ;;
  let '(assigns, g1) := r in
  if Nat.leb 2 n then
    let '(x, g2) := random_ g1 in
    if Qltb x mutation_rate then
      r' <- sample_range n 2 g2 ;;
      let '(ij, g3) := r' in
      match ij with
      | [i; j] =>
          order <- py_swap i j (g_order chromo) ;;
          Ok ({| g_assignments := assigns; g_order := order |}, g3)
      | _ => value_error UnpackCount
      end
    else Ok ({| g_assignments := assigns; g_order := g_order chromo |}, g2)
  else Ok ({| g_assignments := assigns; g_order := g_order chromo |}, g1).

(** One round of the offspring loop of [_solve_impl], up to the fitness
    evaluation: two tournaments, the crossover, and the mutation of both
    children. *)
Definition breed_round (population : list Chromosome) (tournament_size : Z)
  (mutation_rate : Q) (num_technicians : nat) (feasible : list (list bool))
  (g : rng) : result (Genes * Genes * rng) :=
  r1 <- _tournament_select population tournament_size g ;;
  let '(parent1, g1) := r1 in
  r2 <- _tournament_select population tournament_size g1 ;;
  let '(parent2, g2) := r2 in
  r3 <- _order_crossover parent1 parent2 g2 ;;
  let '(child1, child2, g3) := r3 in
  r4 <- _mutate child1 mutation_rate num_technicians feasible g3 ;;
  let '(child1', g4) := r4 in
  r5 <- _mutate child2 mutation_rate num_technicians feasible g4 ;;
  let '(child2', g5) := r5 in
  Ok (child1', child2', g5).

End GeneticOperators.

(** ** solvers/base_solver.py : [BaseSolver.__init__] and [_validate_inputs]

    Validation reads the records as the dicts they are: a [gmap] from key
    to value. *)

Abbreviation PyDict := (gmap string pyval).

Definition REQUIRED_WORK_ORDER_KEYS : gset string :=
  list_to_set ["id"; "property_id"; "lat"; "lng"; "priority";
               "required_skills"; "duration_minutes"; "time_window_start";
               "time_window_end"]%string.

Definition REQUIRED_TECHNICIAN_KEYS : gset string :=
  list_to_set ["id"; "name"; "skills"; "home_lat"; "home_lng"; "max_hours";
               "shift_start"; "shift_end"]%string.

(** [rec.get('id', 'UNKNOWN')] *)
Definition get_id (rec : PyDict) : pyval :=
  match rec !! "id"%string with Some v => v | None => PStr "UNKNOWN" end.

(** [for idx, wo in enumerate(records): missing = REQUIRED - set(wo.keys());
     if missing: raise ValueError(...)] *)
Fixpoint check_records (required : gset string)
  (mk : nat -> pyval -> gset string -> verror) (idx : nat) (recs : list PyDict)
  : result unit :=
  match recs with
  | [] => Ok tt
  | r :: recs' =>
      let missing := required ∖ dom r in
      if bool_decide (missing = ∅) then check_records required mk (S idx) recs'
      else value_error (mk idx (get_id r) missing)
  end.

(** [for row_idx, row in enumerate(self.distance_matrix): ...] *)
Fixpoint check_rows (expected_size : nat) (row_idx : nat) (rows : list (list Q))
  : result unit :=
  match rows with
  | [] => Ok tt
  | row :: rows' =>
      if Nat.eqb (length row) expected_size
      then check_rows expected_size (S row_idx) rows'
      else value_error (MatrixRowLength row_idx (length row) expected_size)
  end.

(** [BaseSolver._validate_inputs] *)
Definition _validate_inputs (work_orders technicians : list PyDict)
  (distance_matrix : list (list Q)) : result unit :=
  if bool_decide (work_orders = []) then value_error EmptyWorkOrders else
  if bool_decide (technicians = []) then value_error EmptyTechnicians else
  _ <- check_records REQUIRED_WORK_ORDER_KEYS WorkOrderMissingKeys 0 work_orders ;;
  _ <- check_records REQUIRED_TECHNICIAN_KEYS TechnicianMissingKeys 0 technicians ;;
  let expected_size := (length technicians + length work_orders)%nat in
  if negb (Nat.eqb (length distance_matrix) expected_size)
  then value_error (MatrixRowCount (length distance_matrix) expected_size)
  else check_rows expected_size 0 distance_matrix.

(** A constructed solver object: its fields after [__init__]. *)
Record SolverObj := {
  so_work_orders : list PyDict;
  so_technicians : list PyDict;
  so_distance_matrix : list (list Q);
  so_config : gmap string pyval
}.

(** [BaseSolver.__init__] (shared by [GreedySolver], [GeneticSolver] and
    [VRPSolver], none of which overrides it): the fields are stored, then
    [_validate_inputs] runs; [solve()] can only be called on the object
    this returns. *)
Definition BaseSolver_init (work_orders technicians : list PyDict)
  (distance_matrix : list (list Q)) (config : gmap string pyval)
  : result SolverObj :=
  _ <- _validate_inputs work_orders technicians distance_matrix ;;
  Ok {| so_work_orders := work_orders; so_technicians := technicians;
        so_distance_matrix := distance_matrix; so_config := config |}.

(** ** utils/distance.py : [haversine_distance], [build_distance_matrix]

    This part works on binary64 floats (Rocq's primitive [float]): the
    properties below turn on how the haversine formula rounds.  The C
    library's [sin], [cos], [pow] and CPython's [m_atan2] are parameters;
    CPython's wrappers around them, which decide when a call raises, are
    written out (Modules/mathmodule.c and Objects/floatobject.c). *)

(** [Py_MATH_PI] *)
Definition py_math_pi : float := 0x1.921fb54442d18p+1.

(** [degToRad = Py_MATH_PI / 180.0] *)
Definition degToRad : float := (py_math_pi / 180)%float.

(** [math.radians(x)] *)
Definition math_radians (x : float) : float := (x * degToRad)%float.

(** [_EARTH_RADIUS_MILES = 3958.8], the float nearest to it. *)
Definition _EARTH_RADIUS_MILES : float := 0x1.eed999999999ap+11.

(** [math_1] for a function that cannot overflow ([sin], [cos], [sqrt]):
    a NaN from a non-NaN argument, or an infinity from a finite one, is
    [ValueError("math domain error")]. *)
Definition math_1 (f : float -> float) (x : float) : result float :=
  let r := f x in
  if is_nan r && negb (is_nan x) then value_error MathDomainError
  else if is_infinity r && is_finite x then value_error MathDomainError
  else Ok r.

(** [math_2] for [atan2]: a NaN from non-NaN arguments is a domain error,
    an infinity from finite ones an [OverflowError]. *)
Definition math_2 (f : float -> float -> float) (x y : float) : result float :=
  let r := f x y in
  if is_nan r && negb (is_nan x) && negb (is_nan y) then value_error MathDomainError
  else if is_infinity r && is_finite x && is_finite y then Raise OverflowError
  else Ok r.

(** [math.sqrt(x)]: [math_1] over the correctly rounded square root. *)
Definition math_sqrt (x : float) : result float := math_1 PrimFloat.sqrt x.

(** The exact value of a finite float [(-1)^s * m * 2^e]. *)
Definition sf_value (m : positive) (e : Z) : Q := inject_Z (Zpos m) * Qpower 2 e.

(** [round(x, 4)] ([float___round__] and [double_round]): NaNs, infinities
    and zeros are returned as they are; otherwise the result is the float
    nearest to [n / 10^4], [n] the exact [|x| * 10^4] rounded half to even,
    with the sign of [x].  When [n < 2^53], [n] and [10^4] are floats and one
    correctly rounded division gives it; otherwise [|x| > 2^39], where
    neighbouring floats are at least [2^-13 > 10^-4] apart, so the nearest
    float to [n / 10^4] is [x] itself. *)
Definition round4 (x : float) : float :=
  match Prim2SF x with
  | S754_finite s m e =>
      let n := round_half_even (sf_value m e * 10000) in
      if Z.ltb n (2 ^ 53) then
        let r := (of_uint63 (Uint63.of_Z n) / 10000)%float in
        if s then (- r)%float else r
      else x
  | _ => x
  end.

(** [round(x, 2)]: as [round4] with [10^2].  When [n >= 2^53], [|x| > 2^46],
    where neighbouring floats are at least [2^-6] apart, more than twice the
    distance [0.005] from [x] to [n / 10^2], so [x] itself is nearest. *)
Definition round2f (x : float) : float :=
  match Prim2SF x with
  | S754_finite s m e =>
      let n := round_half_even (sf_value m e * 100) in
      if Z.ltb n (2 ^ 53) then
        let r := (of_uint63 (Uint63.of_Z n) / 100)%float in
        if s then (- r)%float else r
      else x
  | _ => x
  end.

(** ** utils/distance.py : estimate_travel_time, build_duration_matrix *)

(** [DEFAULT_SPEED_MPH = 30.0] *)
Definition DEFAULT_SPEED_MPH : float := 30%float.

(** [estimate_travel_time(distance_miles, speed_mph)]: the comparisons,
    the division and the product by [60.0] in binary64, then [round(., 2)]. *)
Definition estimate_travel_time (distance_miles speed_mph : float) : result float :=
  if (distance_miles <? 0)%float then value_error (NegativeDistanceF distance_miles)
  else if (speed_mph <=? 0)%float then value_error (NonPositiveSpeedF speed_mph)
  else Ok (round2f ((distance_miles / speed_mph) * 60)%float).

(** [estimate_travel_time(distance_miles)] with the default speed. *)
Definition estimate_travel_time_default (distance_miles : float) : result float :=
  estimate_travel_time distance_miles DEFAULT_SPEED_MPH.

(** [build_duration_matrix(distance_matrix, avg_speed_mph)]: a [ValueError]
    for a speed [<= 0]; otherwise every entry [d] becomes
    [round((d / avg_speed_mph) * 60.0, 2)] (no check on the sign of [d]). *)
Definition build_duration_matrix (distance_matrix : list (list float))
  (avg_speed_mph : float) : result (list (list float)) :=
  if (avg_speed_mph <=? 0)%float then value_error (NonPositiveAvgSpeed avg_speed_mph)
  else Ok (map (map (fun d => round2f ((d / avg_speed_mph) * 60)%float)) distance_matrix).

(** The float nearest to a rational (ties to even), by the correctly
    rounded division of [Qnum q] by [Qden q]: how a Python [int] or an exact
    decimal literal becomes a [float]. *)
Definition Q_to_float (q : Q) : float :=
  let conv (sx : bool) (n : positive) :=
    let '(mz, ez, lz) := SpecFloat.SFdiv_core_binary 53 1024 (Zpos n) 0 (Zpos (Qden q)) 0 in
    SF2Prim (SpecFloat.binary_round_aux 53 1024 sx mz ez lz) in
  match Qnum q with
  | Z0 => 0%float
  | Zpos n => conv false n
  | Zneg n => conv true n
  end.

(** [matrix[i][j] = x] for indices in range (the only ones the function
    writes). *)
Definition set_entry (m : list (list float)) (i j : nat) (x : float)
  : list (list float) :=
  alter (fun row => <[j := x]> row) i m.

(** [loc[key]] *)
Definition get_coord (loc : gmap string float) (key : string) : result float :=
  match loc !! key with Some v => Ok v | None => Raise KeyError end.

Section DistanceMatrix.

Local Open Scope float_scope.

(** The C library's [sin], [cos] and [pow], and [m_atan2] (CPython's
    [atan2] with its special cases for NaNs, infinities and zeros). *)
Variables libm_sin libm_cos : float -> float.
Variable libm_atan2 : float -> float -> float.
Variable libm_pow : float -> float -> float.

(** [math.sin], [math.cos], [math.atan2] *)
Definition math_sin (x : float) : result float := math_1 libm_sin x.
Definition math_cos (x : float) : result float := math_1 libm_cos x.
Definition math_atan2 (y x : float) : result float := math_2 libm_atan2 y x.

(** [x ** 2] ([float_pow] with exponent [2.0]): a NaN is returned as it is,
    an infinity gives [inf], a zero [0.0]; otherwise the sign is dropped,
    [1.0] gives [1.0], and an infinite [pow(|x|, 2.0)] is an
    [OverflowError]. *)
Definition float_pow2 (x : float) : result float :=
  if is_nan x then Ok x
  else if is_infinity x then Ok infinity
  else if x =? 0 then Ok 0
  else
    let v := abs x in
    if v =? 1 then Ok 1
    else
      let r := libm_pow v 2 in
      if is_infinity r then Raise OverflowError else Ok r.

(** [haversine_distance(lat1, lng1, lat2, lng2)] *)
Definition haversine_distance (lat1 lng1 lat2 lng2 : float) : result float :=
  let lat1_r := math_radians lat1 in
  let lng1_r := math_radians lng1 in
  let lat2_r := math_radians lat2 in
  let lng2_r := math_radians lng2 in
  let dlat := lat2_r - lat1_r in
  let dlng := lng2_r - lng1_r in
  s_lat <- math_sin (dlat / 2) ;;
  s_lat2 <- float_pow2 s_lat ;;
  c1 <- math_cos lat1_r ;;
  c2 <- math_cos lat2_r ;;
  s_lng <- math_sin (dlng / 2) ;;
  s_lng2 <- float_pow2 s_lng ;;
  let a := s_lat2 + c1 * c2 * s_lng2 in
  sa <- math_sqrt a ;;
  sb <- math_sqrt (1 - a) ;;
  t <- math_atan2 sa sb ;;
  let c := 2 * t in
  Ok (_EARTH_RADIUS_MILES * c).

Variable locations : list (gmap string float).

(** [for idx, loc in enumerate(locations): if "lat" not in loc or "lng"
    not in loc: raise ValueError(...)] *)
Fixpoint check_locations (idx : nat) (locs : list (gmap string float))
  : result unit :=
  match locs with
  | [] => Ok tt
  | loc :: locs' =>
      if bool_decide ("lat"%string ∉ dom loc \/ "lng"%string ∉ dom loc)
      then value_error (LocationMissingLatLng idx)
      else check_locations (S idx) locs'
  end.

Definition get_location (i : nat) : result (gmap string float) :=
  match locations !! i with Some l => Ok l | None => Raise IndexError end.

(** [dist = haversine_distance(locations[i]["lat"], locations[i]["lng"],
    locations[j]["lat"], locations[j]["lng"]); dist = round(dist, 4)] *)
Definition pair_distance (i j : nat) : result float :=
  li <- get_location i ;;
  lat_i <- get_coord li "lat" ;;
  lng_i <- get_coord li "lng" ;;
  lj <- get_location j ;;
  lat_j <- get_coord lj "lat" ;;
  lng_j <- get_coord lj "lng" ;;
  dist <- haversine_distance lat_i lng_i lat_j lng_j ;;
  Ok (round4 dist).

(** The body of [for j in range(i + 1, n)]. *)
Definition matrix_pair (matrix : list (list float)) (i j : nat)
  : result (list (list float)) :=
  dist <- pair_distance i j ;;
  Ok (set_entry (set_entry matrix i j dist) j i dist).

Fixpoint matrix_inner (i : nat) (js : list nat) (matrix : list (list float))
  : result (list (list float)) :=
  match js with
  | [] => Ok matrix
  | j :: js' => m <- matrix_pair matrix i j ;; matrix_inner i js' m
  end.

Fixpoint matrix_outer (n : nat) (is_ : list nat) (matrix : list (list float))
  : result (list (list float)) :=
  match is_ with
  | [] => Ok matrix
  | i :: is' =>
      m <- matrix_inner i (seq (S i) (n - S i)) matrix ;;
      matrix_outer n is' m
  end.

(** [build_distance_matrix(locations)] *)
Definition build_distance_matrix : result (list (list float)) :=
  let n := length locations in
  if Nat.eqb n 0 then Ok [] else
  _ <- check_locations 0 locations ;;
  matrix_outer n (seq 0 n) (replicate n (replicate n 0)).

End DistanceMatrix.

(** ** Sample instances *)

Module Sample.

Definition tech_a : Technician :=
  {| tech_id := "T1"; tech_name := "Tech One"; tech_skills := ["a"]%string;
     tech_home_lat := 0; tech_home_lng := 0; tech_max_hours := 8;
     tech_shift_start := 0; tech_shift_end := 600 |}.

Definition mk_order (id : string) (skills : list string) (priority : string)
  : WorkOrder :=
  {| wo_id := id; wo_property_id := "P"; wo_lat := 0; wo_lng := 0;
     wo_priority := priority; wo_required_skills := skills;
     wo_duration_minutes := 30; wo_time_window_start := 0;
     wo_time_window_end := 600 |}.

(** Two orders no technician can serve, listed out of alphabetical order. *)
Definition orders_ba : list WorkOrder :=
  [mk_order "b" ["x"] "low"; mk_order "a" ["x"] "low"]%string.

Definition matrix_3 : list (list Q) := [[0; 1; 1]; [1; 0; 1]; [1; 1; 0]].

(** Two servable orders, the nearer one of lower priority. *)
Definition orders_cd : list WorkOrder :=
  [mk_order "c" ["a"] "low"; mk_order "d" ["a"] "High"]%string.

Definition matrix_cd : list (list Q) := [[0; 1; 4]; [1; 0; 4]; [4; 4; 0]].

(** Three orders, the middle one needing a skill nobody has. *)
Definition orders_mix : list WorkOrder :=
  [mk_order "c" ["a"] "low"; mk_order "b" ["x"] "low";
   mk_order "d" ["a"] "High"]%string.

Definition matrix_mix : list (list Q) :=
  [[0; 1; 1; 4]; [1; 0; 1; 4]; [1; 1; 0; 1]; [4; 4; 1; 0]].

(** A chromosome giving every order to the one technician. *)
Definition best_mix : Chromosome :=
  {| assignments := [0; 0; 0]%nat; order_sequence := [2; 0; 1]%nat; fitness := 0 |}.

(** The same orders in the sequence [b], [c], [d]: a fitness of 506,
    against 509 for [best_mix]. *)
Definition b_first_mix : Chromosome :=
  {| assignments := [0; 0; 0]%nat; order_sequence := [1; 0; 2]%nat; fitness := 0 |}.

(** Raw input records, as the dicts the validation reads. *)
Definition wo_dict (id : string) : gmap string pyval :=
  list_to_map [("id", PStr id); ("property_id", PStr "P"); ("lat", PNum 0);
               ("lng", PNum 0); ("priority", PStr "low");
               ("required_skills", PList []); ("duration_minutes", PNum 30);
               ("time_window_start", PNum 0); ("time_window_end", PNum 600)]%string.

Definition wo_dict_no_lat (id : string) : gmap string pyval :=
  delete "lat"%string (wo_dict id).

Definition tech_dict (id : string) : gmap string pyval :=
  list_to_map [("id", PStr id); ("name", PStr "Tech"); ("skills", PList []);
               ("home_lat", PNum 0); ("home_lng", PNum 0); ("max_hours", PNum 8);
               ("shift_start", PNum 0); ("shift_end", PNum 600)]%string.

Definition zero_matrix (n : nat) : list (list Q) := replicate n (replicate n 0).

(** The state of [_build_technician_route] before its first round. *)
Definition start_state : GState :=
  {| g_stops := []; g_route_distance := 0; g_route_duration := 0;
     g_route_work_time := 0; g_current_node := 0;
     g_current_time := tech_shift_start tech_a; g_used_hours := 0;
     g_seq := 0; g_assigned := ∅ |}.

(** A point and its antipode, [{"lat": 2.5, "lng": 0.0}] and
    [{"lat": -2.5, "lng": 180.0}]. *)
Definition antipodal_locations : list (gmap string float) :=
  [<["lat" := 2.5%float]> (<["lng" := 0%float]> ∅);
   <["lat" := (-2.5)%float]> (<["lng" := 180%float]> ∅)]%string.

(** A function given by a table of points, NaN elsewhere. *)
Definition float_table (pts : list (float * float)) (x : float) : float :=
  match List.find (fun p => (fst p =? x)%float) pts with
  | Some p => snd p
  | None => nan
  end.

(** C library values (glibc, as CPython 3.11 returns them) at the points
    [haversine_distance] evaluates for [antipodal_locations]. *)
Definition sin_table : float -> float :=
  float_table [((-0x1.657184ae74487p-5)%float, (-0x1.65547c4694e11p-5)%float);
               (0x1.921fb54442d18p+0%float, 1%float)].
Definition cos_table : float -> float :=
  float_table [(0x1.657184ae74487p-5%float, 0x1.ff833f9da45f7p-1%float);
               ((-0x1.657184ae74487p-5)%float, 0x1.ff833f9da45f7p-1%float)].
Definition pow_table (x y : float) : float :=
  if (y =? 2)%float
  then float_table [(0x1.65547c4694e11p-5%float, 0x1.f2c4be7ea5e1ep-10%float)] x
  else nan.
Definition atan2_any (y x : float) : float := 0%float.

End Sample.

(** ** Specification predicates *)

(** A stop serving [wo] for [tech] is temporally feasible. *)
Definition stop_feasible (tech : Technician) (wo : WorkOrder) (s : RouteStop) : Prop :=
  work_order_id s = wo_id wo /\
  wo_time_window_start wo <= arrival_time s /\
  arrival_time s <= wo_time_window_end wo /\
  departure_time s <= tech_shift_end tech.

(** Cumulative travel-plus-service hours of a route whose stops serve [ws]. *)
Definition route_hours (ss : list RouteStop) (ws : list WorkOrder) : Q :=
  (sumQ (map travel_duration ss) + sumQ (map wo_duration_minutes ws)) / 60.

(** The ids served by the routes of a result, in route order. *)
Definition assigned_ids (r : OptimizationResult) : list string :=
  concat (map (fun rt => map work_order_id (stops rt)) (routes r)).

(** Partition and uniqueness of the work-order ids of a result. *)
Definition partitions (wos : list WorkOrder) (r : OptimizationResult) : Prop :=
  NoDup (assigned_ids r) /\
  (forall x, x ∈ assigned_ids r -> x ∉ unassigned_orders r) /\
  (forall x, x ∈ map wo_id wos <-> x ∈ assigned_ids r \/ x ∈ unassigned_orders r).

(** Python's [sorted(xs) == xs] for a list of strings. *)
Definition is_sorted_str (l : list string) : Prop :=
  forall i x y, l !! i = Some x -> l !! S i = Some y -> str_ltb y x = false.

(** ** The fitness of a chromosome as the specification states it

    A clearly separate definition, written from the specification's
    wording, to be compared with [_evaluate_fitness]: for each technician,
    the schedule of its orders (in chromosome order, from its home node;
    an early arrival waits for the window start) is computed first, and the
    fitness is the sum of leg distances and of the penalties read off the
    schedule. *)

Record Leg := {
  leg_order : WorkOrder;
  leg_distance : Q;
  leg_travel : Q;
  leg_arrival : Q;
  leg_departure : Q
}.

(** The positive part [max(0, x)]. *)
Definition pos_part (x : Q) : Q := if Qle_bool x 0 then 0 else x.

Definition qmax (x y : Q) : Q := if Qle_bool x y then y else x.

Section SpecFitness.

Variables (wos : list WorkOrder) (techs : list Technician)
  (dm : list (list Q)) (speed : Q).

Fixpoint schedule (node : nat) (t : Q) (l : list nat) : result (list Leg) :=
  match l with
  | [] => Ok []
  | i :: l' =>
      wo <- get_work_order wos i ;;
      d <- get_dist dm node (i + length techs) ;;
      travel <- estimate_travel_time_q d speed ;;
      let arr := qmax (wo_time_window_start wo) (t + travel) in
      let dep := arr + wo_duration_minutes wo in
      rest <- schedule (i + length techs)%nat dep l' ;;
      Ok ({| leg_order := wo; leg_distance := d; leg_travel := travel;
             leg_arrival := arr; leg_departure := dep |} :: rest)
  end.

(** Distance, plus 500 per skill mismatch, plus 200 per hour late past
    the window end, plus 300 per hour past the shift end at each stop, plus
    300 per hour of travel-plus-service beyond [max_hours]. *)
Definition route_cost (tech : Technician) (legs : list Leg) : Q :=
  let used := sumQ (map (fun g => (leg_travel g + wo_duration_minutes (leg_order g)) / 60) legs) in
  sumQ (map leg_distance legs)
  + 500 * sumQ (map (fun g => if _check_skill_match tech (leg_order g) then 0 else 1) legs)
  + sumQ (map (fun g => 200 * (pos_part (leg_arrival g - wo_time_window_end (leg_order g)) / 60)) legs)
  + sumQ (map (fun g => 300 * (pos_part (leg_departure g - tech_shift_end tech) / 60)) legs)
  + 300 * pos_part (used - tech_max_hours tech).

Fixpoint route_costs (v : nat) (tos : list (list nat)) : result (list Q) :=
  match tos with
  | [] => Ok []
  | l :: tos' =>
      tech <- (match techs !! v with Some t => Ok t | None => Raise IndexError end) ;;
      legs <- schedule v (tech_shift_start tech) l ;;
      rest <- route_costs (S v) tos' ;;
      Ok (route_cost tech legs :: rest)
  end.

Definition spec_fitness (chromo : Chromosome) : result Q :=
  tos <- tech_orders_of techs chromo ;;
  costs <- route_costs 0 tos ;;
  Ok (sumQ costs).

End SpecFitness.

(** Two results agree: both values related by [R], or the same exception. *)
Definition res_rel {A B} (R : A -> B -> Prop) (x : result A) (y : result B) : Prop :=
  match x, y with
  | Ok a, Ok b => R a b
  | Raise e1, Raise e2 => e1 = e2
  | _, _ => False
  end.

(** [matrix[a][b]], [None] out of range. *)
Definition lookup2 {A} (m : list (list A)) (a b : nat) : option A :=
  m !! a ≫= fun row => row !! b.

(** An [n x n] list of lists. *)
Definition square {A} (n : nat) (m : list (list A)) : Prop :=
  length m = n /\ forall row, row ∈ m -> length row = n.

(** A sequence in which no entry exceeds the one before it. *)
Definition nonincreasing (xs : list Q) : Prop :=
  forall k x y, xs !! k = Some x -> xs !! S k = Some y -> y <= x.

(** A location with both coordinates. *)
Definition complete_loc (loc : gmap string float) : Prop :=
  "lat"%string ∈ dom loc /\ "lng"%string ∈ dom loc.

(** ** utils/constraints.py: [validate_route] *)

(** A route stop dict as [validate_route] reads it. [None] in
    [sr_work_order_id] is an absent key ([.get] gives ["UNKNOWN"]), in
    [sr_arrival_time] and [sr_departure_time] an absent key or [None], in
    [sr_travel_duration] an absent key ([.get] gives [0.0]). Times are
    minutes, as elsewhere in this file; the work orders and the technician
    are the records of this file, with every key [.get] reads present.
    A [Q] field holds the exact value of the Python [int] or [float] it
    stands for (an [int] below [2^53] in magnitude, or a [float]): the
    code only compares these, and a comparison is exact in Python as in
    [Q]; [Q_to_float] gives the [float] back where the code adds them to a
    [float].  The travel duration is a [float], as the solvers write it. *)
Record StopRecord := {
  sr_work_order_id : option string;
  sr_arrival_time : option Q;
  sr_departure_time : option Q;
  sr_travel_duration : option float
}.

(** [x > q] for a [float] [x] and the exact value [q] of an [int] or a
    finite [float]: Python compares the exact values; a NaN is greater
    than nothing, [inf] than everything. *)
Definition float_gtb (x : float) (q : Q) : bool :=
  match Prim2SF x with
  | S754_zero _ => Qltb q 0
  | S754_infinity sx => negb sx
  | S754_nan => false
  | S754_finite sx m e => Qltb q (if sx then - sf_value m e else sf_value m e)
  end.

(** A violation message of [validate_route]: its kind and the values the
    f-string reports, in the order they are appended. *)
Inductive violation :=
  | WorkOrderNotFound (stop_idx : nat) (wo_id : string)
  | MissingSkills (stop_idx : nat) (wo_id : string) (tech_id : string)
      (missing : gset string)
  | OutsideWindow (stop_idx : nat) (wo_id : string) (arrival tw_start tw_end : Q)
  | BeforeShiftStart (stop_idx : nat) (wo_id : string) (arrival shift_start : Q)
  | AfterShiftEnd (stop_idx : nat) (wo_id : string) (departure shift_end : Q)
  | ExceedsMaxHours (tech_id : string) (cumulative_hours : float) (max_hours : Q).

(** The [for stop_idx, stop in enumerate(route)] loop of [validate_route],
    threading [violations] and [cumulative_minutes], a [float]: each stop
    with a work order adds [duration_min + travel_min], in binary64. *)
Fixpoint validate_stops (technician : Technician) (work_orders : gmap string WorkOrder)
  (stop_idx : nat) (route : list StopRecord) (violations : list violation)
  (cumulative_minutes : float) : result (list violation * float) :=
  match route with
  | [] => Ok (violations, cumulative_minutes)
  | stop :: route' =>
      let wo_id := default "UNKNOWN"%string (sr_work_order_id stop) in
      match work_orders !! wo_id with
      | None =>
          validate_stops technician work_orders (S stop_idx) route'
            (violations ++ [WorkOrderNotFound stop_idx wo_id]) cumulative_minutes
      | Some wo =>
          let tech_skills_ := tech_skills technician in
          let required_skills := wo_required_skills wo in
          let v_skill :=
            if check_skill_match tech_skills_ required_skills then []
            else [MissingSkills stop_idx wo_id (tech_id technician)
                    (list_to_set required_skills ∖ list_to_set tech_skills_)] in
          let arrival := sr_arrival_time stop in
          let tw_start := wo_time_window_start wo in
          let tw_end := wo_time_window_end wo in
          v_window <-
            (match arrival with
             | Some a =>
                 ok <- check_time_window a tw_start tw_end ;;
                 Ok (if ok then [] else [OutsideWindow stop_idx wo_id a tw_start tw_end])
             | None => Ok []
             end) ;;
          let v_start :=
            match arrival with
            | Some a =>
                if Qltb a (tech_shift_start technician)
                then [BeforeShiftStart stop_idx wo_id a (tech_shift_start technician)]
                else []
            | None => []
            end in
          let v_end :=
            match sr_departure_time stop with
            | Some d =>
                if Qltb (tech_shift_end technician) d
                then [AfterShiftEnd stop_idx wo_id d (tech_shift_end technician)]
                else []
            | None => []
            end in
          let duration_min := Q_to_float (wo_duration_minutes wo) in
          let travel_min := default 0%float (sr_travel_duration stop) in
          validate_stops technician work_orders (S stop_idx) route'
            (violations ++ v_skill ++ v_window ++ v_start ++ v_end)
            (cumulative_minutes + (duration_min + travel_min))%float
      end
  end.

(** [validate_route(route, technician, work_orders)]. *)
Definition validate_route (route : list StopRecord) (technician : Technician)
  (work_orders : gmap string WorkOrder) : result (list violation) :=
  r <- validate_stops technician work_orders 0 route [] 0%float ;;
  let '(violations, cumulative_minutes) := r in
  let cumulative_hours := (cumulative_minutes / 60)%float in
  let max_hours := tech_max_hours technician in
  Ok (if float_gtb cumulative_hours max_hours
      then violations ++ [ExceedsMaxHours (tech_id technician) cumulative_hours max_hours]
      else violations).

(** ** Predicates on the genetic operators *)

(** [_ox_sequence]'s fill: the holes ([None]) of [c] filled left to right
    with the values of [f]. *)
Fixpoint plug (c : list (option nat)) (f : list nat) : list (option nat) :=
  match c with
  | [] => []
  | Some x :: c' => Some x :: plug c' f
  | None :: c' =>
      match f with
      | [] => None :: plug c' []
      | v :: f' => Some v :: plug c' f'
      end
  end.

(** The number of holes of [c]. *)
Fixpoint holes (c : list (option nat)) : nat :=
  match c with
  | [] => 0
  | None :: c' => S (holes c')
  | Some _ :: c' => holes c'
  end.

(** Technician [v] has every skill order [i] requires. *)
Definition skill_ok (wos : list WorkOrder) (techs : list Technician) (v i : nat) : bool :=
  match techs !! v, wos !! i with
  | Some tech, Some wo => _check_skill_match tech wo
  | _, _ => false
  end.

(** Gene [v] at order [i]: a technician index, and a skilled one whenever
    some technician has the skills. *)
Definition gene_ok (wos : list WorkOrder) (techs : list Technician) (i v : nat) : Prop :=
  (v < length techs)%nat /\
  ((exists u, skill_ok wos techs u i = true) -> skill_ok wos techs v i = true).

(** An assignment list with one valid gene per order. *)
Definition genes_valid (wos : list WorkOrder) (techs : list Technician) (a : list nat)
  : Prop :=
  length a = length wos /\ forall i v, a !! i = Some v -> gene_ok wos techs i v.

(** A child of the operators: valid assignments and an order sequence
    with no hole that is a permutation of [range(N)]. *)
Definition genes_ok (wos : list WorkOrder) (techs : list Technician) (c : Genes) : Prop :=
  genes_valid wos techs (g_assignments c) /\
  exists l, g_order c = map Some l /\ l ≡ₚ seq 0 (length wos).

(** The same for a chromosome of the population. *)
Definition chromo_ok (wos : list WorkOrder) (techs : list Technician) (c : Chromosome)
  : Prop :=
  genes_valid wos techs (assignments c) /\ order_sequence c ≡ₚ seq 0 (length wos).

(** ** Predicates on [validate_route] *)

(** The key a stop looks its work order up by. *)
Definition stop_key (s : StopRecord) : string := default "UNKNOWN"%string (sr_work_order_id s).

(** A stop [validate_route] reports nothing for: its work order exists, the
    technician has its skills, an arrival lies in its window and after the
    shift start, a departure is before the shift end. *)
Definition stop_valid (technician : Technician) (work_orders : gmap string WorkOrder)
  (s : StopRecord) : Prop :=
  exists wo, work_orders !! stop_key s = Some wo /\
    check_skill_match (tech_skills technician) (wo_required_skills wo) = true /\
    (forall a, sr_arrival_time s = Some a ->
       wo_time_window_start wo <= a <= wo_time_window_end wo /\
       tech_shift_start technician <= a) /\
    (forall d, sr_departure_time s = Some d -> d <= tech_shift_end technician).

(** [cumulative_minutes] after a stop: the binary64 sum when its work
    order exists, unchanged otherwise. *)
Definition add_stop_minutes (work_orders : gmap string WorkOrder) (cm : float)
  (s : StopRecord) : float :=
  match work_orders !! stop_key s with
  | Some wo =>
      (cm + (Q_to_float (wo_duration_minutes wo) + default 0%float (sr_travel_duration s)))%float
  | None => cm
  end.

(** A stop whose work order exists, whose arrival is set, and whose window
    ends before it starts. *)
Definition window_inverted (work_orders : gmap string WorkOrder) (s : StopRecord) : Prop :=
  exists wo a, work_orders !! stop_key s = Some wo /\ sr_arrival_time s = Some a /\
    wo_time_window_end wo < wo_time_window_start wo.

(** ** Checks and a sample [random] for the operators *)

(** [gene_ok] as a check over the technicians' indices. *)
Definition gene_okb (wos : list WorkOrder) (techs : list Technician) (i v : nat) : bool :=
  Nat.ltb v (length techs) &&
  (negb (existsb (fun u => skill_ok wos techs u i) (seq 0 (length techs))) ||
   skill_ok wos techs v i).

(** [genes_valid] as a check. *)
Definition genes_validb (wos : list WorkOrder) (techs : list Technician) (a : list nat)
  : bool :=
  Nat.eqb (length a) (length wos) &&
  forallb (fun i => match a !! i with Some v => gene_okb wos techs i v | None => false end)
    (seq 0 (length a)).

(** A counter as the state of [random]: [random()] always draws [0.5],
    [_randbelow(k)] the counter modulo [k], and [random.sample] the first
    [k] positions. *)
Module CounterRng.

Definition random_ (g : nat) : Q * nat := (1 # 2, S g).

Definition randbelow (g k : nat) : nat * nat := (Nat.modulo g k, S g).

Definition sample_positions (g n : nat) (k : Z) : result (list nat * nat) :=
  if ((0 <=? k)%Z && (k <=? Z.of_nat n)%Z)%bool then Ok (seq 0 (Z.to_nat k), S g)
  else value_error SampleSize.

End CounterRng.

(** Two chromosomes of the three orders of [Sample.orders_mix], with the
    fitness [_evaluate_fitness] gives them. *)
Definition sample_population : list Chromosome :=
  [set_fitness Sample.b_first_mix 506; set_fitness Sample.best_mix 509].

(** Genes of three orders, all on technician 0, in the sequence 2, 0, 1. *)
Definition sample_genes : Genes :=
  {| g_assignments := [0; 0; 0]%nat; g_order := map Some [2; 0; 1]%nat |}.

(** * Properties *)

(** ** Comparison helpers *)

Lemma Qltb_iff (x y : Q) : Qltb x y = true <-> x < y.
Proof.
  unfold Qltb. rewrite negb_true_iff.
  split; intro H.
  - apply Qnot_le_lt. intro H'. apply Qle_bool_iff in H'. congruence.
  - destruct (Qle_bool y x) eqn:E; [|reflexivity].
    apply Qle_bool_iff in E. exfalso. apply (Qlt_not_le x y); assumption.
Qed.

Lemma Qltb_false (x y : Q) : Qltb x y = false <-> y <= x.
Proof.
  unfold Qltb. rewrite negb_false_iff. apply Qle_bool_iff.
Qed.

Lemma Qleb_iff (x y : Q) : Qleb x y = true <-> x <= y.
Proof. apply Qle_bool_iff. Qed.

Lemma Qleb_false (x y : Q) : Qleb x y = false <-> y < x.
Proof.
  split; intro H.
  - apply Qnot_le_lt. intro H'. apply Qleb_iff in H'. congruence.
  - destruct (Qleb x y) eqn:E; [|reflexivity].
    apply Qleb_iff in E. exfalso. apply (Qlt_not_le y x); assumption.
Qed.

Ltac qcontra :=
  match goal with
  | H : ?x < ?y, H' : ?y <= ?x |- _ => exact (Qlt_not_le _ _ H H')
  end.

(** ** C7 : [estimate_travel_time] *)

(** C7. [estimate_travel_time d s] raises exactly when [d < 0] or [s <= 0]
    (binary64 comparisons); otherwise it returns [round((d / s) * 60.0, 2)],
    the quotient and the product computed in binary64.  Fifteen miles at
    30 mph take 30 minutes, [0.4725] miles at 30 mph give [0.95] (the
    product is [0.94500000000000006]), and the default speed is 30 mph. *)
Theorem estimate_travel_time_spec :
  (forall d s, raises (estimate_travel_time d s) = true <->
               (d <? 0)%float = true \/ (s <=? 0)%float = true) /\
  (forall d s m, estimate_travel_time d s = Ok m <->
                 (d <? 0)%float = false /\ (s <=? 0)%float = false /\
                 m = round2f ((d / s) * 60)%float) /\
  estimate_travel_time 15%float 30%float = Ok 30%float /\
  estimate_travel_time 0x1.e3d70a3d70a3dp-2%float 30%float = Ok 0x1.e666666666666p-1%float /\
  DEFAULT_SPEED_MPH = 30%float /\
  (forall d, estimate_travel_time_default d = estimate_travel_time d 30%float).
Proof.
  split; [|split; [|split; [|split; [|split]]]].
  - intros d s. unfold estimate_travel_time.
    destruct (d <? 0)%float; destruct (s <=? 0)%float; simpl;
      intuition discriminate.
  - intros d s m. unfold estimate_travel_time.
    destruct (d <? 0)%float; [|destruct (s <=? 0)%float].
    + split; [discriminate|]. intros (? & _ & _). discriminate.
    + split; [discriminate|]. intros (_ & ? & _). discriminate.
    + split.
      * intros [= <-]. auto.
      * intros (_ & _ & ->). reflexivity.
  - vm_compute. reflexivity.
  - vm_compute. reflexivity.
  - reflexivity.
  - reflexivity.
Qed.

(** ** C8 : [check_time_window] *)

(** C8. [check_time_window a ws we] raises exactly when [ws > we]; otherwise
    it returns [true] exactly when [ws <= a <= we]. *)
Theorem check_time_window_spec : forall a ws we,
  (raises (check_time_window a ws we) = true <-> we < ws) /\
  (check_time_window a ws we = Ok true <-> ~ we < ws /\ ws <= a /\ a <= we) /\
  (check_time_window a ws we = Ok false <-> ~ we < ws /\ ~ (ws <= a /\ a <= we)).
Proof.
  intros a ws we. unfold check_time_window.
  destruct (Qltb we ws) eqn:E.
  - apply Qltb_iff in E. simpl.
    split; [tauto|split; split; try discriminate; tauto].
  - apply Qltb_false in E.
    assert (Hn : ~ we < ws) by (intro H; apply (Qlt_not_le we ws); assumption).
    destruct (Qleb ws a) eqn:E1; destruct (Qleb a we) eqn:E2; simpl;
      repeat match goal with
      | H : Qleb _ _ = true |- _ => apply Qleb_iff in H
      | H : Qleb _ _ = false |- _ => apply Qleb_false in H
      end;
      repeat split; intros; try discriminate; try tauto;
      try (intros [? ?]); destruct_and?; exfalso; qcontra.
Qed.

(** ** C5 : unassigned ids are sorted *)

(** C5 (failing input).  Greedy reports unassigned ids in input order:
    orders "b" then "a", neither servable, give [["b"; "a"]], which is not
    sorted; the no-solution result of [VRPSolver] lists them in input order
    too. *)
Theorem greedy_unassigned_input_order :
  (exists r, greedy_solve Sample.orders_ba [Sample.tech_a] Sample.matrix_3 30 = Ok r /\
             unassigned_orders r = ["b"; "a"]%string /\
             ~ is_sorted_str (unassigned_orders r)) /\
  unassigned_orders (vrp_no_solution_result Sample.orders_ba) = ["b"; "a"]%string.
Proof.
  split; [|reflexivity].
  eexists. split; [vm_compute; reflexivity|].
  split; [reflexivity|].
  intro H. specialize (H 0%nat "b"%string "a"%string eq_refl eq_refl).
  vm_compute in H. discriminate.
Qed.

(** ** The stable sort *)

Section SortBy.

Context {A : Type} (lt : A -> A -> bool).

Lemma insert_by_perm (x : A) (l : list A) : insert_by lt x l ≡ₚ x :: l.
Proof.
  induction l as [|y l IH]; simpl; [done|].
  destruct (lt y x); [|done].
  rewrite IH. apply Permutation_swap.
Qed.

Lemma sort_by_perm (l : list A) : sort_by lt l ≡ₚ l.
Proof.
  induction l as [|x l IH]; simpl; [done|].
  rewrite insert_by_perm, IH. done.
Qed.

End SortBy.

Section PrioritySort.

Variable key : nat -> nat.

(** The order in which [sorted] leaves the indices: by key, then by
    position in the input. *)
Definition key_index_lt (i j : nat) : Prop :=
  (key i < key j)%nat \/ (key i = key j /\ (i < j)%nat).

Lemma key_index_lt_trans i j k :
  key_index_lt i j -> key_index_lt j k -> key_index_lt i k.
Proof. unfold key_index_lt. lia. Qed.

Lemma insert_by_key_sorted (x : nat) (s : list nat) :
  StronglySorted key_index_lt s ->
  (forall y, y ∈ s -> (x < y)%nat) ->
  StronglySorted key_index_lt (insert_by (fun i j => Nat.ltb (key i) (key j)) x s).
Proof.
  induction s as [|y s IH]; intros Hs Hx; simpl.
  - constructor; constructor.
  - apply StronglySorted_inv in Hs as [Hs Hy].
    destruct (Nat.ltb (key y) (key x)) eqn:E.
    + apply Nat.ltb_lt in E. constructor.
      * apply IH; [done|]. intros z Hz. apply Hx. by right.
      * apply Forall_forall. intros z Hz.
        rewrite insert_by_perm, elem_of_cons in Hz.
        destruct Hz as [->|Hz].
        -- by left.
        -- by apply (proj1 (Forall_forall _ _) Hy).
    + apply Nat.ltb_ge in E.
      assert (Hxy : key_index_lt x y).
      { unfold key_index_lt. assert (x < y)%nat by (apply Hx; left). lia. }
      constructor; [constructor; done|].
      constructor; [done|].
      apply Forall_forall. intros z Hz.
      apply (key_index_lt_trans _ y); [done|].
      by apply (proj1 (Forall_forall _ _) Hy).
Qed.

Lemma sort_seq_sorted (a n : nat) :
  StronglySorted key_index_lt
    (sort_by (fun i j => Nat.ltb (key i) (key j)) (seq a n)).
Proof.
  revert a. induction n as [|n IH]; intros a; simpl; [constructor|].
  apply insert_by_key_sorted; [apply IH|].
  intros y Hy. rewrite sort_by_perm, elem_of_seq in Hy. lia.
Qed.

End PrioritySort.

Lemma sorted_wo_indices_sorted (wos : list WorkOrder) :
  StronglySorted (key_index_lt (wo_sort_key wos)) (sorted_wo_indices wos).
Proof. apply sort_seq_sorted. Qed.

Lemma sorted_wo_indices_perm (wos : list WorkOrder) :
  sorted_wo_indices wos ≡ₚ seq 0 (length wos).
Proof. apply sort_by_perm. Qed.

(** ** The greedy candidate scan *)

Section GreedyScan.

Variables (wos : list WorkOrder) (techs : list Technician)
  (dm : list (list Q)) (speed : Q) (tech : Technician) (st : GState).

Let cand (i : nat) : result (option Q) :=
  greedy_candidate wos techs dm speed tech st i.
Let prio (i : nat) : nat := wo_sort_key wos i.

Lemma get_work_order_ok (i : nat) (wo : WorkOrder) :
  wos !! i = Some wo -> get_work_order wos i = Ok wo.
Proof. unfold get_work_order. by intros ->. Qed.

Lemma cand_some_wo (i : nat) (d : Q) :
  cand i = Ok (Some d) -> exists wo, wos !! i = Some wo.
Proof.
  unfold cand, greedy_candidate.
  case_bool_decide; [discriminate|].
  unfold get_work_order. destruct (wos !! i); [eauto|discriminate].
Qed.

Lemma prio_of (i : nat) (wo : WorkOrder) :
  wos !! i = Some wo -> prio i = wo_priority_value wo.
Proof. unfold prio, wo_sort_key. by intros ->. Qed.

(** [b] at distance [bd] is not worse than [i] at distance [d]: lower
    priority key, or the same key and not farther, and on equal distance
    [b] comes first in the input. *)
Definition scan_good (b : nat) (bd : Q) (i : nat) (d : Q) : Prop :=
  (prio b < prio i)%nat \/
  (prio b = prio i /\ bd <= d /\ (d == bd -> (b <= i)%nat)).

(** What [best] holds after the indices [P] have been scanned. *)
Definition scan_inv (best : option (nat * Q)) (P : list nat) : Prop :=
  match best with
  | None => forall i d, i ∈ P -> cand i <> Ok (Some d)
  | Some (b, bd) =>
      b ∈ P /\ cand b = Ok (Some bd) /\
      forall i d, i ∈ P -> cand i = Ok (Some d) -> scan_good b bd i d
  end.

Lemma scan_good_refl (j : nat) (d : Q) : scan_good j d j d.
Proof. right. split; [done|]. split; [apply Qle_refl|lia]. Qed.

Lemma select_inv (best best' : option (nat * Q)) (P : list nat) (j : nat)
  (wo : WorkOrder) (d : Q) :
  scan_inv best P ->
  (forall p, p ∈ P -> key_index_lt prio p j) ->
  cand j = Ok (Some d) -> wos !! j = Some wo ->
  greedy_select wos best j wo d = Ok best' ->
  scan_inv best' (j :: P).
Proof.
  intros Hinv Hord Hj Hwo Hsel.
  destruct best as [[b bd]|]; simpl in Hsel.
  - destruct Hinv as (HbP & Hb & Hgood).
    destruct (cand_some_wo b bd Hb) as [bwo Hbwo].
    rewrite (get_work_order_ok b bwo Hbwo) in Hsel. simpl in Hsel.
    pose proof (prio_of j wo Hwo) as Pj. pose proof (prio_of b bwo Hbwo) as Pb.
    destruct (Nat.ltb (wo_priority_value wo) (wo_priority_value bwo)) eqn:E1.
    + injection Hsel as <-. apply Nat.ltb_lt in E1.
      split; [by left|]. split; [done|].
      intros i di Hi Hci. apply elem_of_cons in Hi as [->|Hi].
      * rewrite Hj in Hci. injection Hci as <-. apply scan_good_refl.
      * left. destruct (Hgood i di Hi Hci) as [H|(H & _)]; lia.
    + apply Nat.ltb_ge in E1.
      destruct (Nat.eqb (wo_priority_value wo) (wo_priority_value bwo)
                && Qltb d bd)%bool eqn:E2.
      * injection Hsel as <-.
        apply andb_true_iff in E2 as [E2 E3].
        apply Nat.eqb_eq in E2. apply Qltb_iff in E3.
        split; [by left|]. split; [done|].
        intros i di Hi Hci. apply elem_of_cons in Hi as [->|Hi].
        -- rewrite Hj in Hci. injection Hci as <-. apply scan_good_refl.
        -- destruct (Hgood i di Hi Hci) as [H|(H1 & H2 & _)].
           ++ left. lia.
           ++ right. split; [lia|].
              assert (Hlt : d < di) by (apply (Qlt_le_trans _ bd); done).
              split; [by apply Qlt_le_weak|].
              intros Heq. exfalso. rewrite Heq in Hlt.
              exact (Qlt_irrefl _ Hlt).
      * injection Hsel as <-.
        split; [by right|]. split; [done|].
        intros i di Hi Hci. apply elem_of_cons in Hi as [->|Hi].
        -- rewrite Hj in Hci. injection Hci as <-.
           destruct (Hord b HbP) as [H|[H1 H2]]; [by left|].
           right. split; [done|].
           assert (E4 : Qltb d bd = false).
           { apply andb_false_iff in E2 as [E2|E2]; [|done].
             apply Nat.eqb_neq in E2. lia. }
           apply Qltb_false in E4. split; [done|]. lia.
        -- by apply Hgood.
  - injection Hsel as <-.
    split; [by left|]. split; [done|].
    intros i di Hi Hci. apply elem_of_cons in Hi as [->|Hi].
    + rewrite Hj in Hci. injection Hci as <-. apply scan_good_refl.
    + exfalso. by apply (Hinv i di Hi).
Qed.

Lemma scan_inv_all (l : list nat) :
  forall (best res : option (nat * Q)) (P : list nat),
  StronglySorted (key_index_lt prio) l ->
  (forall p j, p ∈ P -> j ∈ l -> key_index_lt prio p j) ->
  scan_inv best P ->
  greedy_scan wos techs dm speed tech st best l = Ok res ->
  scan_inv res (reverse l ++ P).
Proof.
  induction l as [|j l IH]; intros best res P Hs Hord Hinv Hscan; simpl in Hscan.
  - by injection Hscan as <-.
  - apply StronglySorted_inv in Hs as [Hs Hj].
    rewrite reverse_cons, <- app_assoc. simpl.
    assert (Hord' : forall p z, p ∈ j :: P -> z ∈ l -> key_index_lt prio p z).
    { intros p z Hp Hz. apply elem_of_cons in Hp as [->|Hp].
      - by apply (proj1 (Forall_forall _ _) Hj).
      - apply Hord; [done|]. by right. }
    fold (cand j) in Hscan.
    destruct (cand j) as [[d|]|e] eqn:Hc; simpl in Hscan; [| |discriminate].
    + destruct (cand_some_wo j d Hc) as [wo Hwo].
      rewrite (get_work_order_ok j wo Hwo) in Hscan. simpl in Hscan.
      destruct (greedy_select wos best j wo d) as [best'|e] eqn:Hsel;
        simpl in Hscan; [|discriminate].
      apply (IH best' res (j :: P)); [done|done| |done].
      apply (select_inv best best' P j wo d); try done.
      intros p Hp. apply Hord; [done|]. by left.
    + apply (IH best res (j :: P)); [done|done| |done].
      destruct best as [[b bd]|]; simpl in Hinv |- *.
      * destruct Hinv as (HbP & Hb & Hgood).
        split; [by right|]. split; [done|].
        intros i di Hi Hci. apply elem_of_cons in Hi as [->|Hi].
        -- congruence.
        -- by apply Hgood.
      * intros i di Hi Hci. apply elem_of_cons in Hi as [->|Hi].
        -- congruence.
        -- by apply (Hinv i di Hi).
Qed.

End GreedyScan.

(** ** C3 : greedy selection order *)

(** C3.  In each round of [_build_technician_route], the order picked by the
    scan over [sorted_wo_indices] is a feasible unassigned candidate, and for
    every feasible unassigned candidate [i] at distance [d] it has a strictly
    smaller priority key, or the same key and a distance not greater, and on
    equal distance it comes no later in the input. *)
Theorem greedy_selects_lexicographic_min :
  forall (wos : list WorkOrder) (techs : list Technician) (dm : list (list Q))
         (speed : Q) (tech : Technician) (st : GState) (b : nat) (bd : Q),
  greedy_scan wos techs dm speed tech st None (sorted_wo_indices wos) = Ok (Some (b, bd)) ->
  b ∈ sorted_wo_indices wos /\
  greedy_candidate wos techs dm speed tech st b = Ok (Some bd) /\
  forall (i : nat) (d : Q),
    i ∈ sorted_wo_indices wos ->
    greedy_candidate wos techs dm speed tech st i = Ok (Some d) ->
    (wo_sort_key wos b < wo_sort_key wos i)%nat \/
    (wo_sort_key wos b = wo_sort_key wos i /\ bd <= d /\ (d == bd -> (b <= i)%nat)).
Proof.
  intros wos techs dm speed tech st b bd Hscan.
  pose proof (scan_inv_all wos techs dm speed tech st (sorted_wo_indices wos)
                None (Some (b, bd)) [] (sorted_wo_indices_sorted wos)) as H.
  simpl in H. rewrite app_nil_r in H.
  destruct H as (Hb & Hcb & Hgood); [intros p j Hp; inversion Hp|
                                     intros i d Hi; inversion Hi|done|].
  split; [by apply elem_of_reverse|]. split; [done|].
  intros i d Hi Hci. apply Hgood; [by apply elem_of_reverse|done].
Qed.

Lemma greedy_selects_lexicographic_min_witness :
  greedy_scan Sample.orders_cd [Sample.tech_a] Sample.matrix_cd 30 Sample.tech_a
    Sample.start_state None (sorted_wo_indices Sample.orders_cd) = Ok (Some (1%nat, 4)) /\
  (1 ∈ sorted_wo_indices Sample.orders_cd)%nat.
Proof.
  assert (H : greedy_scan Sample.orders_cd [Sample.tech_a] Sample.matrix_cd 30 Sample.tech_a
    Sample.start_state None (sorted_wo_indices Sample.orders_cd) = Ok (Some (1%nat, 4)))
    by (vm_compute; reflexivity).
  split; [exact H|].
  exact (proj1 (greedy_selects_lexicographic_min _ _ _ _ _ _ _ _ H)).
Defined.

(** ** Facts about rounding and the constraint helpers *)

Lemma round2_idem (q : Q) : round2 (round2 q) = round2 q.
Proof.
  unfold round2 at 1 2. f_equal.
  unfold round_half_even at 1. simpl.
  rewrite Z.div_mul by lia. rewrite Z.mod_mul by lia. reflexivity.
Qed.

Lemma estimate_travel_time_q_ok (d s t : Q) :
  estimate_travel_time_q d s = Ok t -> round2 t = t.
Proof.
  unfold estimate_travel_time_q.
  destruct (Qltb d 0); [discriminate|]. destruct (Qleb s 0); [discriminate|].
  intros H. injection H as <-. apply round2_idem.
Qed.

Lemma check_daily_limit_true (c m a : Q) :
  check_daily_limit c m a = Ok true -> c + a <= m.
Proof.
  unfold check_daily_limit.
  destruct (Qltb c 0 || Qltb m 0 || Qltb a 0)%bool; [discriminate|].
  intros H. injection H as H. by apply Qleb_iff.
Qed.

Lemma lookup_map_list {A B} (f : A -> B) (l : list A) (i : nat) :
  map f l !! i = f <$> l !! i.
Proof.
  revert i. induction l as [|x l IH]; intros [|i]; simpl; try done; apply IH.
Qed.

(** Destruct the first [rbind] of a hypothesis [H : ... = Ok _]. *)
Ltac step_bind H x :=
  match type of H with
  | context [rbind ?m _] =>
      let E := fresh "E" in
      destruct m as [x|?] eqn:E; simpl in H; [|discriminate H]
  end.

Section GreedyCommit.

Variables (wos : list WorkOrder) (techs : list Technician)
  (dm : list (list Q)) (speed : Q) (tech : Technician) (st : GState).

(** A feasible candidate [b] at distance [bd], once committed, appends a
    stop whose arrival lies in the window of [b]'s order, whose departure
    is before the shift end, and keeps [used_hours] within [max_hours]. *)
Lemma candidate_commit (b : nat) (bd : Q) (st' : GState) :
  greedy_candidate wos techs dm speed tech st b = Ok (Some bd) ->
  greedy_commit wos techs dm speed tech st b = Ok st' ->
  exists (wo : WorkOrder) (travel arr : Q) (s : RouteStop),
    wos !! b = Some wo /\ (b ∉ g_assigned st) /\
    wo_time_window_start wo <= arr /\ arr <= wo_time_window_end wo /\
    arr + wo_duration_minutes wo <= tech_shift_end tech /\
    g_used_hours st + (travel + wo_duration_minutes wo) / 60 <= tech_max_hours tech /\
    g_stops st' = g_stops st ++ [s] /\
    work_order_id s = wo_id wo /\ arrival_time s = arr /\
    departure_time s = arr + wo_duration_minutes wo /\
    travel_duration s = travel /\
    g_route_duration st' = g_route_duration st + travel /\
    g_route_work_time st' = g_route_work_time st + wo_duration_minutes wo /\
    g_used_hours st' = (g_route_duration st' + g_route_work_time st') / 60 /\
    g_assigned st' = {[ b ]} ∪ g_assigned st.
Proof.
  intros Hc Hm. unfold greedy_candidate in Hc.
  case_bool_decide as Hna; [simpl in Hc; discriminate Hc|].
  step_bind Hc wo.
  destruct (negb (_check_skill_match tech wo)); [simpl in Hc; discriminate Hc|].
  step_bind Hc dist.
  step_bind Hc travel.
  step_bind Hc ok.
  destruct ok; simpl in Hc; [|discriminate].
  apply check_daily_limit_true in E2.
  unfold greedy_commit in Hm. rewrite E in Hm. simpl in Hm.
  rewrite E0 in Hm. simpl in Hm. rewrite E1 in Hm. simpl in Hm.
  injection Hm as <-.
  assert (Hwo : wos !! b = Some wo).
  { unfold get_work_order in E. destruct (wos !! b); [congruence|discriminate]. }
  set (pa := g_current_time st + travel) in *.
  set (arr := if Qltb pa (wo_time_window_start wo)
              then wo_time_window_start wo else pa).
  assert (Hws : wo_time_window_start wo <= arr).
  { unfold arr. destruct (Qltb pa (wo_time_window_start wo)) eqn:Ew.
    - apply Qle_refl.
    - by apply Qltb_false. }
  assert (Hrest : arr <= wo_time_window_end wo /\
                  arr + wo_duration_minutes wo <= tech_shift_end tech).
  { unfold arr. destruct (Qltb pa (wo_time_window_start wo)) eqn:Ew;
      simpl in Hc.
    - step_bind Hc o. destruct o as [q|]; simpl in Hc; [|discriminate Hc].
      step_bind E3 ok2.
      destruct ok2; simpl in E3; [|discriminate E3].
      injection E3 as <-.
      destruct (Qltb (wo_time_window_end wo) (wo_time_window_start wo)) eqn:Hw1;
        [simpl in Hc; discriminate Hc|].
      destruct (Qltb (tech_shift_end tech)
                  (wo_time_window_start wo + wo_duration_minutes wo)) eqn:Hw2;
        [simpl in Hc; discriminate Hc|].
      split; by apply Qltb_false.
    - destruct (Qltb (wo_time_window_end wo) pa) eqn:Hw1; [simpl in Hc; discriminate Hc|].
      destruct (Qltb (tech_shift_end tech) (pa + wo_duration_minutes wo)) eqn:Hw2;
        [simpl in Hc; discriminate Hc|].
      split; by apply Qltb_false. }
  destruct Hrest as [Hwe Hse].
  eexists wo, travel, arr, _.
  split; [done|]. split; [done|]. split; [done|]. split; [done|].
  split; [done|].
  split; [done|].
  split; [reflexivity|].
  split; [reflexivity|]. split; [reflexivity|]. split; [reflexivity|].
  split; [simpl; by apply (estimate_travel_time_q_ok dist speed)|].
  repeat split.
Qed.

End GreedyCommit.

(** ** Greedy routes: the loop invariant *)

Lemma sumQ_app (l1 l2 : list Q) : sumQ (l1 ++ l2) == sumQ l1 + sumQ l2.
Proof.
  induction l1 as [|x l1 IH]; simpl.
  - ring.
  - rewrite IH. ring.
Qed.

Lemma greedy_select_cases (wos : list WorkOrder) best j wo d best' :
  greedy_select wos best j wo d = Ok best' -> best' = best \/ best' = Some (j, d).
Proof.
  unfold greedy_select. destruct best as [[b bd]|].
  - destruct (get_work_order wos b); simpl; [|discriminate].
    destruct (Nat.ltb _ _); [intros H; injection H; auto|].
    destruct (_ && _)%bool; intros H; injection H; auto.
  - intros H; injection H; auto.
Qed.

Lemma greedy_scan_pick wos techs dm speed tech st (l : list nat) :
  forall best b bd,
  greedy_scan wos techs dm speed tech st best l = Ok (Some (b, bd)) ->
  best = Some (b, bd) \/
  greedy_candidate wos techs dm speed tech st b = Ok (Some bd).
Proof.
  induction l as [|j l IH]; intros best b bd H; simpl in H.
  - injection H. auto.
  - destruct (greedy_candidate wos techs dm speed tech st j) as [[d|]|] eqn:Hc;
      simpl in H; [| |discriminate].
    + destruct (get_work_order wos j) as [wo|]; simpl in H; [|discriminate].
      destruct (greedy_select wos best j wo d) as [best'|] eqn:Hs;
        simpl in H; [|discriminate].
      destruct (IH best' b bd H) as [->|Hb]; [|by right].
      apply greedy_select_cases in Hs as [->|Hs]; [by left|].
      injection Hs as -> ->. by right.
    + by apply (IH best).
Qed.

Section GreedyInvariant.

Variables (wos : list WorkOrder) (techs : list Technician)
  (dm : list (list Q)) (speed : Q) (tech : Technician) (A0 : gset nat).

(** After committing the orders [cw] (index, record) in this order, on top
    of the set [A0] assigned to earlier technicians. *)
Definition ginv (st : GState) (cw : list (nat * WorkOrder)) : Prop :=
  Forall (fun p => wos !! p.1 = Some p.2) cw /\
  NoDup (map fst cw) /\
  (forall i, i ∈ map fst cw -> i ∉ A0) /\
  g_assigned st = list_to_set (map fst cw) ∪ A0 /\
  Forall2 (stop_feasible tech) (map snd cw) (g_stops st) /\
  g_route_duration st == sumQ (map travel_duration (g_stops st)) /\
  g_route_work_time st == sumQ (map wo_duration_minutes (map snd cw)) /\
  g_used_hours st == (g_route_duration st + g_route_work_time st) / 60 /\
  (cw = [] \/ (g_route_duration st + g_route_work_time st) / 60 <= tech_max_hours tech).

Lemma ginv_commit (st st' : GState) (cw : list (nat * WorkOrder)) (b : nat) (bd : Q) :
  ginv st cw ->
  greedy_candidate wos techs dm speed tech st b = Ok (Some bd) ->
  greedy_commit wos techs dm speed tech st b = Ok st' ->
  exists wo, ginv st' (cw ++ [(b, wo)]).
Proof.
  intros (Hl & Hnd & Hdis & Ha & Hf & Hdur & Hwork & Hused & Hhrs) Hc Hm.
  destruct (candidate_commit wos techs dm speed tech st b bd st' Hc Hm)
    as (wo & travel & arr & s & Hwo & Hna & Hws & Hwe & Hse & Hmax & Hstops &
        Hid & Harr & Hdep & Htd & Hdur' & Hwork' & Hused' & Ha').
  exists wo.
  assert (Hb : b ∉ map fst cw).
  { intro Hin. apply Hna. rewrite Ha. set_solver. }
  assert (HbA : b ∉ A0).
  { intro Hin. apply Hna. rewrite Ha. set_solver. }
  unfold ginv. rewrite !map_app. simpl.
  split; [apply Forall_app; split; [done|by constructor]|].
  split; [apply NoDup_app; split; [done|split; [set_solver|constructor; [set_solver|constructor]]]|].
  split; [intros i Hi; apply elem_of_app in Hi as [Hi|Hi]; [by apply Hdis|set_solver]|].
  split; [rewrite Ha', Ha, list_to_set_app_L; simpl; set_solver|].
  split; [rewrite Hstops; apply Forall2_app; [done|constructor; [|constructor]]|].
  { unfold stop_feasible. rewrite Hid, Harr, Hdep. done. }
  rewrite Hstops, Hdur', Hwork', !map_app, !sumQ_app. simpl.
  rewrite Htd.
  split; [rewrite Hdur; ring|].
  split; [rewrite Hwork; ring|].
  split; [rewrite Hused'; rewrite Hdur', Hwork'; apply Qeq_refl|].
  right. rewrite Hused in Hmax.
  refine (Qle_trans _ _ _ _ Hmax). apply Qle_lteq. right. field.
Qed.

Lemma ginv_loop (fuel : nat) (l : list nat) :
  forall (st st' : GState) (cw : list (nat * WorkOrder)),
  ginv st cw ->
  greedy_loop wos techs dm speed fuel tech l st = Ok st' ->
  exists cw', ginv st' cw'.
Proof.
  induction fuel as [|fuel IH]; intros st st' cw Hinv H; simpl in H.
  - injection H as <-. eauto.
  - destruct (greedy_scan wos techs dm speed tech st None l) as [best|] eqn:Hs;
      simpl in H; [|discriminate].
    destruct best as [[b bd]|].
    + destruct (greedy_commit wos techs dm speed tech st b) as [st1|] eqn:Hm;
        simpl in H; [|discriminate].
      destruct (greedy_scan_pick wos techs dm speed tech st l None b bd Hs)
        as [Hn|Hc]; [discriminate|].
      destruct (ginv_commit st st1 cw b bd Hinv Hc Hm) as [wo Hinv1].
      by apply (IH st1 st' (cw ++ [(b, wo)])).
    + injection H as <-. eauto.
Qed.

End GreedyInvariant.

(** ** Greedy routes: one technician, then all of them *)

Section GreedyRoutes.

Variables (wos : list WorkOrder) (techs : list Technician)
  (dm : list (list Q)) (speed : Q).

(** The stops of [r] serve the orders [cw] (index, record) of the input,
    feasibly for [tech]. *)
Definition route_ok (tech : Technician) (r : TechnicianRoute)
  (cw : list (nat * WorkOrder)) : Prop :=
  technician_id r = tech_id tech /\
  Forall (fun p => wos !! p.1 = Some p.2) cw /\
  Forall2 (stop_feasible tech) (map snd cw) (stops r) /\
  (cw = [] \/ route_hours (stops r) (map snd cw) <= tech_max_hours tech).

Lemma build_route_inv (v : nat) (tech : Technician) (l : list nat)
  (A0 A1 : gset nat) (r : TechnicianRoute) :
  _build_technician_route wos techs dm speed v tech l A0 = Ok (r, A1) ->
  exists cw, route_ok tech r cw /\
    NoDup (map fst cw) /\ (forall i, i ∈ map fst cw -> i ∉ A0) /\
    A1 = list_to_set (map fst cw) ∪ A0.
Proof.
  unfold _build_technician_route.
  match goal with |- context [greedy_loop _ _ _ _ ?f _ _ ?s0] =>
    destruct (greedy_loop wos techs dm speed f tech l s0) as [st|] eqn:Hl end;
    simpl; [|discriminate].
  intros H. injection H as <- <-.
  edestruct (ginv_loop wos techs dm speed tech A0) as [cw Hinv]; [|exact Hl|].
  - unfold ginv. simpl.
    split; [constructor|]. split; [constructor|]. split; [intros i Hi; inversion Hi|].
    split; [set_solver|]. split; [constructor|].
    split; [reflexivity|]. split; [reflexivity|]. split; [reflexivity|]. by left.
  - destruct Hinv as (Hl' & Hnd & Hdis & Ha & Hf & Hdur & Hwork & Hused & Hhrs).
    exists cw. split; [|done].
    split; [reflexivity|]. split; [done|]. split; [done|].
    destruct Hhrs as [Hh|Hh]; [by left|right]. simpl.
    unfold route_hours. rewrite <- Hdur, <- Hwork. done.
Qed.

Lemma forall2_ids (tech : Technician) (cw : list (nat * WorkOrder)) (ss : list RouteStop) :
  Forall2 (stop_feasible tech) (map snd cw) ss ->
  map work_order_id ss = map (fun p => wo_id p.2) cw.
Proof.
  revert ss. induction cw as [|p cw IH]; intros ss H; simpl in H.
  - by inversion H.
  - inversion H as [|w s ws ss' Hs Hrest]; subst. simpl.
    destruct Hs as [-> _]. f_equal. by apply IH.
Qed.

Lemma greedy_routes_inv (tl : list Technician) :
  forall (v : nat) (A A' : gset nat) (rs : list TechnicianRoute),
  greedy_routes wos techs dm speed v tl A = Ok (rs, A') ->
  exists cws : list (list (nat * WorkOrder)),
    length rs = length tl /\ length cws = length rs /\
    (forall k r tech cw, rs !! k = Some r -> tl !! k = Some tech ->
                         cws !! k = Some cw -> route_ok tech r cw) /\
    Forall2 (fun r cw => map work_order_id (stops r) = map (fun p => wo_id p.2) cw
                         /\ Forall (fun p => wos !! p.1 = Some p.2) cw) rs cws /\
    NoDup (map fst (concat cws)) /\
    (forall i, i ∈ map fst (concat cws) -> i ∉ A) /\
    A' = list_to_set (map fst (concat cws)) ∪ A.
Proof.
  induction tl as [|tech tl IH]; intros v A A' rs H; simpl in H.
  - injection H as <- <-. exists [].
    split; [done|]. split; [done|]. split; [intros k r tech cw Hr; inversion Hr|].
    split; [constructor|]. split; [constructor|]. split; [intros i Hi; inversion Hi|].
    simpl. set_solver.
  - destruct (_build_technician_route wos techs dm speed v tech
                (sorted_wo_indices wos) A) as [[r A1]|] eqn:Hb;
      simpl in H; [|discriminate].
    destruct (greedy_routes wos techs dm speed (S v) tl A1) as [[rs' A2]|] eqn:Hr;
      simpl in H; [|discriminate].
    injection H as <- <-.
    destruct (build_route_inv v tech _ A A1 r Hb) as (cw & Hok & Hnd & Hdis & Ha1).
    destruct (IH (S v) A1 A2 rs' Hr) as (cws & Hlen & Hlen' & Hk & Hf2 & Hnd' & Hdis' & Ha2).
    exists (cw :: cws). simpl.
    split; [by rewrite Hlen|]. split; [by rewrite Hlen'|].
    split.
    { intros [|k] r0 tech0 cw0 Hr0 Ht0 Hc0; simpl in *.
      - injection Hr0 as <-. injection Ht0 as <-. injection Hc0 as <-. done.
      - by apply (Hk k). }
    split.
    { constructor; [|done]. destruct Hok as (_ & Hl & Hf & _).
      split; [by apply (forall2_ids tech)|done]. }
    rewrite map_app.
    split.
    { apply NoDup_app. split; [done|]. split; [|done].
      intros i Hi Hi'. apply (Hdis' i Hi'). rewrite Ha1. set_solver. }
    split.
    { intros i Hi. apply elem_of_app in Hi as [Hi|Hi]; [by apply Hdis|].
      intros HiA. apply (Hdis' i Hi). rewrite Ha1. set_solver. }
    rewrite Ha2, Ha1, list_to_set_app_L. set_solver.
Qed.

End GreedyRoutes.

(** ** From indices to ids *)

Lemma wo_id_inj (wos : list WorkOrder) (i j : nat) (w1 w2 : WorkOrder) :
  NoDup (map wo_id wos) -> wos !! i = Some w1 -> wos !! j = Some w2 ->
  wo_id w1 = wo_id w2 -> i = j.
Proof.
  intros Hnd Hi Hj Heq.
  apply (NoDup_lookup (map wo_id wos) i j (wo_id w1) Hnd).
  - by rewrite lookup_map_list, Hi.
  - by rewrite lookup_map_list, Hj, Heq.
Qed.

Lemma nodup_ids_of_pairs (wos : list WorkOrder) (I : list (nat * WorkOrder)) :
  NoDup (map wo_id wos) ->
  Forall (fun p => wos !! p.1 = Some p.2) I ->
  NoDup (map fst I) ->
  NoDup (map (fun p => wo_id p.2) I).
Proof.
  intros Hids. induction I as [|p I IH]; intros Hl Hnd; simpl; [constructor|].
  apply Forall_cons in Hl as [Hp Hl].
  apply NoDup_cons in Hnd as [Hn Hnd].
  constructor; [|by apply IH].
  intros Hin. apply list_elem_of_In, in_map_iff in Hin as [q [Hq Hin]].
  apply Hn. apply list_elem_of_In, in_map_iff. exists q. split; [|done].
  apply list_elem_of_In in Hin.
  rewrite Forall_forall in Hl. specialize (Hl q Hin).
  by apply (wo_id_inj wos q.1 p.1 q.2 p.2).
Qed.

Lemma concat_forall2 {A B C} (f : A -> list C) (g : B -> list C) (P : A -> B -> Prop)
  (la : list A) (lb : list B) :
  Forall2 (fun a b => f a = g b /\ P a b) la lb ->
  concat (map f la) = concat (map g lb).
Proof.
  induction 1 as [|a b la lb [Hab _] _ IH]; simpl; [done|]. by rewrite Hab, IH.
Qed.

Lemma elem_map_iff {A B} (f : A -> B) (l : list A) (y : B) :
  y ∈ map f l <-> exists x, y = f x /\ x ∈ l.
Proof.
  rewrite list_elem_of_In, in_map_iff. split.
  - intros [x [<- Hx]]. exists x. split; [done|]. by apply list_elem_of_In.
  - intros [x [-> Hx]]. exists x. split; [done|]. by apply list_elem_of_In.
Qed.

(** The greedy bookkeeping: the routes serve the pairs [I], the set of
    assigned indices is that of [I], and the unassigned list is built by
    scanning the indices. *)
Lemma partition_of_pairs (wos : list WorkOrder) (I : list (nat * WorkOrder))
  (A : gset nat) (r : OptimizationResult) :
  NoDup (map wo_id wos) ->
  Forall (fun p => wos !! p.1 = Some p.2) I ->
  NoDup (map fst I) ->
  A = list_to_set (map fst I) ->
  assigned_ids r = map (fun p => wo_id p.2) I ->
  unassigned_orders r =
    omap (fun i => if bool_decide (i ∈ A) then None else map wo_id wos !! i)
         (seq 0 (length wos)) ->
  partitions wos r.
Proof.
  intros Hids Hl Hnd HA Has Hun.
  unfold partitions. rewrite Has, Hun.
  split; [by apply (nodup_ids_of_pairs wos)|].
  rewrite Forall_forall in Hl.
  split.
  - intros x Hx Hx'.
    apply elem_map_iff in Hx as [p [-> Hp]].
    apply list_elem_of_omap in Hx' as [i [_ Hi]].
    case_bool_decide as HiA; [discriminate|].
    rewrite lookup_map_list in Hi.
    destruct (wos !! i) as [w|] eqn:Hw; simpl in Hi; [|discriminate].
    injection Hi as Hi.
    assert (i = p.1) as ->.
    { apply (wo_id_inj wos i p.1 w p.2); auto. }
    apply HiA. rewrite HA. apply elem_of_list_to_set, elem_map_iff. by exists p.
  - intros x. split.
    + intros Hx. apply list_elem_of_lookup in Hx as [i Hi].
      rewrite lookup_map_list in Hi.
      destruct (wos !! i) as [w|] eqn:Hw; simpl in Hi; [|discriminate].
      injection Hi as <-.
      destruct (decide (i ∈ A)) as [HiA|HiA].
      * left. rewrite HA in HiA.
        apply elem_of_list_to_set, elem_map_iff in HiA as [p [-> Hp]].
        apply elem_map_iff. exists p. split; [|done].
        rewrite (Hl p Hp) in Hw. by injection Hw as ->.
      * right. apply list_elem_of_omap. exists i. split.
        -- apply elem_of_seq. apply lookup_lt_Some in Hw. lia.
        -- rewrite bool_decide_false by done. by rewrite lookup_map_list, Hw.
    + intros [Hx|Hx].
      * apply elem_map_iff in Hx as [p [-> Hp]].
        apply elem_map_iff. exists p.2. split; [done|].
        by apply (list_elem_of_lookup_2 _ p.1), Hl.
      * apply list_elem_of_omap in Hx as [i [_ Hi]].
        case_bool_decide; [discriminate|]. by apply list_elem_of_lookup_2 in Hi.
Qed.

Lemma greedy_solve_inv (wos : list WorkOrder) (techs : list Technician)
  (dm : list (list Q)) (speed : Q) (r : OptimizationResult) :
  greedy_solve wos techs dm speed = Ok r ->
  exists cws, length (routes r) = length techs /\ length cws = length (routes r) /\
    (forall k rt tech cw, routes r !! k = Some rt -> techs !! k = Some tech ->
                          cws !! k = Some cw -> route_ok wos tech rt cw) /\
    Forall (fun p => wos !! p.1 = Some p.2) (concat cws) /\
    NoDup (map fst (concat cws)) /\
    assigned_ids r = map (fun p => wo_id p.2) (concat cws) /\
    unassigned_orders r =
      omap (fun i => if bool_decide (i ∈ (list_to_set (map fst (concat cws)) : gset nat))
                     then None else map wo_id wos !! i)
           (seq 0 (length wos)).
Proof.
  unfold greedy_solve.
  destruct (greedy_routes wos techs dm speed 0 techs ∅) as [[rs A]|] eqn:Hg;
    simpl; [|discriminate].
  intros H. injection H as <-.
  destruct (greedy_routes_inv wos techs dm speed techs 0 ∅ A rs Hg)
    as (cws & Hlen & Hlen' & Hk & Hf2 & Hnd & _ & HA).
  exists cws. simpl.
  split; [done|]. split; [done|]. split; [done|].
  split.
  { apply Forall_concat. clear -Hf2. induction Hf2 as [|r cw rs cws [_ H] _ IH];
      constructor; auto. }
  split; [done|].
  split.
  - unfold assigned_ids. simpl.
    rewrite (concat_forall2 _ (fun cw => map (fun p => wo_id p.2) cw)
               (fun r cw => Forall (fun p => wos !! p.1 = Some p.2) cw) rs cws Hf2).
    by rewrite concat_map.
  - assert (A = list_to_set (map fst (concat cws))) as -> by (rewrite HA; set_solver).
    reflexivity.
Qed.

(** ** Genetic decode: the loop invariant *)

Section DecodeInvariant.

Variables (wos : list WorkOrder) (techs : list Technician)
  (dm : list (list Q)) (speed : Q) (tech : Technician) (S0 : gset string).

(** After keeping the orders [cw] (index, record), on top of the ids [S0]
    assigned to earlier technicians. *)
Definition dinv (ds : DState) (cw : list (nat * WorkOrder)) : Prop :=
  Forall (fun p => wos !! p.1 = Some p.2) cw /\
  d_assigned_ids ds = list_to_set (map (fun p => wo_id p.2) cw) ∪ S0 /\
  Forall2 (stop_feasible tech) (map snd cw) (d_stops ds) /\
  d_route_duration ds == sumQ (map travel_duration (d_stops ds)) /\
  d_route_work_time ds == sumQ (map wo_duration_minutes (map snd cw)) /\
  (cw = [] \/ (d_route_duration ds + d_route_work_time ds) / 60 <= tech_max_hours tech).

Lemma dinv_step (ds ds' : DState) (cw : list (nat * WorkOrder)) (i : nat) :
  dinv ds cw ->
  decode_step wos techs dm speed tech ds i = Ok ds' ->
  ds' = ds \/ exists wo, dinv ds' (cw ++ [(i, wo)]).
Proof.
  intros (Hl & Ha & Hf & Hdur & Hwork & Hhrs) H.
  unfold decode_step in H.
  step_bind H wo.
  assert (Hwo : wos !! i = Some wo).
  { unfold get_work_order in E. destruct (wos !! i); [congruence|discriminate]. }
  destruct (negb (_check_skill_match tech wo)); [injection H; auto|].
  step_bind H dist.
  step_bind H travel.
  apply estimate_travel_time_q_ok in E1.
  set (pa := d_current_time ds + travel) in *.
  set (arr := if Qltb pa (wo_time_window_start wo)
              then wo_time_window_start wo else pa) in *.
  assert (Hws : wo_time_window_start wo <= arr).
  { unfold arr. destruct (Qltb pa (wo_time_window_start wo)) eqn:Ew.
    - apply Qle_refl.
    - by apply Qltb_false. }
  destruct (Qltb (wo_time_window_end wo) arr) eqn:Hw1; [injection H; auto|].
  destruct (Qltb (tech_shift_end tech) (arr + wo_duration_minutes wo)) eqn:Hw2;
    [injection H; auto|].
  match type of H with context [Qltb (tech_max_hours tech) ?h] =>
    destruct (Qltb (tech_max_hours tech) h) eqn:Hw3; [injection H; auto|] end.
  injection H as <-. right. exists wo.
  apply Qltb_false in Hw1, Hw2, Hw3.
  unfold dinv. simpl. rewrite !map_app. simpl.
  split; [apply Forall_app; split; [done|by constructor]|].
  split; [rewrite Ha, list_to_set_app_L; simpl; set_solver|].
  split; [apply Forall2_app; [done|constructor; [|constructor]]|].
  { unfold stop_feasible. simpl. split; [done|]. split; [done|]. split; done. }
  rewrite !sumQ_app. simpl. rewrite E1.
  split; [rewrite Hdur; ring|].
  split; [rewrite Hwork; ring|].
  right. refine (Qle_trans _ _ _ _ Hw3). apply Qle_lteq. right. field.
Qed.

Lemma dinv_stops (l : list nat) :
  forall (ds ds' : DState) (cw : list (nat * WorkOrder)),
  dinv ds cw ->
  decode_stops wos techs dm speed tech ds l = Ok ds' ->
  exists cw', dinv ds' (cw ++ cw') /\ map fst cw' `sublist_of` l.
Proof.
  induction l as [|i l IH]; intros ds ds' cw Hinv H; simpl in H.
  - injection H as <-. exists []. rewrite app_nil_r. split; [done|constructor].
  - destruct (decode_step wos techs dm speed tech ds i) as [ds1|] eqn:Hs;
      simpl in H; [|discriminate].
    destruct (dinv_step ds ds1 cw i Hinv Hs) as [->|[wo Hinv1]].
    + destruct (IH ds ds' cw Hinv H) as (cw' & Hi & Hsub).
      exists cw'. split; [done|]. by apply sublist_cons.
    + destruct (IH ds1 ds' _ Hinv1 H) as (cw' & Hi & Hsub).
      exists ((i, wo) :: cw'). rewrite <- app_assoc in Hi. split; [done|].
      simpl. by apply sublist_skip.
Qed.

End DecodeInvariant.

Lemma decode_tech_inv (wos : list WorkOrder) (techs : list Technician)
  (dm : list (list Q)) (speed : Q) (v : nat) (wl : list nat) (S0 S1 : gset string)
  (r : TechnicianRoute) (dd : Q * Q) :
  decode_tech wos techs dm speed v wl S0 = Ok ((r, dd), S1) ->
  exists tech cw, techs !! v = Some tech /\ route_ok wos tech r cw /\
    map fst cw `sublist_of` wl /\
    S1 = list_to_set (map (fun p => wo_id p.2) cw) ∪ S0.
Proof.
  unfold decode_tech.
  destruct (techs !! v) as [tech|] eqn:Ht; simpl; [|discriminate].
  match goal with |- context [decode_stops _ _ _ _ _ ?s0 _] =>
    destruct (decode_stops wos techs dm speed tech s0 wl) as [ds|] eqn:Hd end;
    simpl; [|discriminate].
  intros H. injection H as <- _ <-.
  edestruct (dinv_stops wos techs dm speed tech S0 wl) as (cw & Hinv & Hsub);
    [|exact Hd|].
  - unfold dinv. simpl.
    split; [constructor|]. split; [set_solver|]. split; [constructor|].
    split; [reflexivity|]. split; [reflexivity|]. by left.
  - destruct Hinv as (Hl & Ha & Hf & Hdur & Hwork & Hhrs). simpl in *.
    exists tech, cw. split; [done|].
    split; [|done].
    split; [reflexivity|]. split; [done|]. split; [done|].
    destruct Hhrs as [Hh|Hh]; [by left|right]. simpl.
    unfold route_hours. rewrite <- Hdur, <- Hwork. done.
Qed.

Lemma decode_techs_inv (wos : list WorkOrder) (techs : list Technician)
  (dm : list (list Q)) (speed : Q) (tos : list (list nat)) :
  forall (v : nat) (S0 S1 : gset string) (rts : list (TechnicianRoute * (Q * Q))),
  decode_techs wos techs dm speed v tos S0 = Ok (rts, S1) ->
  exists cws : list (list (nat * WorkOrder)),
    length rts = length tos /\ length cws = length rts /\
    (forall k rt cw, rts !! k = Some rt -> cws !! k = Some cw ->
       exists tech, techs !! (v + k)%nat = Some tech /\ route_ok wos tech rt.1 cw) /\
    Forall2 (fun rt cw => map work_order_id (stops rt.1) = map (fun p => wo_id p.2) cw
                          /\ Forall (fun p => wos !! p.1 = Some p.2) cw) rts cws /\
    map fst (concat cws) `sublist_of` concat tos /\
    S1 = list_to_set (map (fun p => wo_id p.2) (concat cws)) ∪ S0.
Proof.
  induction tos as [|wl tos IH]; intros v S0 S1 rts H; simpl in H.
  - injection H as <- <-. exists [].
    split; [done|]. split; [done|]. split; [intros k rt cw Hr; inversion Hr|].
    split; [constructor|]. split; [constructor|]. simpl. set_solver.
  - destruct (decode_tech wos techs dm speed v wl S0) as [[[r dd] S2]|] eqn:Hd;
      simpl in H; [|discriminate].
    destruct (decode_techs wos techs dm speed (S v) tos S2) as [[rts' S3]|] eqn:Hr;
      simpl in H; [|discriminate].
    injection H as <- <-.
    destruct (decode_tech_inv wos techs dm speed v wl S0 S2 r dd Hd)
      as (tech & cw & Ht & Hok & Hsub & Hs2).
    destruct (IH (S v) S2 S3 rts' Hr) as (cws & Hlen & Hlen' & Hk & Hf2 & Hsub' & Hs3).
    exists (cw :: cws). simpl.
    split; [by rewrite Hlen|]. split; [by rewrite Hlen'|].
    split.
    { intros [|k] rt cw0 Hr0 Hc0; simpl in *.
      - injection Hr0 as <-. injection Hc0 as <-. exists tech.
        rewrite Nat.add_0_r. done.
      - destruct (Hk k rt cw0 Hr0 Hc0) as [tech0 [Ht0 Hok0]].
        exists tech0. rewrite <- Nat.add_succ_comm. done. }
    split.
    { constructor; [|done]. destruct Hok as (_ & Hl & Hf & _).
      split; [by apply (forall2_ids tech)|done]. }
    rewrite map_app.
    split; [by apply sublist_app|].
    rewrite Hs3, Hs2, map_app, list_to_set_app_L. set_solver.
Qed.

Lemma concat_alter_snoc (x i : nat) (tos : list (list nat)) :
  (i < length tos)%nat ->
  concat (alter (fun l => l ++ [x]) i tos) ≡ₚ concat tos ++ [x].
Proof.
  revert i. induction tos as [|l tos IH]; intros i Hi; simpl in Hi; [lia|].
  destruct i as [|i]; simpl.
  - rewrite <- !app_assoc. apply Permutation_app_head, Permutation_app_comm.
  - rewrite <- app_assoc. apply Permutation_app_head, IH. lia.
Qed.

Lemma group_orders_perm (as_ sq : list nat) :
  forall (to tos : list (list nat)),
  group_orders as_ to sq = Ok tos -> concat tos ≡ₚ concat to ++ sq.
Proof.
  induction sq as [|x sq IH]; intros to tos H; simpl in H.
  - injection H as <-. by rewrite app_nil_r.
  - destruct (as_ !! x) as [t|]; [|discriminate].
    destruct (Nat.ltb t (length to)) eqn:Ht; [|discriminate].
    apply Nat.ltb_lt in Ht.
    rewrite (IH _ _ H), concat_alter_snoc by done.
    by rewrite <- app_assoc.
Qed.

Lemma concat_replicate_nil (n : nat) : concat (replicate n (@nil nat)) = [].
Proof. induction n; simpl; auto. Qed.

(** What [_decode_solution] returns, in terms of the orders [cws] kept on
    each route. *)
Lemma decode_solution_inv (wos : list WorkOrder) (techs : list Technician)
  (dm : list (list Q)) (speed : Q) (best : Chromosome) (r : OptimizationResult) :
  _decode_solution wos techs dm speed best = Ok r ->
  exists cws,
    (forall k rt, routes r !! k = Some rt ->
       exists tech cw, techs !! k = Some tech /\ cws !! k = Some cw /\
                       route_ok wos tech rt cw) /\
    Forall (fun p => wos !! p.1 = Some p.2) (concat cws) /\
    (NoDup (order_sequence best) -> NoDup (map fst (concat cws))) /\
    assigned_ids r = map (fun p => wo_id p.2) (concat cws) /\
    unassigned_orders r =
      sorted_set (list_to_set (map wo_id wos) ∖ list_to_set (assigned_ids r)).
Proof.
  unfold _decode_solution.
  destruct (tech_orders_of techs best) as [tos|] eqn:Hto; simpl; [|discriminate].
  destruct (decode_techs wos techs dm speed 0 tos ∅) as [[rts S1]|] eqn:Hd;
    simpl; [|discriminate].
  intros H. injection H as <-.
  destruct (decode_techs_inv wos techs dm speed tos 0 ∅ S1 rts Hd)
    as (cws & Hlen & Hlen' & Hk & Hf2 & Hsub & HS).
  assert (Has : assigned_ids
     {| routes := map fst rts;
        total_distance := round2 (sumQ (map (fun r => fst (snd r)) rts));
        total_duration := round2 (sumQ (map (fun r => snd (snd r)) rts));
        unassigned_orders := sorted_set (list_to_set (map wo_id wos) ∖ S1);
        algorithm := "GeneticSolver" |} = map (fun p => wo_id p.2) (concat cws)).
  { unfold assigned_ids. simpl. rewrite map_map.
    rewrite (concat_forall2 (fun rt => map work_order_id (stops rt.1))
               (fun cw => map (fun p => wo_id p.2) cw)
               (fun rt cw => Forall (fun p => wos !! p.1 = Some p.2) cw) rts cws Hf2).
    by rewrite concat_map. }
  exists cws. rewrite Has. simpl.
  split.
  { intros k rt Hrt. rewrite list_lookup_fmap in Hrt.
    destruct (rts !! k) as [rt0|] eqn:Hr0; simpl in Hrt; [|discriminate].
    injection Hrt as <-.
    assert (Hc : is_Some (cws !! k)).
    { apply lookup_lt_is_Some_2. rewrite Hlen'. by eapply lookup_lt_Some. }
    destruct Hc as [cw Hc].
    destruct (Hk k rt0 cw Hr0 Hc) as [tech [Ht Hok]].
    exists tech, cw. done. }
  split.
  { apply Forall_concat. clear -Hf2. induction Hf2 as [|r cw rs cws [_ H] _ IH];
      constructor; auto. }
  split.
  { intros Hnd. apply (sublist_NoDup _ (concat tos)); [|done].
    unfold tech_orders_of in Hto. apply group_orders_perm in Hto.
    rewrite Hto, concat_replicate_nil. done. }
  split; [done|].
  rewrite HS. f_equal. f_equal. set_solver.
Qed.

(** ** Partition and feasibility of the solvers' results *)

(** Every route, paired with the technician at its position, serves input
    orders [ws] feasibly, and a route with stops is within the
    technician's hours. *)
Definition routes_feasible (wos : list WorkOrder) (techs : list Technician)
  (r : OptimizationResult) : Prop :=
  forall k rt, routes r !! k = Some rt ->
  exists tech ws, techs !! k = Some tech /\ technician_id rt = tech_id tech /\
    (forall w, w ∈ ws -> w ∈ wos) /\
    Forall2 (stop_feasible tech) ws (stops rt) /\
    (stops rt <> [] -> route_hours (stops rt) ws <= tech_max_hours tech).

Lemma route_ok_feasible (wos : list WorkOrder) (tech : Technician)
  (rt : TechnicianRoute) (cw : list (nat * WorkOrder)) :
  route_ok wos tech rt cw ->
  technician_id rt = tech_id tech /\
  (forall w, w ∈ map snd cw -> w ∈ wos) /\
  Forall2 (stop_feasible tech) (map snd cw) (stops rt) /\
  (stops rt <> [] -> route_hours (stops rt) (map snd cw) <= tech_max_hours tech).
Proof.
  intros (Hid & Hl & Hf & Hh).
  split; [done|]. split.
  { intros w Hw. apply elem_map_iff in Hw as [p [-> Hp]].
    rewrite Forall_forall in Hl. by apply (list_elem_of_lookup_2 _ p.1), Hl. }
  split; [done|].
  intros Hne. destruct Hh as [->|Hh]; [|done].
  simpl in Hf. inversion Hf. congruence.
Qed.

(** C1: with distinct input ids, the results of [GreedySolver] and of the
    genetic decode (for a chromosome whose order sequence has no repeated
    index, as the permutations of the GA have) partition the input ids:
    no id twice among the routes' stops, none both routed and unassigned,
    and together exactly the input ids. *)
Theorem solvers_partition_ids (wos : list WorkOrder) (techs : list Technician)
  (dm : list (list Q)) (speed : Q) :
  NoDup (map wo_id wos) ->
  (forall r, greedy_solve wos techs dm speed = Ok r -> partitions wos r) /\
  (forall best r, NoDup (order_sequence best) ->
     _decode_solution wos techs dm speed best = Ok r -> partitions wos r).
Proof.
  intros Hids. split.
  - intros r H.
    destruct (greedy_solve_inv wos techs dm speed r H)
      as (cws & _ & _ & _ & Hl & Hnd & Has & Hun).
    by apply (partition_of_pairs wos (concat cws)
                (list_to_set (map fst (concat cws)))).
  - intros best r Hseq H.
    destruct (decode_solution_inv wos techs dm speed best r H)
      as (cws & _ & Hl & Hnd & Has & Hun).
    specialize (Hnd Hseq).
    assert (HndA : NoDup (assigned_ids r)).
    { rewrite Has. by apply (nodup_ids_of_pairs wos). }
    unfold partitions. split; [done|]. rewrite Hun.
    unfold sorted_set.
    split.
    + intros x Hx Hx'. rewrite sort_by_perm, elem_of_elements in Hx'. set_solver.
    + intros x. rewrite sort_by_perm, elem_of_elements, elem_of_difference,
        !elem_of_list_to_set.
      split.
      * intros Hx. destruct (decide (x ∈ assigned_ids r)); [by left|by right].
      * intros [Hx|[Hx _]]; [|done].
        rewrite Has in Hx. apply elem_map_iff in Hx as [p [-> Hp]].
        rewrite Forall_forall in Hl.
        apply elem_map_iff. exists p.2. split; [done|].
        by apply (list_elem_of_lookup_2 _ p.1), Hl.
Qed.

Lemma solvers_partition_ids_witness :
  NoDup (map wo_id Sample.orders_mix) /\
  (exists r, greedy_solve Sample.orders_mix [Sample.tech_a] Sample.matrix_mix 30 = Ok r /\
             partitions Sample.orders_mix r /\ assigned_ids r = ["d"; "c"]%string /\
             unassigned_orders r = ["b"]%string) /\
  (exists r, _decode_solution Sample.orders_mix [Sample.tech_a] Sample.matrix_mix 30
               Sample.best_mix = Ok r /\
             partitions Sample.orders_mix r /\ assigned_ids r = ["d"; "c"]%string /\
             unassigned_orders r = ["b"]%string).
Proof.
  assert (Hids : NoDup (map wo_id Sample.orders_mix)) by (refine (bool_decide_unpack _ _); vm_compute; reflexivity).
  destruct (solvers_partition_ids Sample.orders_mix [Sample.tech_a] Sample.matrix_mix 30 Hids)
    as [Hg Hd].
  split; [exact Hids|]. split.
  - destruct (greedy_solve Sample.orders_mix [Sample.tech_a] Sample.matrix_mix 30)
      as [r|e] eqn:E; [|vm_compute in E; discriminate E].
    exists r. split; [reflexivity|]. split; [exact (Hg r eq_refl)|].
    vm_compute in E. injection E as <-. split; reflexivity.
  - destruct (_decode_solution Sample.orders_mix [Sample.tech_a] Sample.matrix_mix 30
                Sample.best_mix) as [r|e] eqn:E; [|vm_compute in E; discriminate E].
    exists r. split; [reflexivity|].
    split; [apply (Hd Sample.best_mix r); [refine (bool_decide_unpack _ _); vm_compute; reflexivity|exact E]|].
    vm_compute in E. injection E as <-. split; reflexivity.
Defined.

(** C2: every stop of every route of [GreedySolver] and of the genetic
    decode arrives within its order's time window (early arrivals wait
    for the window start), departs by the technician's shift end, and a
    route with stops has cumulative travel-plus-service hours within the
    technician's [max_hours] (exactly, so also within [max_hours + 0.01]). *)
Theorem solvers_routes_feasible (wos : list WorkOrder) (techs : list Technician)
  (dm : list (list Q)) (speed : Q) :
  (forall r, greedy_solve wos techs dm speed = Ok r -> routes_feasible wos techs r) /\
  (forall best r, _decode_solution wos techs dm speed best = Ok r ->
     routes_feasible wos techs r).
Proof.
  split.
  - intros r H k rt Hrt.
    destruct (greedy_solve_inv wos techs dm speed r H)
      as (cws & Hlen & Hlen' & Hk & _).
    assert (Ht : is_Some (techs !! k)).
    { apply lookup_lt_is_Some_2. rewrite <- Hlen. by eapply lookup_lt_Some. }
    assert (Hc : is_Some (cws !! k)).
    { apply lookup_lt_is_Some_2. rewrite Hlen'. by eapply lookup_lt_Some. }
    destruct Ht as [tech Ht]. destruct Hc as [cw Hc].
    exists tech, (map snd cw). split; [done|].
    apply route_ok_feasible. by apply (Hk k).
  - intros best r H k rt Hrt.
    destruct (decode_solution_inv wos techs dm speed best r H)
      as (cws & Hk & _).
    destruct (Hk k rt Hrt) as (tech & cw & Ht & _ & Hok).
    exists tech, (map snd cw). split; [done|].
    by apply route_ok_feasible.
Qed.

Lemma solvers_routes_feasible_witness :
  (exists r, greedy_solve Sample.orders_mix [Sample.tech_a] Sample.matrix_mix 30 = Ok r /\
             routes_feasible Sample.orders_mix [Sample.tech_a] r /\
             length (assigned_ids r) = 2%nat) /\
  (exists r, _decode_solution Sample.orders_mix [Sample.tech_a] Sample.matrix_mix 30
               Sample.best_mix = Ok r /\
             routes_feasible Sample.orders_mix [Sample.tech_a] r /\
             length (assigned_ids r) = 2%nat).
Proof.
  destruct (solvers_routes_feasible Sample.orders_mix [Sample.tech_a] Sample.matrix_mix 30)
    as [Hg Hd].
  split.
  - destruct (greedy_solve Sample.orders_mix [Sample.tech_a] Sample.matrix_mix 30)
      as [r|e] eqn:E; [|vm_compute in E; discriminate E].
    exists r. split; [reflexivity|]. split; [exact (Hg r eq_refl)|].
    vm_compute in E. injection E as <-. reflexivity.
  - destruct (_decode_solution Sample.orders_mix [Sample.tech_a] Sample.matrix_mix 30
                Sample.best_mix) as [r|e] eqn:E; [|vm_compute in E; discriminate E].
    exists r. split; [reflexivity|]. split; [exact (Hd Sample.best_mix r E)|].
    vm_compute in E. injection E as <-. reflexivity.
Defined.

(** ** The fitness, against the specification's formula *)

Lemma pos_part_sub (a b : Q) : pos_part (b - a) == if Qltb a b then b - a else 0.
Proof.
  unfold pos_part, Qltb.
  destruct (Qle_bool (b - a) 0) eqn:E1, (Qle_bool b a) eqn:E2; simpl; try reflexivity.
  - apply Qle_bool_iff in E1.
    assert (~ b <= a) by (intros H; apply Qle_bool_iff in H; congruence). lra.
  - apply Qle_bool_iff in E2.
    assert (~ b - a <= 0) by (intros H; apply Qle_bool_iff in H; congruence). lra.
Qed.

Section FitnessRefinement.

Variables (wos : list WorkOrder) (techs : list Technician)
  (dm : list (list Q)) (speed : Q) (tech : Technician).

Definition legs_penalty (legs : list Leg) : Q :=
  500 * sumQ (map (fun g => if _check_skill_match tech (leg_order g) then 0 else 1) legs)
  + sumQ (map (fun g => 200 * (pos_part (leg_arrival g - wo_time_window_end (leg_order g)) / 60)) legs)
  + sumQ (map (fun g => 300 * (pos_part (leg_departure g - tech_shift_end tech) / 60)) legs).

Definition legs_used (legs : list Leg) : Q :=
  sumQ (map (fun g => (leg_travel g + wo_duration_minutes (leg_order g)) / 60) legs).

(** The per-stop loop of [_evaluate_fitness] adds to its accumulators
    the distances, per-stop penalties and hours of the schedule. *)
Lemma fitness_stops_schedule (l : list nat) :
  forall fs : FState,
  res_rel (fun fs' legs =>
             f_total_distance fs' == f_total_distance fs + sumQ (map leg_distance legs) /\
             f_penalty fs' == f_penalty fs + legs_penalty legs /\
             f_used_hours fs' == f_used_hours fs + legs_used legs)
    (fitness_stops wos techs dm speed tech fs l)
    (schedule wos techs dm speed (f_current_node fs) (f_current_time fs) l).
Proof.
  unfold legs_penalty, legs_used.
  induction l as [|i l IH]; intros fs; simpl.
  - split; [ring|]. split; ring.
  - unfold fitness_step.
    destruct (get_work_order wos i) as [wo|e]; simpl; [|reflexivity].
    destruct (get_dist dm (f_current_node fs) (i + length techs)) as [d|e];
      simpl; [|reflexivity].
    destruct (estimate_travel_time_q d speed) as [travel|e]; simpl; [|reflexivity].
    unfold qmax, Qltb.
    destruct (Qle_bool (wo_time_window_start wo) (f_current_time fs + travel)) eqn:Ew;
      simpl;
    match goal with
    | |- res_rel _ (fitness_stops _ _ _ _ _ ?fs1 _) _ =>
        specialize (IH fs1); simpl in IH;
        destruct (fitness_stops wos techs dm speed tech fs1 l) as [fs'|e1];
        destruct (schedule _ _ _ _ _ _ l) as [legs|e2]; simpl in *; try done
    end;
    destruct IH as (Hd & Hp & Hu);
    (split; [rewrite Hd; ring|]); (split; [|rewrite Hu; ring]); rewrite Hp;
    rewrite !pos_part_sub;
    unfold Qltb, _SKILL_VIOLATION_PENALTY, _TIME_WINDOW_VIOLATION_PENALTY,
      _CAPACITY_VIOLATION_PENALTY;
    (destruct (_check_skill_match tech wo));
    repeat match goal with |- context [Qle_bool ?a ?b] => destruct (Qle_bool a b) end;
    simpl; field.
Qed.

End FitnessRefinement.

Lemma pos_part_compat (x y : Q) : x == y -> pos_part x == pos_part y.
Proof.
  intros Hxy. unfold pos_part.
  destruct (Qle_bool x 0) eqn:E1, (Qle_bool y 0) eqn:E2; try done.
  - apply Qle_bool_iff in E1.
    assert (y <= 0) as H by (rewrite <- Hxy; done).
    apply Qle_bool_iff in H. congruence.
  - apply Qle_bool_iff in E2.
    assert (x <= 0) as H by (rewrite Hxy; done).
    apply Qle_bool_iff in H. congruence.
Qed.

Lemma fitness_techs_costs (wos : list WorkOrder) (techs : list Technician)
  (dm : list (list Q)) (speed : Q) (tos : list (list nat)) :
  forall (acc : Q * Q) (v : nat),
  res_rel (fun acc' costs => fst acc' + snd acc' == fst acc + snd acc + sumQ costs)
    (fitness_techs wos techs dm speed acc v tos)
    (route_costs wos techs dm speed v tos).
Proof.
  induction tos as [|l tos IH]; intros acc v; simpl.
  - ring.
  - unfold fitness_tech.
    destruct (techs !! v) as [tech|]; simpl; [|reflexivity].
    match goal with |- context [fitness_stops _ _ _ _ _ ?fs0 _] =>
      pose proof (fitness_stops_schedule wos techs dm speed tech l fs0) as Hs;
      simpl in Hs;
      destruct (fitness_stops wos techs dm speed tech fs0 l) as [fs|e1];
      destruct (schedule wos techs dm speed v (tech_shift_start tech) l) as [legs|e2];
      simpl in Hs |- *; try done
    end.
    destruct Hs as (Hd & Hp & Hu).
    match goal with |- res_rel _ (fitness_techs _ _ _ _ ?acc1 _ _) _ =>
      specialize (IH acc1 (S v));
      destruct (fitness_techs wos techs dm speed acc1 (S v) tos) as [acc'|e1];
      destruct (route_costs wos techs dm speed (S v) tos) as [costs|e2];
      simpl in IH |- *; try done
    end.
    rewrite IH. simpl.
    assert (Hcap : pos_part (legs_used legs - tech_max_hours tech) ==
                   if Qltb (tech_max_hours tech) (f_used_hours fs)
                   then f_used_hours fs - tech_max_hours tech else 0).
    { rewrite <- pos_part_sub. apply pos_part_compat. rewrite Hu. ring. }
    unfold route_cost. fold (legs_used legs).
    rewrite Hcap.
    unfold legs_penalty in Hp.
    destruct (Qltb (tech_max_hours tech) (f_used_hours fs)); simpl;
      rewrite ?Hp, Hd; unfold _CAPACITY_VIOLATION_PENALTY; ring.
Qed.

(** C4: for every chromosome, [_evaluate_fitness] equals the formula of
    the specification ([spec_fitness]): the sum, over the technicians'
    order lists taken in chromosome order from their home nodes, of the
    leg distances, 500 per stop whose skills the technician lacks, 200 per
    hour of arrival past the window end (an early arrival waits, at no
    cost), 300 per hour past the shift end at each stop, and 300 per hour
    of travel-plus-service beyond [max_hours]. Where one raises, both raise
    the same exception. *)
Theorem evaluate_fitness_formula (wos : list WorkOrder) (techs : list Technician)
  (dm : list (list Q)) (speed : Q) (chromo : Chromosome) :
  res_rel Qeq (_evaluate_fitness wos techs dm speed chromo)
              (spec_fitness wos techs dm speed chromo).
Proof.
  unfold _evaluate_fitness, spec_fitness.
  destruct (tech_orders_of techs chromo) as [tos|e]; simpl; [|reflexivity].
  pose proof (fitness_techs_costs wos techs dm speed tos (0, 0) 0%nat) as H.
  destruct (fitness_techs wos techs dm speed (0, 0) 0 tos) as [acc|e1];
    destruct (route_costs wos techs dm speed 0 tos) as [costs|e2];
    simpl in H |- *; try done.
  rewrite H. ring.
Qed.

(** ** Input validation *)

Definition complete (required : gset string) (r : PyDict) : Prop :=
  required ∖ dom r = ∅.

Lemma check_records_ok required mk (recs : list PyDict) :
  forall idx,
  check_records required mk idx recs = Ok tt <->
  Forall (complete required) recs.
Proof.
  induction recs as [|r recs IH]; intros idx; simpl.
  - split; [constructor|done].
  - unfold complete at 1. case_bool_decide as Hm.
    + rewrite IH, Forall_cons. tauto.
    + split; [discriminate|]. intros Hf. inversion Hf. contradiction.
Qed.

Lemma check_records_first required mk (recs : list PyDict) :
  forall idx i r,
  (forall j r', (j < i)%nat -> recs !! j = Some r' -> complete required r') ->
  recs !! i = Some r -> ~ complete required r ->
  check_records required mk idx recs =
    value_error (mk (idx + i)%nat (get_id r) (required ∖ dom r)).
Proof.
  induction recs as [|r0 recs IH]; intros idx i r Hbefore Hi Hr; [done|].
  simpl. destruct i as [|i].
  - simpl in Hi. injection Hi as <-.
    rewrite bool_decide_false by done. by rewrite Nat.add_0_r.
  - rewrite bool_decide_true.
    + rewrite (IH (S idx) i r); [by rewrite Nat.add_succ_comm| |done|done].
      intros j r' Hj Hr'. apply (Hbefore (S j)); [lia|done].
    + apply (Hbefore 0%nat); [lia|done].
Qed.

Lemma check_rows_ok n (rows : list (list Q)) :
  forall idx,
  check_rows n idx rows = Ok tt <-> Forall (fun row => length row = n) rows.
Proof.
  induction rows as [|row rows IH]; intros idx; simpl.
  - split; [constructor|done].
  - destruct (Nat.eqb_spec (length row) n) as [Hn|Hn].
    + rewrite IH, Forall_cons. tauto.
    + split; [discriminate|]. intros Hf. inversion Hf. contradiction.
Qed.

Lemma check_rows_first n (rows : list (list Q)) :
  forall idx i row,
  (forall j row', (j < i)%nat -> rows !! j = Some row' -> length row' = n) ->
  rows !! i = Some row -> length row <> n ->
  check_rows n idx rows = value_error (MatrixRowLength (idx + i) (length row) n).
Proof.
  induction rows as [|r0 rows IH]; intros idx i row Hbefore Hi Hr; [done|].
  simpl. destruct i as [|i].
  - simpl in Hi. injection Hi as ->.
    destruct (Nat.eqb_spec (length row) n); [contradiction|].
    by rewrite Nat.add_0_r.
  - destruct (Nat.eqb_spec (length r0) n) as [Hn|Hn].
    + rewrite (IH (S idx) i row); [by rewrite Nat.add_succ_comm| |done|done].
      intros j r' Hj Hr'. apply (Hbefore (S j)); [lia|done].
    + exfalso. apply Hn, (Hbefore 0%nat); [lia|done].
Qed.

Lemma forall_before {A} (P : A -> Prop) (l : list A) i :
  Forall P l -> forall j x, (j < i)%nat -> l !! j = Some x -> P x.
Proof.
  intros Hf j x _ Hx. rewrite Forall_forall in Hf. by apply Hf, (list_elem_of_lookup_2 _ j).
Qed.

(** C6 (amended): [__init__] runs [_validate_inputs] before any solving,
    and returns a solver object (holding the inputs) exactly when every
    check passes, so no partial result exists. The checks run in a fixed
    order and the first failing one raises: an empty work-order list, an
    empty technician list, the first work order missing required keys, the
    first technician missing required keys, the row count of the matrix,
    the first row of the wrong length. A missing-keys error names the
    record's index, its id (or ["UNKNOWN"]) and exactly its missing keys;
    it is raised only when the earlier checks pass. *)
Theorem base_solver_validation (wos techs : list PyDict) (dm : list (list Q))
  (config : gmap string pyval) :
  let n := (length techs + length wos)%nat in
  (forall o, BaseSolver_init wos techs dm config = Ok o <->
     wos <> [] /\ techs <> [] /\
     Forall (complete REQUIRED_WORK_ORDER_KEYS) wos /\
     Forall (complete REQUIRED_TECHNICIAN_KEYS) techs /\
     length dm = n /\ Forall (fun row => length row = n) dm /\
     o = {| so_work_orders := wos; so_technicians := techs;
            so_distance_matrix := dm; so_config := config |}) /\
  (wos = [] -> BaseSolver_init wos techs dm config = value_error EmptyWorkOrders) /\
  (wos <> [] -> techs = [] ->
     BaseSolver_init wos techs dm config = value_error EmptyTechnicians) /\
  (forall i w, wos <> [] -> techs <> [] ->
     (forall j w', (j < i)%nat -> wos !! j = Some w' -> complete REQUIRED_WORK_ORDER_KEYS w') ->
     wos !! i = Some w -> ~ complete REQUIRED_WORK_ORDER_KEYS w ->
     BaseSolver_init wos techs dm config =
       value_error (WorkOrderMissingKeys i (get_id w) (REQUIRED_WORK_ORDER_KEYS ∖ dom w))) /\
  (forall i t, wos <> [] -> techs <> [] ->
     Forall (complete REQUIRED_WORK_ORDER_KEYS) wos ->
     (forall j t', (j < i)%nat -> techs !! j = Some t' -> complete REQUIRED_TECHNICIAN_KEYS t') ->
     techs !! i = Some t -> ~ complete REQUIRED_TECHNICIAN_KEYS t ->
     BaseSolver_init wos techs dm config =
       value_error (TechnicianMissingKeys i (get_id t) (REQUIRED_TECHNICIAN_KEYS ∖ dom t))) /\
  (wos <> [] -> techs <> [] ->
     Forall (complete REQUIRED_WORK_ORDER_KEYS) wos ->
     Forall (complete REQUIRED_TECHNICIAN_KEYS) techs ->
     length dm <> n ->
     BaseSolver_init wos techs dm config = value_error (MatrixRowCount (length dm) n)) /\
  (forall i row, wos <> [] -> techs <> [] ->
     Forall (complete REQUIRED_WORK_ORDER_KEYS) wos ->
     Forall (complete REQUIRED_TECHNICIAN_KEYS) techs ->
     length dm = n ->
     (forall j row', (j < i)%nat -> dm !! j = Some row' -> length row' = n) ->
     dm !! i = Some row -> length row <> n ->
     BaseSolver_init wos techs dm config = value_error (MatrixRowLength i (length row) n)).
Proof.
  intros n. unfold BaseSolver_init, _validate_inputs. fold n.
  split; [|split; [|split; [|split; [|split; [|split]]]]].
  - intros o.
    case_bool_decide as Hw; simpl.
    { split; [discriminate|]. tauto. }
    case_bool_decide as Ht; simpl.
    { split; [discriminate|]. tauto. }
    pose proof (check_records_ok REQUIRED_WORK_ORDER_KEYS WorkOrderMissingKeys wos 0) as Hcw.
    pose proof (check_records_ok REQUIRED_TECHNICIAN_KEYS TechnicianMissingKeys techs 0) as Hct.
    destruct (check_records REQUIRED_WORK_ORDER_KEYS WorkOrderMissingKeys 0 wos)
      as [[]|e]; simpl.
    2:{ split; [discriminate|]. intros (_ & _ & Hf & _). apply Hcw in Hf. discriminate. }
    destruct (check_records REQUIRED_TECHNICIAN_KEYS TechnicianMissingKeys 0 techs)
      as [[]|e]; simpl.
    2:{ split; [discriminate|]. intros (_ & _ & _ & Hf & _). apply Hct in Hf. discriminate. }
    destruct (Nat.eqb_spec (length dm) n) as [Hn|Hn]; simpl.
    2:{ split; [discriminate|]. tauto. }
    pose proof (check_rows_ok n dm 0) as Hcr.
    destruct (check_rows n 0 dm) as [[]|e]; simpl.
    + split.
      * intros H. injection H as <-.
        repeat split; try done; [apply Hcw|apply Hct|apply Hcr]; done.
      * intros (_ & _ & _ & _ & _ & _ & ->). done.
    + split; [discriminate|]. intros (_ & _ & _ & _ & _ & Hf & _).
      apply Hcr in Hf. discriminate.
  - intros ->. rewrite bool_decide_true by done. done.
  - intros Hw ->. rewrite bool_decide_false by done.
    rewrite bool_decide_true by done. done.
  - intros i w Hw Ht Hbefore Hi Hm.
    rewrite !bool_decide_false by done.
    by rewrite (check_records_first _ _ wos 0 i w Hbefore Hi Hm).
  - intros i t Hw Ht Hcw Hbefore Hi Hm.
    rewrite !bool_decide_false by done.
    apply (check_records_ok _ WorkOrderMissingKeys _ 0) in Hcw. rewrite Hcw. simpl.
    by rewrite (check_records_first _ _ techs 0 i t Hbefore Hi Hm).
  - intros Hw Ht Hcw Hct Hn.
    rewrite !bool_decide_false by done.
    apply (check_records_ok _ WorkOrderMissingKeys _ 0) in Hcw. rewrite Hcw. simpl.
    apply (check_records_ok _ TechnicianMissingKeys _ 0) in Hct. rewrite Hct. simpl.
    destruct (Nat.eqb_spec (length dm) n); [contradiction|done].
  - intros i row Hw Ht Hcw Hct Hn Hbefore Hi Hr.
    rewrite !bool_decide_false by done.
    apply (check_records_ok _ WorkOrderMissingKeys _ 0) in Hcw. rewrite Hcw. simpl.
    apply (check_records_ok _ TechnicianMissingKeys _ 0) in Hct. rewrite Hct. simpl.
    destruct (Nat.eqb_spec (length dm) n); [|contradiction]. simpl.
    by rewrite (check_rows_first n dm 0 i row Hbefore Hi Hr).
Qed.

Lemma base_solver_validation_witness :
  BaseSolver_init [Sample.wo_dict "w1"; Sample.wo_dict_no_lat "w2"]%string
                  [Sample.tech_dict "t1"]%string (Sample.zero_matrix 3) ∅ =
  value_error (WorkOrderMissingKeys 1 (PStr "w2") {["lat"]})%string.
Proof.
  destruct (base_solver_validation [Sample.wo_dict "w1"; Sample.wo_dict_no_lat "w2"]%string
              [Sample.tech_dict "t1"]%string (Sample.zero_matrix 3) ∅)
    as (_ & _ & _ & Hwo & _).
  assert (Hbefore : forall j w', (j < 1)%nat ->
            [Sample.wo_dict "w1"; Sample.wo_dict_no_lat "w2"]%string !! j = Some w' ->
            complete REQUIRED_WORK_ORDER_KEYS w').
  { intros j w' Hj Hw'. assert (j = 0%nat) as -> by lia.
    simpl in Hw'. injection Hw' as <-. vm_compute. reflexivity. }
  assert (Hmiss : ~ complete REQUIRED_WORK_ORDER_KEYS (Sample.wo_dict_no_lat "w2"%string)).
  { intros H. vm_compute in H. discriminate H. }
  rewrite (Hwo 1%nat (Sample.wo_dict_no_lat "w2"%string)
             ltac:(discriminate) ltac:(discriminate) Hbefore eq_refl Hmiss).
  vm_compute. reflexivity.
Defined.

(** C6, counterexample: a work order missing ["lat"] together with an
    empty technician list; the error raised is the empty-technicians one,
    which names no record and no missing key. *)
Lemma base_solver_validation_counterexample :
  REQUIRED_WORK_ORDER_KEYS ∖ dom (Sample.wo_dict_no_lat "w1"%string) = {["lat"%string]} /\
  BaseSolver_init [Sample.wo_dict_no_lat "w1"%string] [] [] ∅ = value_error EmptyTechnicians.
Proof. split; vm_compute; reflexivity. Qed.

(** ** build_distance_matrix *)

Lemma lookup2_set_entry_eq (m : list (list float)) i j x y :
  lookup2 m i j = Some y -> lookup2 (set_entry m i j x) i j = Some x.
Proof.
  unfold lookup2, set_entry. rewrite list_lookup_alter_eq.
  destruct (m !! i) as [row|]; simpl; [|discriminate].
  intros Hy. apply list_lookup_insert_eq. eapply lookup_lt_Some; eauto.
Qed.

Lemma lookup2_set_entry_ne (m : list (list float)) i j x a b :
  (a, b) <> (i, j) -> lookup2 (set_entry m i j x) a b = lookup2 m a b.
Proof.
  intros Hne. unfold lookup2, set_entry.
  destruct (decide (a = i)) as [->|Ha].
  - rewrite list_lookup_alter_eq. destruct (m !! i) as [row|]; simpl; [|done].
    apply list_lookup_insert_ne. congruence.
  - rewrite list_lookup_alter_ne; auto.
Qed.

Lemma square_set_entry n (m : list (list float)) i j x :
  square n m -> square n (set_entry m i j x).
Proof.
  intros [Hl Hr]. unfold set_entry. split.
  - rewrite length_alter. done.
  - intros row Hrow. apply list_elem_of_lookup in Hrow as [k Hk].
    rewrite list_lookup_alter in Hk.
    destruct (decide (i = k)) as [->|]; [|apply Hr; eapply list_elem_of_lookup_2; eauto].
    destruct (m !! k) as [r|] eqn:Hmk; simpl in Hk; [|discriminate].
    injection Hk as <-. rewrite length_insert. apply Hr. eapply list_elem_of_lookup_2; eauto.
Qed.

Lemma square_lookup2 n (m : list (list float)) a b :
  square n m -> (a < n)%nat -> (b < n)%nat -> is_Some (lookup2 m a b).
Proof.
  intros [Hl Hr] Ha Hb. unfold lookup2.
  destruct (lookup_lt_is_Some_2 m a) as [row Hrow]; [lia|].
  rewrite Hrow. simpl. apply lookup_lt_is_Some_2.
  rewrite (Hr row); [done|]. eapply list_elem_of_lookup_2; eauto.
Qed.

Lemma square_lookup2_None n (m : list (list float)) a b :
  square n m -> (n <= a \/ n <= b)%nat -> lookup2 m a b = None.
Proof.
  intros [Hl Hr] Hab. unfold lookup2.
  destruct (m !! a) as [row|] eqn:Hrow; simpl; [|done].
  pose proof (lookup_lt_Some _ _ _ Hrow).
  apply lookup_ge_None_2. rewrite (Hr row); [lia|]. eapply list_elem_of_lookup_2; eauto.
Qed.

Lemma check_locations_ok k ls :
  check_locations k ls = Ok tt <-> Forall complete_loc ls.
Proof.
  revert k. induction ls as [|l ls IH]; intros k; simpl.
  - split; auto.
  - rewrite Forall_cons. unfold complete_loc. case_bool_decide as Hb.
    + split; [discriminate|]. intros [[H1 H2] _]. tauto.
    + rewrite IH. split; [|tauto]. intros H. split; [|done].
      split; destruct (decide ("lat"%string ∈ dom l)); destruct (decide ("lng"%string ∈ dom l)); tauto.
Qed.

Lemma check_locations_first k ls (i : nat) l :
  ls !! i = Some l -> ~ complete_loc l ->
  (forall j l', (j < i)%nat -> ls !! j = Some l' -> complete_loc l') ->
  check_locations k ls = value_error (LocationMissingLatLng (k + i)%nat).
Proof.
  revert k i. induction ls as [|l0 ls IH]; intros k i Hi Hl Hbefore; [discriminate|].
  simpl. unfold complete_loc in *. destruct i as [|i].
  - injection Hi as ->. rewrite bool_decide_true; [f_equal; f_equal; lia|].
    destruct (decide ("lat"%string ∈ dom l)); destruct (decide ("lng"%string ∈ dom l)); tauto.
  - rewrite bool_decide_false.
    + rewrite (IH (S k) i); [f_equal; f_equal; lia|done|done|].
      intros j l' Hj Hl'. apply (Hbefore (S j)); [lia|done].
    + destruct (Hbefore 0%nat l0) as [H1 H2]; [lia|done|]. tauto.
Qed.


Section DistanceProofs.
Local Open Scope nat_scope.
Variables (sin_ cos_ : float -> float) (atan2_ pow_ : float -> float -> float).
Variable locs : list (gmap string float).
Let n := length locs.
Let pd := pair_distance sin_ cos_ atan2_ pow_ locs.

(** The matrix after some pairs [(p, q)], [p < q], have been written. *)
Definition minv (W : nat -> nat -> Prop) (m : list (list float)) : Prop :=
  square n m /\
  (forall a, a < n -> lookup2 m a a = Some 0%float) /\
  (forall p q, W p q -> p < q /\
     exists d, pd p q = Ok d /\ lookup2 m p q = Some d /\ lookup2 m q p = Some d).

Lemma minv_mono (W W' : nat -> nat -> Prop) m :
  (forall p q, W' p q -> W p q) -> minv W m -> minv W' m.
Proof. intros HW (Hs & Hd & Hp). split_and!; auto. Qed.

Lemma matrix_pair_inv W m m' i j :
  i < j < n -> minv W m -> matrix_pair sin_ cos_ atan2_ pow_ locs m i j = Ok m' ->
  minv (fun p q => W p q \/ (p = i /\ q = j)) m'.
Proof.
  intros Hij (Hs & Hd & Hp) Hm. unfold matrix_pair in Hm. fold pd in Hm.
  destruct (pd i j) as [d|e] eqn:Hpd; simpl in Hm; [|discriminate].
  injection Hm as <-.
  destruct (square_lookup2 n m i j) as [y1 Hy1]; auto; try lia.
  destruct (square_lookup2 n m j i) as [y2 Hy2]; auto; try lia.
  split_and!.
  - by do 2 apply square_set_entry.
  - intros a Ha. rewrite !lookup2_set_entry_ne by (intros [=]; lia). auto.
  - intros p q [HW|[-> ->]].
    + destruct (Hp p q HW) as (Hpq & d' & Hd' & E1 & E2). split; [done|].
      destruct (decide ((p, q) = (i, j))) as [[=-> ->]|Hne].
      * rewrite Hpd in Hd'. injection Hd' as <-. exists d. split_and!; auto.
        -- rewrite lookup2_set_entry_ne by (intros [=]; lia).
           eapply lookup2_set_entry_eq; eauto.
        -- eapply lookup2_set_entry_eq.
           rewrite lookup2_set_entry_ne by (intros [=]; lia). eauto.
      * exists d'. split_and!; auto.
        -- rewrite lookup2_set_entry_ne by (intros [=]; lia).
           rewrite lookup2_set_entry_ne by done. done.
        -- rewrite lookup2_set_entry_ne by (intros [=]; subst; done).
           rewrite lookup2_set_entry_ne by (intros [=]; lia). done.
    + split; [lia|]. exists d. split_and!; auto.
      * rewrite lookup2_set_entry_ne by (intros [=]; lia).
        eapply lookup2_set_entry_eq; eauto.
      * eapply lookup2_set_entry_eq.
        rewrite lookup2_set_entry_ne by (intros [=]; lia). eauto.
Qed.

Lemma matrix_inner_inv W i js m m' :
  (forall j, j ∈ js -> i < j < n) -> minv W m ->
  matrix_inner sin_ cos_ atan2_ pow_ locs i js m = Ok m' ->
  minv (fun p q => W p q \/ (p = i /\ q ∈ js)) m'.
Proof.
  revert W m. induction js as [|j js IH]; intros W m Hjs Hinv Hm; simpl in Hm.
  - injection Hm as <-. eapply minv_mono; [|exact Hinv].
    intros p q [?|[_ Hq]]; [done|]. by apply elem_of_nil in Hq.
  - destruct (matrix_pair _ _ _ _ _ m i j) as [m1|e] eqn:Hp; simpl in Hm; [|discriminate].
    eapply matrix_pair_inv in Hp; [|apply Hjs; left|exact Hinv].
    eapply IH in Hm; [|intros j' Hj'; apply Hjs; right; exact Hj'|exact Hp].
    eapply minv_mono; [|exact Hm].
    intros p q [?|[-> Hq]]; [by left; left|].
    apply elem_of_cons in Hq as [->|Hq]; [by left; right|by right].
Qed.

Lemma matrix_outer_inv W is_ m m' :
  (forall i, i ∈ is_ -> i < n) -> minv W m ->
  matrix_outer sin_ cos_ atan2_ pow_ locs n is_ m = Ok m' ->
  minv (fun p q => W p q \/ (p ∈ is_ /\ p < q < n)) m'.
Proof.
  revert W m. induction is_ as [|i is_ IH]; intros W m His Hinv Hm; simpl in Hm.
  - injection Hm as <-. eapply minv_mono; [|exact Hinv].
    intros p q [?|[Hp _]]; [done|]. by apply elem_of_nil in Hp.
  - destruct (matrix_inner _ _ _ _ _ i _ m) as [m1|e] eqn:Hi; simpl in Hm; [|discriminate].
    eapply matrix_inner_inv in Hi; [|intros j Hj; apply elem_of_seq in Hj; lia|exact Hinv].
    eapply IH in Hm; [|intros i' Hi'; apply His; right; exact Hi'|exact Hi].
    eapply minv_mono; [|exact Hm].
    intros p q [?|[Hp Hq]]; [by left; left|].
    apply elem_of_cons in Hp as [->|Hp]; [left; right; split; [done|]|by right].
    apply elem_of_seq. lia.
Qed.

Lemma matrix_inner_raise i js m e :
  matrix_inner sin_ cos_ atan2_ pow_ locs i js m = Raise e ->
  exists j, j ∈ js /\ pd i j = Raise e.
Proof.
  revert m. induction js as [|j js IH]; intros m Hm; simpl in Hm; [discriminate|].
  unfold matrix_pair in Hm. fold pd in Hm.
  destruct (pd i j) as [d|e'] eqn:Hpd; simpl in Hm.
  - destruct (IH _ Hm) as (j' & Hj' & He). exists j'. split; [by right|done].
  - injection Hm as ->. exists j. split; [left|done].
Qed.

Lemma matrix_outer_raise is_ m e :
  matrix_outer sin_ cos_ atan2_ pow_ locs n is_ m = Raise e ->
  exists i j, i ∈ is_ /\ i < j < n /\ pd i j = Raise e.
Proof.
  revert m. induction is_ as [|i is_ IH]; intros m Hm; simpl in Hm; [discriminate|].
  destruct (matrix_inner _ _ _ _ _ i _ m) as [m1|e'] eqn:Hi; simpl in Hm.
  - destruct (IH _ Hm) as (i' & j & Hi' & Hj & He). exists i', j. split; [by right|done].
  - injection Hm as ->. apply matrix_inner_raise in Hi as (j & Hj & He).
    apply elem_of_seq in Hj. exists i, j. split_and!; [left|lia|lia|done].
Qed.

(** The matrix [build_distance_matrix] starts from. *)
Lemma zero_matrix_inv k :
  square k (replicate k (replicate k 0%float)) /\
  (forall a, a < k -> lookup2 (replicate k (replicate k 0%float)) a a = Some 0%float).
Proof.
  split; [split|].
  - apply length_replicate.
  - intros row Hrow. apply elem_of_replicate in Hrow as [-> _]. apply length_replicate.
  - intros a Ha. unfold lookup2. rewrite lookup_replicate_2 by done. simpl.
    apply lookup_replicate_2. done.
Qed.

End DistanceProofs.

(** X1: [build_distance_matrix] raises [ValueError] for the first location
    without [lat] or [lng]; when every location has both, it raises exactly
    when the distance of some pair [i < j] raises; and a returned matrix is
    [n x n], zero on the diagonal, symmetric, and holds at [i][j] the
    rounded distance of the pair. *)
Theorem build_distance_matrix_structure (sin_ cos_ : float -> float)
  (atan2_ pow_ : float -> float -> float) (locs : list (gmap string float)) :
  let n := length locs in
  let build := build_distance_matrix sin_ cos_ atan2_ pow_ locs in
  let pd := pair_distance sin_ cos_ atan2_ pow_ locs in
  (forall i l, locs !! i = Some l -> ~ complete_loc l ->
     (forall j l', (j < i)%nat -> locs !! j = Some l' -> complete_loc l') ->
     build = value_error (LocationMissingLatLng i)) /\
  (Forall complete_loc locs ->
     (raises build = true <-> exists i j, (i < j < n)%nat /\ raises (pd i j) = true)) /\
  (forall m, build = Ok m ->
     square n m /\
     (forall a, (a < n)%nat -> lookup2 m a a = Some 0%float) /\
     (forall a b, lookup2 m a b = lookup2 m b a) /\
     (forall i j, (i < j < n)%nat -> exists d, pd i j = Ok d /\ lookup2 m i j = Some d)).
Proof.
  intros n build pd.
  assert (Hok : forall m, build = Ok m ->
     square n m /\
     (forall a, (a < n)%nat -> lookup2 m a a = Some 0%float) /\
     (forall a b, lookup2 m a b = lookup2 m b a) /\
     (forall i j, (i < j < n)%nat -> exists d, pd i j = Ok d /\ lookup2 m i j = Some d)).
  { intros m Hm. unfold build, build_distance_matrix in Hm. fold n in Hm.
    destruct (Nat.eqb_spec n 0) as [Hn|Hn].
    - injection Hm as <-. split_and!.
      + split; [done|]. intros row Hrow. by apply elem_of_nil in Hrow.
      + intros a Ha. lia.
      + intros a b. done.
      + intros i j Hij. lia.
    - destruct (check_locations 0 locs) as [[]|e]; simpl in Hm; [|discriminate].
      destruct (zero_matrix_inv n) as [Hsq Hdiag].
      eapply (matrix_outer_inv sin_ cos_ atan2_ pow_ locs (fun _ _ => False))
        in Hm as (Hs & Hd & Hp).
      2: { intros i Hi. apply elem_of_seq in Hi. lia. }
      2: { split_and!; [exact Hsq|exact Hdiag|done]. }
      assert (Hpair : forall i j, (i < j < n)%nat -> exists d,
                 pd i j = Ok d /\ lookup2 m i j = Some d /\ lookup2 m j i = Some d).
      { intros i j Hij. apply Hp. right. split; [apply elem_of_seq; lia|exact Hij]. }
      split_and!; [exact Hs|exact Hd| |].
      + intros a b.
        destruct (decide (a < n /\ b < n)%nat) as [[Ha Hb]|Hab].
        * destruct (lt_eq_lt_dec a b) as [[Hlt| ->]|Hlt]; [|done|].
          -- destruct (Hpair a b) as (d & _ & E1 & E2); [lia|]. congruence.
          -- destruct (Hpair b a) as (d & _ & E1 & E2); [lia|]. congruence.
        * rewrite !(square_lookup2_None n m) by (done || lia). done.
      + intros i j Hij. destruct (Hpair i j Hij) as (d & E & E1 & _). eauto. }
  split_and!; [| |exact Hok].
  - intros i l Hi Hl Hbefore. unfold build, build_distance_matrix. fold n.
    destruct (Nat.eqb_spec n 0) as [Hn|Hn].
    + apply lookup_lt_Some in Hi. lia.
    + rewrite (check_locations_first 0 locs i l Hi Hl Hbefore). done.
  - intros Hall. split.
    + intros Hr. destruct build as [m|e] eqn:Hb; [discriminate|].
      unfold build, build_distance_matrix in Hb. fold n in Hb.
      destruct (Nat.eqb_spec n 0) as [Hn|Hn]; [discriminate|].
      apply check_locations_ok with (k := 0%nat) in Hall. rewrite Hall in Hb. simpl in Hb.
      apply matrix_outer_raise in Hb as (i & j & _ & Hij & He).
      exists i, j. split; [exact Hij|]. unfold pd. rewrite He. done.
    + intros (i & j & Hij & Hr). destruct build as [m|e] eqn:Hb; [|done].
      destruct (Hok m eq_refl) as (_ & _ & _ & Hp).
      destruct (Hp i j Hij) as (d & E & _). rewrite E in Hr. discriminate.
Qed.

Lemma rbind_Ok {A B} (a : A) (k : A -> result B) : rbind (Ok a) k = k a.
Proof. reflexivity. Qed.

(** Evaluate a chain of binds from its head, rewriting with [rw] the calls
    of the C library once their arguments are computed. *)
Ltac run_binds rw :=
  repeat (
    match goal with
    | |- rbind ?m _ = _ =>
        let m' := eval vm_compute in m in change m with m'; rw;
        match goal with
        | |- rbind ?m1 _ = _ =>
          let m'' := eval vm_compute in m1 in
          lazymatch m'' with
          | Ok ?a => change m1 with (Ok a); rewrite rbind_Ok; cbv beta
          end
        end
    end).

(** C9: [build_distance_matrix] raises [ValueError("math domain error")]
    on a point and its antipode, [{"lat": 2.5, "lng": 0.0}] and
    [{"lat": -2.5, "lng": 180.0}], though both have [lat] and [lng]: with the
    C library's values at the points evaluated (those glibc gives), the
    rounded [a] of the haversine formula is [1 + 2^-52], so
    [math.sqrt(1.0 - a)] is a domain error. *)
Theorem build_distance_matrix_antipodal_raises (sin_ cos_ : float -> float)
  (atan2_ pow_ : float -> float -> float)
  (Hs1 : sin_ (-0x1.657184ae74487p-5)%float = (-0x1.65547c4694e11p-5)%float)
  (Hs2 : sin_ 0x1.921fb54442d18p+0%float = 1%float)
  (Hc1 : cos_ 0x1.657184ae74487p-5%float = 0x1.ff833f9da45f7p-1%float)
  (Hc2 : cos_ (-0x1.657184ae74487p-5)%float = 0x1.ff833f9da45f7p-1%float)
  (Hp1 : pow_ 0x1.65547c4694e11p-5%float 2%float = 0x1.f2c4be7ea5e1ep-10%float) :
  Forall complete_loc Sample.antipodal_locations /\
  build_distance_matrix sin_ cos_ atan2_ pow_ Sample.antipodal_locations
  = value_error MathDomainError.
Proof.
  split.
  - repeat constructor; unfold complete_loc; split; apply elem_of_dom; eexists;
      reflexivity.
  - assert (Hh : haversine_distance sin_ cos_ atan2_ pow_ 2.5 0 (-2.5) 180
                 = value_error MathDomainError).
    { unfold haversine_distance. cbv zeta.
      run_binds ltac:(rewrite ?Hs1, ?Hs2, ?Hc1, ?Hc2, ?Hp1).
      vm_compute. reflexivity. }
    assert (Hpd : pair_distance sin_ cos_ atan2_ pow_ Sample.antipodal_locations 0 1
                  = value_error MathDomainError).
    { unfold pair_distance. run_binds ltac:(rewrite ?Hh). rewrite Hh. reflexivity. }
    unfold build_distance_matrix. cbn -[matrix_pair].
    unfold matrix_pair. rewrite Hpd. vm_compute. reflexivity.
Qed.

Lemma build_distance_matrix_antipodal_raises_witness :
  Forall complete_loc Sample.antipodal_locations /\
  build_distance_matrix Sample.sin_table Sample.cos_table Sample.atan2_any
    Sample.pow_table Sample.antipodal_locations = value_error MathDomainError.
Proof. apply build_distance_matrix_antipodal_raises; vm_compute; reflexivity. Defined.

(** ** The evolution loop *)

Section FitnessSort.

Let fit_lt := fun c d : Chromosome => Qltb (fitness c) (fitness d).

(** The first chromosome has the least fitness of the list. *)
Definition head_min (l : list Chromosome) : Prop :=
  match l with [] => True | h :: t => forall c, c ∈ t -> fitness h <= fitness c end.

Lemma insert_by_head_min x l : head_min l -> head_min (insert_by fit_lt x l).
Proof.
  destruct l as [|y l]; simpl; [intros _ c Hc; by apply elem_of_nil in Hc|].
  intros Hy. unfold fit_lt, Qltb. destruct (Qle_bool (fitness x) (fitness y)) eqn:Hxy; simpl.
  - apply Qle_bool_iff in Hxy. intros c Hc. apply elem_of_cons in Hc as [->|Hc]; [done|].
    specialize (Hy c Hc). lra.
  - assert (fitness y < fitness x).
    { apply Qnot_le_lt. intros H. apply Qle_bool_iff in H. congruence. }
    intros c Hc. rewrite insert_by_perm in Hc. apply elem_of_cons in Hc as [->|Hc]; [lra|].
    auto.
Qed.

Lemma sort_by_fitness_head l h t :
  sort_by_fitness l = h :: t -> forall c, c ∈ l -> fitness h <= fitness c.
Proof.
  intros Hs c Hc.
  assert (Hm : head_min (sort_by_fitness l)).
  { unfold sort_by_fitness. fold fit_lt. clear Hs Hc.
    induction l as [|x l IH]; simpl; [done|]. by apply insert_by_head_min. }
  rewrite <- (sort_by_perm (fun c d => Qltb (fitness c) (fitness d)) l) in Hc.
  fold (sort_by_fitness l) in Hc. rewrite Hs in Hc. rewrite Hs in Hm. simpl in Hm.
  apply elem_of_cons in Hc as [->|Hc]; [lra|auto].
Qed.

End FitnessSort.

Lemma nonincreasing_snoc hs x y :
  nonincreasing (hs ++ [x]) -> y <= x -> nonincreasing ((hs ++ [x]) ++ [y]).
Proof.
  intros H Hy k a b Ha Hb.
  assert (Hlen : length (hs ++ [x]) = S (length hs)) by (rewrite length_app; simpl; lia).
  destruct (decide (S k < length (hs ++ [x]))%nat) as [Hk|Hk].
  - rewrite lookup_app_l in Ha by lia. rewrite lookup_app_l in Hb by lia. eauto.
  - rewrite lookup_app_r in Hb by lia. rewrite Hlen in Hb.
    destruct (S k - S (length hs))%nat eqn:E; simpl in Hb; [|by rewrite lookup_nil in Hb].
    injection Hb as <-.
    rewrite lookup_app_l in Ha by lia. rewrite lookup_app_r in Ha by lia.
    replace (k - length hs)%nat with 0%nat in Ha by lia. simpl in Ha.
    injection Ha as <-. done.
Qed.

Section EvolutionProofs.
Variables (wos : list WorkOrder) (techs : list Technician) (dm : list (list Q)).
Variables (speed : Q) (rng : Type).
Variable breed : rng -> list Chromosome -> Chromosome * Chromosome * rng.
Variables pop_size elite_size : Z.

Lemma offspring_loop_prefix fuel pop g np np' g' :
  offspring_loop wos techs dm speed rng breed pop_size fuel pop g np = Ok (np', g') ->
  exists ext, np' = np ++ ext.
Proof.
  revert g np. induction fuel as [|fuel IH]; intros g np Hl; simpl in Hl.
  - injection Hl as <- _. exists []. by rewrite app_nil_r.
  - destruct (Z.ltb _ pop_size); [|injection Hl as <- _; exists []; by rewrite app_nil_r].
    destruct (breed g pop) as [[c1 c2] g1].
    destruct (evaluated wos techs dm speed c1) as [ch1|e]; simpl in Hl; [|discriminate].
    destruct (evaluated wos techs dm speed c2) as [ch2|e]; simpl in Hl; [|discriminate].
    apply IH in Hl as [ext ->].
    destruct (Z.ltb _ pop_size).
    + exists ([ch1; ch2] ++ ext). by rewrite <- !app_assoc.
    + exists (ch1 :: ext). by rewrite <- app_assoc.
Qed.

Lemma py_prefix_head (h : Chromosome) t :
  (1 <= elite_size)%Z -> h ∈ py_prefix elite_size (h :: t).
Proof.
  intros He. unfold py_prefix.
  rewrite (proj2 (Z.leb_le 0 elite_size)) by lia.
  destruct (Z.to_nat elite_size) eqn:E; [lia|]. simpl. left.
Qed.

Lemma evolution_loop_nonincreasing gens pop g hist pop' hist' g' h t hs :
  (1 <= elite_size)%Z -> pop = h :: t -> hist = hs ++ [fitness h] ->
  nonincreasing hist ->
  evolution_loop wos techs dm speed rng breed pop_size elite_size gens pop g hist
  = Ok (pop', hist', g') ->
  nonincreasing hist'.
Proof.
  intros He. revert pop g hist h t hs.
  induction gens as [|gens IH]; intros pop g hist h t hs Hpop Hhist Hn Hl; simpl in Hl.
  - injection Hl as _ <- _. done.
  - destruct (generation_step _ _ _ _ _ _ _ _ pop g) as [[pop1 g1]|e] eqn:Hg;
      simpl in Hl; [|discriminate].
    destruct pop1 as [|b t1]; simpl in Hl; [discriminate|].
    unfold generation_step in Hg.
    destruct (offspring_loop _ _ _ _ _ _ _ _ pop g _) as [[np g2]|e] eqn:Ho;
      simpl in Hg; [|discriminate].
    injection Hg as Hs _.
    apply offspring_loop_prefix in Ho as [ext ->].
    assert (Hb : fitness b <= fitness h).
    { apply (sort_by_fitness_head _ b t1 Hs). apply elem_of_app. left.
      subst pop. by apply py_prefix_head. }
    eapply (IH (b :: t1) g1 _ b t1 hist); [done|done| |exact Hl].
    subst hist. by apply nonincreasing_snoc.
Qed.

End EvolutionProofs.

(** C10: with [elite_size >= 1], a run of the evolution loop that returns
    records a [convergence_history] in which no entry exceeds the one
    before it: the best chromosome is among the elites carried into the
    next population, so the new minimum is at most the old one.  This
    holds for every state of [random] and every way the offspring are
    drawn. *)
Theorem ga_convergence_nonincreasing (wos : list WorkOrder) (techs : list Technician)
  (dm : list (list Q)) (speed : Q) (rng : Type)
  (breed : rng -> list Chromosome -> Chromosome * Chromosome * rng)
  (pop_size elite_size generations : Z) (initial : list Chromosome) (g : rng)
  (pop : list Chromosome) (history : list Q) (g' : rng) :
  (1 <= elite_size)%Z ->
  ga_evolve wos techs dm speed rng breed pop_size elite_size generations initial g
  = Ok (pop, history, g') ->
  nonincreasing history.
Proof.
  intros He Hr. unfold ga_evolve in Hr.
  destruct (map_result _ initial) as [pop0|e]; simpl in Hr; [|discriminate].
  destruct (sort_by_fitness pop0) as [|h t] eqn:Hs; simpl in Hr; [discriminate|].
  eapply (evolution_loop_nonincreasing wos techs dm speed rng breed pop_size elite_size
            _ (h :: t) g [fitness h] pop history g' h t []); [done|done|done| |exact Hr].
  intros [|k] x y Hx Hy; simpl in *; [discriminate|by rewrite lookup_nil in Hx].
Qed.

Lemma ga_convergence_nonincreasing_witness :
  (1 <= 1)%Z /\
  ga_evolve Sample.orders_mix [Sample.tech_a] Sample.matrix_mix 30 nat
    (fun g _ => (Sample.b_first_mix, Sample.b_first_mix, S g)) 2 1 2
    [Sample.best_mix; Sample.best_mix] 0%nat
  = Ok ([set_fitness Sample.b_first_mix 506; set_fitness Sample.b_first_mix 506],
        [509; 506; 506], 2%nat) /\
  nonincreasing [509; 506; 506].
Proof.
  split; [lia|]. split; [vm_compute; reflexivity|].
  apply (ga_convergence_nonincreasing Sample.orders_mix [Sample.tech_a] Sample.matrix_mix
           30 nat (fun g _ => (Sample.b_first_mix, Sample.b_first_mix, S g)) 2 1 2
           [Sample.best_mix; Sample.best_mix] 0%nat
           [set_fitness Sample.b_first_mix 506; set_fitness Sample.b_first_mix 506] _ 2%nat);
    [lia|].
  vm_compute. reflexivity.
Defined.

(** C10, with [elite_size = 0] (allowed by the config): no chromosome is
    carried over, the one child is worse, and [convergence_history] goes
    from 506 up to 509. *)
Lemma ga_convergence_counterexample :
  ga_evolve Sample.orders_mix [Sample.tech_a] Sample.matrix_mix 30 unit
    (fun _ _ => (Sample.best_mix, Sample.best_mix, tt)) 1 0 1 [Sample.b_first_mix] tt
  = Ok ([set_fitness Sample.best_mix 509], [506; 509], tt) /\
  ~ nonincreasing [506; 509].
Proof.
  split; [vm_compute; reflexivity|].
  intros H. specialize (H 0%nat 506 509 eq_refl eq_refl). lra.
Qed.

(** ** Genetic operators: permutations and the order-crossover fill *)

Lemma insert_perm {A} (l : list A) (i : nat) (x y : A) :
  l !! i = Some x -> <[i := y]> l ≡ₚ y :: delete i l.
Proof.
  intros Hx.
  assert (Hi : (i < length l)%nat) by (eapply lookup_lt_Some; eauto).
  rewrite (delete_Permutation (<[i := y]> l) i y)
    by (apply list_lookup_insert_eq; done).
  f_equiv. rewrite !delete_take_drop.
  rewrite take_insert_ge by lia. rewrite drop_insert_lt by lia. done.
Qed.

Lemma swap_perm {A} (l : list A) (i j : nat) (xi xj : A) :
  l !! i = Some xi -> l !! j = Some xj ->
  <[j := xi]> (<[i := xj]> l) ≡ₚ l.
Proof.
  revert i j. induction l as [|a l IH]; intros i j Hi Hj; [done|].
  destruct i as [|i], j as [|j]; simpl in *.
  - injection Hi as <-. injection Hj as <-. done.
  - injection Hi as <-.
    rewrite (insert_perm l j xj a Hj). etrans; [apply perm_swap|].
    f_equiv. symmetry. by apply delete_Permutation.
  - injection Hj as <-.
    rewrite (insert_perm l i xi a Hi). etrans; [apply perm_swap|].
    f_equiv. symmetry. by apply delete_Permutation.
  - f_equiv. by apply IH.
Qed.

Lemma py_swap_perm {A} (i j : nat) (x x' : list A) :
  py_swap i j x = Ok x' -> x' ≡ₚ x /\ length x' = length x.
Proof.
  unfold py_swap.
  destruct (x !! j) as [xj|] eqn:Hj, (x !! i) as [xi|] eqn:Hi; try discriminate.
  intros H. injection H as <-. split.
  - by apply swap_perm.
  - by rewrite !length_insert.
Qed.

Lemma plug_nil (c : list (option nat)) : plug c [] = c.
Proof. induction c as [|[x|] c IH]; simpl; by rewrite ?IH. Qed.

Lemma plug_somes (xs : list nat) (d : list (option nat)) (f : list nat) :
  plug (map Some xs ++ d) f = map Some xs ++ plug d f.
Proof. induction xs as [|x xs IH]; simpl; by rewrite ?IH. Qed.

Lemma holes_somes (xs : list nat) (d : list (option nat)) :
  holes (map Some xs ++ d) = holes d.
Proof. induction xs; simpl; auto. Qed.

Lemma next_hole_split (d : list (option nat)) (pos : nat) :
  (1 <= holes d)%nat ->
  exists xs rest, d = map Some xs ++ None :: rest /\
    next_hole d pos = Ok (pos + length xs)%nat /\ holes rest = (holes d - 1)%nat.
Proof.
  revert pos. induction d as [|[x|] d IH]; intros pos Hh; simpl in Hh; [lia| |].
  - destruct (IH (S pos) Hh) as (xs & rest & -> & Hn & Hr).
    exists (x :: xs), rest. simpl. split; [done|]. split; [|done].
    rewrite Hn. f_equal. lia.
  - exists [], d. simpl. split; [done|]. split; [f_equal; lia|lia].
Qed.

Lemma ox_fill_plug (f : list nat) :
  forall (pre : list nat) (d : list (option nat)),
  (length f <= holes d)%nat ->
  ox_fill f (map Some pre ++ d) (length pre) = Ok (map Some pre ++ plug d f).
Proof.
  induction f as [|v f IH]; intros pre d Hl; simpl.
  - by rewrite plug_nil.
  - assert (Hdr : drop (length pre) (map Some pre ++ d) = d).
    { apply drop_app_length'. by rewrite length_map. }
    rewrite Hdr. simpl in Hl.
    destruct (next_hole_split d (length pre)) as (xs & rest & -> & Hn & Hr); [lia|].
    rewrite Hn. simpl.
    assert (Hins : <[(length pre + length xs)%nat := Some v]>
                     (map Some pre ++ map Some xs ++ None :: rest)
                   = map Some (pre ++ xs) ++ Some v :: rest).
    { rewrite app_assoc, <- map_app.
      replace (length pre + length xs)%nat with (length (map Some (pre ++ xs)) + 0)%nat
        by (rewrite length_map, length_app; lia).
      by rewrite insert_app_r. }
    rewrite Hins.
    replace (length pre + length xs)%nat with (length (pre ++ xs))
      by (by rewrite length_app).
    rewrite IH.
    + simpl. rewrite plug_somes, map_app, <- app_assoc. done.
    + simpl. rewrite holes_somes in Hr, Hl. simpl in Hr, Hl. lia.
Qed.

Lemma plug_replicate (s : nat) (d : list (option nat)) (f : list nat) :
  (s <= length f)%nat ->
  plug (replicate s None ++ d) f = map Some (take s f) ++ plug d (drop s f).
Proof.
  revert f. induction s as [|s IH]; intros f Hs; simpl; [done|].
  destruct f as [|v f]; simpl in Hs; [lia|]. simpl. rewrite IH by lia. done.
Qed.

Lemma holes_replicate (m : nat) (d : list (option nat)) :
  holes (replicate m None ++ d) = (m + holes d)%nat.
Proof. induction m; simpl; auto. Qed.

Lemma filter_all {A} (P : A -> Prop) `{!forall x, Decision (P x)} (l : list A) :
  (forall x, x ∈ l -> P x) -> filter P l = l.
Proof.
  induction l as [|x l IH]; intros HP; [done|].
  rewrite filter_cons_True by (apply HP; set_solver). f_equal. apply IH. set_solver.
Qed.

Lemma filter_none {A} (P : A -> Prop) `{!forall x, Decision (P x)} (l : list A) :
  (forall x, x ∈ l -> ~ P x) -> filter P l = [].
Proof.
  induction l as [|x l IH]; intros HP; [done|].
  rewrite filter_cons_False by (apply HP; set_solver). apply IH. set_solver.
Qed.

Lemma split_three {A} (l : list A) (s e1 : nat) :
  (s <= e1)%nat -> l = take s l ++ drop s (take e1 l) ++ drop e1 l.
Proof.
  intros Hs. rewrite app_assoc.
  replace (take s l) with (take s (take e1 l)) by (rewrite take_take; f_equal; lia).
  by rewrite !take_drop.
Qed.

(** The pure part of [_ox_sequence]: with cut points [s < e1 <= n]. *)
Lemma ox_core (seq1 seq2 : list nat) (s e1 : nat) :
  NoDup seq1 -> seq2 ≡ₚ seq1 -> (s < e1)%nat -> (e1 <= length seq1)%nat ->
  let kept := drop s (take e1 seq1) in
  let fill := filter (fun x => x ∉ kept) seq2 in
  ox_fill fill (take s (replicate (length seq1) None) ++ map Some kept
                ++ drop e1 (replicate (length seq1) None)) 0
    = Ok (map Some (take s fill ++ kept ++ drop s fill)) /\
  take s fill ++ kept ++ drop s fill ≡ₚ seq1 /\
  (forall k, (s <= k < e1)%nat -> (take s fill ++ kept ++ drop s fill) !! k = seq1 !! k).
Proof.
  intros Hnd Hp Hse He kept fill.
  assert (Hsplit := split_three seq1 s e1 ltac:(lia)).
  assert (Hfill1 : filter (fun x => x ∉ kept) seq1 = take s seq1 ++ drop e1 seq1).
  { rewrite Hsplit at 1. rewrite !filter_app.
    rewrite Hsplit in Hnd. apply NoDup_app in Hnd as (_ & Hd1 & Hnd2).
    apply NoDup_app in Hnd2 as (_ & Hd2 & _).
    rewrite (filter_all _ (take s seq1)) by (intros x Hx Hk; apply (Hd1 x Hx); set_solver).
    rewrite (filter_none _ kept) by (intros x Hx Hk; done).
    rewrite (filter_all _ (drop e1 seq1)) by (intros x Hx Hk; apply (Hd2 x Hk Hx)).
    done. }
  assert (Hfp : fill ≡ₚ take s seq1 ++ drop e1 seq1).
  { unfold fill. rewrite Hp. by rewrite Hfill1. }
  assert (Hlk : length kept = (e1 - s)%nat).
  { unfold kept. rewrite length_drop, length_take. lia. }
  assert (Hlf : length fill = (s + (length seq1 - e1))%nat).
  { rewrite Hfp, length_app, length_take, length_drop. lia. }
  split; [|split].
  - rewrite take_replicate, drop_replicate.
    replace (Nat.min s (length seq1)) with s by lia.
    change (ox_fill fill (map Some [] ++ (replicate s None ++ map Some kept
              ++ replicate (length seq1 - e1) None)) (length (@nil nat))
            = Ok (map Some (take s fill ++ kept ++ drop s fill))).
    rewrite ox_fill_plug.
    + simpl. rewrite plug_replicate by lia. rewrite plug_somes.
      rewrite <- (app_nil_r (replicate (length seq1 - e1) None)).
      rewrite plug_replicate by (rewrite length_drop; lia).
      simpl. rewrite app_nil_r, (take_ge (drop s fill)) by (rewrite length_drop; lia).
      by rewrite !map_app.
    + rewrite holes_replicate, holes_somes, <- (app_nil_r (replicate _ None)),
        holes_replicate. simpl. lia.
  - rewrite app_assoc, (Permutation_app_comm (take s fill)), <- app_assoc, take_drop.
    rewrite Hfp. rewrite Hsplit at 3.
    rewrite (Permutation_app_comm kept), <- app_assoc. f_equiv.
    apply Permutation_app_comm.
  - intros k Hk.
    rewrite lookup_app_r by (rewrite length_take; lia).
    rewrite length_take. replace (Nat.min s (length fill)) with s by lia.
    rewrite lookup_app_l by lia.
    unfold kept. rewrite lookup_drop, lookup_take_lt by lia. f_equal. lia.
Qed.

(** ** Genetic operators: validity of the genes they produce *)

Lemma skill_ok_lt (wos : list WorkOrder) (techs : list Technician) (v i : nat) :
  skill_ok wos techs v i = true -> (v < length techs)%nat.
Proof.
  unfold skill_ok. destruct (techs !! v) eqn:E; [|done].
  intros _. by eapply lookup_lt_Some.
Qed.

Lemma mask_at_ok (wos : list WorkOrder) (techs : list Technician) (v i : nat) :
  (v < length techs)%nat -> (i < length wos)%nat ->
  mask_at (_build_feasibility_mask wos techs) v i = Ok (skill_ok wos techs v i).
Proof.
  intros Hv Hi. unfold mask_at, py_index, _build_feasibility_mask, skill_ok.
  rewrite lookup_map_list.
  destruct (lookup_lt_is_Some_2 techs v Hv) as [tech Ht]. rewrite Ht. simpl.
  rewrite lookup_map_list.
  destruct (lookup_lt_is_Some_2 wos i Hi) as [wo Hw]. rewrite Hw. done.
Qed.

Lemma feasible_techs_ok (wos : list WorkOrder) (techs : list Technician) (i : nat)
  (vs : list nat) :
  (i < length wos)%nat -> Forall (fun v => v < length techs)%nat vs ->
  feasible_techs_of (_build_feasibility_mask wos techs) i vs
  = Ok (filter (fun v => skill_ok wos techs v i = true) vs).
Proof.
  intros Hi. induction 1 as [|v vs Hv _ IH]; [done|]. simpl.
  rewrite mask_at_ok by done. simpl. rewrite IH. simpl.
  rewrite filter_cons. by destruct (skill_ok wos techs v i).
Qed.

Lemma genes_valid_insert (wos : list WorkOrder) (techs : list Technician)
  (a : list nat) (i v : nat) :
  genes_valid wos techs a -> gene_ok wos techs i v ->
  genes_valid wos techs (<[i := v]> a).
Proof.
  intros [Hl Ha] Hg. split; [by rewrite length_insert|].
  intros k w Hk.
  apply list_lookup_insert_Some in Hk as [(-> & <- & _)|(_ & Hk)]; [done|by apply Ha].
Qed.

Lemma map_insert_list {A B} (f : A -> B) (l : list A) (i : nat) (x : A) :
  map f (<[i := x]> l) = <[i := f x]> (map f l).
Proof. revert i. induction l as [|y l IH]; intros [|i]; simpl; by rewrite ?IH. Qed.

Lemma py_swap_map {A B} (f : A -> B) (i j : nat) (x : list A) (x' : list A) :
  py_swap i j x = Ok x' -> py_swap i j (map f x) = Ok (map f x').
Proof.
  unfold py_swap. rewrite !lookup_map_list.
  destruct (x !! j), (x !! i); simpl; try discriminate.
  intros H. injection H as <-. by rewrite !map_insert_list.
Qed.

Lemma py_swap_ok {A} (i j : nat) (x : list A) :
  (i < length x)%nat -> (j < length x)%nat -> exists x', py_swap i j x = Ok x'.
Proof.
  intros Hi Hj. unfold py_swap.
  destruct (lookup_lt_is_Some_2 x j Hj) as [xj ->].
  destruct (lookup_lt_is_Some_2 x i Hi) as [xi ->]. eauto.
Qed.

Lemma min_fitness_from_spec (best : Chromosome) (l : list Chromosome) :
  (min_fitness_from best l = best \/ min_fitness_from best l ∈ l) /\
  fitness (min_fitness_from best l) <= fitness best /\
  forall d, d ∈ l -> fitness (min_fitness_from best l) <= fitness d.
Proof.
  revert best. induction l as [|c l IH]; intros best; simpl.
  - split_and!; [by left|apply Qle_refl|]. intros d Hd. set_solver.
  - destruct (Qltb (fitness c) (fitness best)) eqn:E.
    + apply Qltb_iff in E.
      destruct (IH c) as (Hm & Hc & Hd). split_and!.
      * right. destruct Hm as [->|Hm]; set_solver.
      * apply Qlt_le_weak. eapply Qle_lt_trans; eauto.
      * intros d Hd'. apply elem_of_cons in Hd' as [->|Hd']; auto.
    + apply Qltb_false in E.
      destruct (IH best) as (Hm & Hc & Hd). split_and!.
      * destruct Hm as [->|Hm]; [by left|]. right. set_solver.
      * done.
      * intros d Hd'. apply elem_of_cons in Hd' as [->|Hd']; auto.
        eapply Qle_trans; eauto.
Qed.

Lemma map_result_index (pop : list Chromosome) (ps : list nat) (cs : list Chromosome) :
  map_result (py_index pop) ps = Ok cs ->
  Forall2 (fun j c => pop !! j = Some c) ps cs.
Proof.
  revert cs. induction ps as [|j ps IH]; intros cs H; simpl in H.
  - injection H as <-. constructor.
  - unfold py_index at 1 in H. destruct (pop !! j) as [c|] eqn:Hj; [|discriminate].
    simpl in H. destruct (map_result (py_index pop) ps) as [cs'|] eqn:E; [|discriminate].
    simpl in H. injection H as <-. constructor; auto.
Qed.

Lemma map_result_index_ok (pop : list Chromosome) (ps : list nat) :
  Forall (fun j => j < length pop)%nat ps ->
  exists cs, map_result (py_index pop) ps = Ok cs.
Proof.
  induction 1 as [|j ps Hj _ [cs IH]]; simpl; [eauto|].
  unfold py_index at 1. destruct (lookup_lt_is_Some_2 pop j Hj) as [c ->]. simpl.
  rewrite IH. simpl. eauto.
Qed.

Section GeneticOperatorProofs.

Variable rng : Type.
Variable random_ : rng -> Q * rng.
Variable randbelow : rng -> nat -> nat * rng.
Variable sample_positions : rng -> nat -> Z -> result (list nat * rng).

Hypothesis randbelow_lt :
  forall (g : rng) (k : nat), (0 < k)%nat -> ((randbelow g k).1 < k)%nat.


Lemma randint_range (a b : Z) (g : rng) :
  (a <= b)%Z ->
  exists v g', randint rng randbelow a b g = Ok (v, g') /\ (a <= v <= b)%Z.
Proof.
  intros Hab. unfold randint.
  destruct (Z.ltb_spec 0 (b + 1 - a)); [|lia].
  destruct (randbelow g (Z.to_nat (b + 1 - a))) as [j g'] eqn:E.
  pose proof (randbelow_lt g (Z.to_nat (b + 1 - a)) ltac:(lia)) as Hj.
  rewrite E in Hj. simpl in Hj.
  exists (a + Z.of_nat j)%Z, g'. split; [done|lia].
Qed.

Lemma ox_sequence_ok (seq1 seq2 : list nat) (g : rng) :
  NoDup seq1 -> seq2 ≡ₚ seq1 ->
  exists l g', _ox_sequence rng randbelow seq1 seq2 g = Ok (map Some l, g') /\
    l ≡ₚ seq1 /\
    ((length seq1 <= 2)%nat -> l = seq1) /\
    ((2 < length seq1)%nat -> exists s e, (s < e < length seq1)%nat /\
       forall k, (s <= k <= e)%nat -> l !! k = seq1 !! k).
Proof.
  intros Hnd Hp. unfold _ox_sequence.
  destruct (Nat.leb_spec (length seq1) 2) as [Hn|Hn].
  - exists seq1, g. split_and!; [done|done|done|lia].
  - destruct (randint_range 0 (Z.of_nat (length seq1) - 2) g) as (st & g1 & E1 & Hst);
      [lia|].
    rewrite E1. simpl.
    destruct (randint_range (st + 1) (Z.of_nat (length seq1) - 1) g1)
      as (en & g2 & E2 & Hen); [lia|].
    rewrite E2. simpl.
    destruct (ox_core seq1 seq2 (Z.to_nat st) (Z.to_nat (en + 1)) Hnd Hp ltac:(lia) ltac:(lia))
      as (Hfill & Hperm & Hkeep).
    rewrite Hfill. simpl.
    eexists _, g2. split; [reflexivity|]. split; [exact Hperm|]. split; [lia|].
    intros _. exists (Z.to_nat st), (Z.to_nat en). split; [lia|].
    intros k Hk. apply Hkeep. lia.
Qed.


Variables (wos : list WorkOrder) (techs : list Technician).

Let mask := _build_feasibility_mask wos techs.

Lemma pick_technician_ok (i : nat) (g : rng) :
  (0 < length techs)%nat -> (i < length wos)%nat ->
  exists v g', pick_technician rng randbelow mask (length techs) i g = Ok (v, g') /\
    gene_ok wos techs i v.
Proof.
  intros HT Hi. unfold pick_technician, mask.
  rewrite feasible_techs_ok by (done || (apply Forall_forall; intros v Hv;
    apply elem_of_seq in Hv; lia)).
  simpl.
  destruct (filter (fun v => skill_ok wos techs v i = true) (seq 0 (length techs)))
    as [|x xs] eqn:Hf.
  - destruct (randint_range 0 (Z.of_nat (length techs) - 1) g)
      as (v & g' & E & Hv); [lia|].
    rewrite E. simpl. exists (Z.to_nat v), g'. split; [done|]. split; [lia|].
    intros [u Hu]. exfalso.
    assert (Hin : u ∈ filter (fun v => skill_ok wos techs v i = true) (seq 0 (length techs))).
    { apply list_elem_of_filter. split; [done|]. apply elem_of_seq.
      apply skill_ok_lt in Hu. lia. }
    rewrite Hf in Hin. set_solver.
  - unfold choice.
    destruct (randbelow g (length (x :: xs))) as [j g'] eqn:E.
    pose proof (randbelow_lt g (length (x :: xs)) ltac:(simpl; lia)) as Hj.
    rewrite E in Hj. simpl in Hj.
    unfold py_index.
    destruct (lookup_lt_is_Some_2 (x :: xs) j Hj) as [y Hy]. rewrite Hy. simpl.
    exists y, g'. split; [done|].
    assert (Hyin : y ∈ filter (fun v => skill_ok wos techs v i = true) (seq 0 (length techs))).
    { rewrite Hf. by eapply list_elem_of_lookup_2. }
    apply list_elem_of_filter in Hyin as [Hy1 Hy2]. apply elem_of_seq in Hy2.
    split; [lia|]. intros _. done.
Qed.

Lemma init_assignments_ok (wis : list nat) (g : rng) :
  (0 < length techs)%nat -> Forall (fun i => i < length wos)%nat wis ->
  exists a g', init_assignments rng randbelow mask (length techs) wis g = Ok (a, g') /\
    length a = length wis /\
    forall k i v, wis !! k = Some i -> a !! k = Some v -> gene_ok wos techs i v.
Proof.
  intros HT Hw. revert g. induction Hw as [|i wis Hi _ IH]; intros g.
  - exists [], g. split_and!; [done|done|]. intros k i v Hk. by rewrite lookup_nil in Hk.
  - simpl.
    destruct (pick_technician_ok i g HT Hi) as (v & g1 & E1 & Hv).
    rewrite E1. simpl.
    destruct (IH g1) as (a & g2 & E2 & Hl & Ha). rewrite E2. simpl.
    exists (v :: a), g2. split_and!; [done|simpl; lia|].
    intros [|k] j w Hk Hv'; simpl in *.
    + injection Hk as <-. by injection Hv' as <-.
    + by apply (Ha k).
Qed.

Lemma shuffle_down_ok {A} (i : nat) (x : list A) (g : rng) :
  (i < length x \/ i = 0)%nat ->
  exists x' g', shuffle_down rng randbelow i x g = Ok (x', g') /\ x' ≡ₚ x.
Proof.
  revert x g. induction i as [|i IH]; intros x g Hi; simpl.
  - eauto.
  - destruct (randbelow g (S (S i))) as [j g'] eqn:E.
    pose proof (randbelow_lt g (S (S i)) ltac:(lia)) as Hj.
    rewrite E in Hj. simpl in Hj.
    destruct (py_swap_ok (S i) j x ltac:(lia) ltac:(lia)) as [x1 Hs].
    rewrite Hs. simpl.
    destruct (py_swap_perm _ _ _ _ Hs) as [Hp Hl].
    destruct (IH x1 g' ltac:(lia)) as (x2 & g2 & E2 & Hp2).
    exists x2, g2. split; [done|]. by rewrite Hp2.
Qed.

Lemma shuffle_ok {A} (x : list A) (g : rng) :
  exists x' g', shuffle rng randbelow x g = Ok (x', g') /\ x' ≡ₚ x.
Proof. apply shuffle_down_ok. destruct x; simpl; lia. Qed.

Lemma init_chromosome_ok (g : rng) :
  (0 < length techs)%nat ->
  exists c g', init_chromosome rng randbelow (length wos) (length techs) mask g
    = Ok (c, g') /\ genes_ok wos techs c.
Proof.
  intros HT. unfold init_chromosome.
  destruct (init_assignments_ok (seq 0 (length wos)) g HT) as (a & g1 & E1 & Hl & Ha).
  { apply Forall_forall. intros i Hi. rewrite elem_of_seq in Hi. lia. }
  rewrite E1. simpl.
  destruct (shuffle_ok (seq 0 (length wos)) g1) as (o & g2 & E2 & Ho).
  rewrite E2. simpl.
  eexists _, g2. split; [reflexivity|].
  split; [|exists o; done].
  rewrite length_seq in Hl. split; [done|].
  intros i v Hv. apply (Ha i i v); [|done].
  apply lookup_seq. split; [done|]. rewrite <- Hl. by eapply lookup_lt_Some.
Qed.

(** X2: with at least one technician, [_initialize_population] returns
    [pop_size] chromosomes (none for [pop_size <= 0]). In each one every gene is a
    technician index, and a skill-feasible one whenever some technician is
    feasible for the order. The order sequence is a permutation of
    [range(num_orders)]. *)
Theorem initialize_population_valid (pop_size : Z) (g : rng) :
  (0 < length techs)%nat ->
  exists pop g',
    _initialize_population rng randbelow pop_size (length wos) (length techs)
      (_build_feasibility_mask wos techs) g = Ok (pop, g') /\
    length pop = Z.to_nat pop_size /\ Forall (genes_ok wos techs) pop.
Proof.
  intros HT. unfold _initialize_population. fold mask.
  generalize (Z.to_nat pop_size). intros k. revert g.
  induction k as [|k IH]; intros g; simpl.
  - exists [], g. done.
  - destruct (init_chromosome_ok g HT) as (c & g1 & E1 & Hc). rewrite E1. simpl.
    destruct (IH g1) as (cs & g2 & E2 & Hl & Hcs). rewrite E2. simpl.
    exists (c :: cs), g2. split_and!; [done|simpl; lia|by constructor].
Qed.


Hypothesis sample_ok :
  forall (g : rng) (n : nat) (k : Z), (0 <= k <= Z.of_nat n)%Z ->
  exists ps g', sample_positions g n k = Ok (ps, g') /\
    length ps = Z.to_nat k /\ Forall (fun p => p < n)%nat ps.

Hypothesis sample_bad :
  forall (g : rng) (n : nat) (k : Z), (k < 0 \/ Z.of_nat n < k)%Z ->
  exists e, sample_positions g n k = Raise (ValueError e).

Lemma xo_assign_ok (a1 a2 : list nat) (is_ : list nat) (g : rng) :
  Forall (fun i => i < length a1 /\ i < length a2)%nat is_ ->
  exists c1 c2 g', xo_assign rng random_ a1 a2 is_ g = Ok (c1, c2, g') /\
    length c1 = length is_ /\ length c2 = length is_ /\
    forall k i, is_ !! k = Some i ->
      (c1 !! k = a1 !! i /\ c2 !! k = a2 !! i) \/
      (c1 !! k = a2 !! i /\ c2 !! k = a1 !! i).
Proof.
  intros Hf. revert g. induction Hf as [|i is_ [H1 H2] _ IH]; intros g; simpl.
  - exists [], [], g. split_and!; try done. all: intros k i Hk; by rewrite lookup_nil in Hk.
  - destruct (random_ g) as [r g1].
    destruct (lookup_lt_is_Some_2 a1 i H1) as [x1 Hx1].
    destruct (lookup_lt_is_Some_2 a2 i H2) as [x2 Hx2].
    destruct (IH g1) as (c1 & c2 & g2 & E & Hl1 & Hl2 & Hc).
    unfold py_index. rewrite Hx1, Hx2.
    destruct (Qltb r (1 # 2)); simpl; rewrite E; simpl.
    + exists (x1 :: c1), (x2 :: c2), g2. split_and!; [done|simpl; lia|simpl; lia|].
      intros [|k] j Hk; simpl in Hk.
      * injection Hk as <-. left. simpl. by rewrite Hx1, Hx2.
      * simpl. by apply Hc.
    + exists (x2 :: c1), (x1 :: c2), g2. split_and!; [done|simpl; lia|simpl; lia|].
      intros [|k] j Hk; simpl in Hk.
      * injection Hk as <-. right. simpl. by rewrite Hx1, Hx2.
      * simpl. by apply Hc.
Qed.

Lemma chromo_ok_nodup (c : Chromosome) :
  chromo_ok wos techs c -> NoDup (order_sequence c).
Proof. intros [_ Hp]. rewrite Hp. apply NoDup_seq. Qed.

Lemma chromo_ok_length (c : Chromosome) :
  chromo_ok wos techs c -> length (order_sequence c) = length wos.
Proof. intros [_ Hp]. by rewrite Hp, length_seq. Qed.

Lemma order_crossover_ok (p1 p2 : Chromosome) (g : rng) :
  chromo_ok wos techs p1 -> chromo_ok wos techs p2 ->
  exists c1 c2 g', _order_crossover rng random_ randbelow p1 p2 g = Ok (c1, c2, g') /\
    genes_ok wos techs c1 /\ genes_ok wos techs c2 /\
    forall i,
      (g_assignments c1 !! i = assignments p1 !! i /\
       g_assignments c2 !! i = assignments p2 !! i) \/
      (g_assignments c1 !! i = assignments p2 !! i /\
       g_assignments c2 !! i = assignments p1 !! i).
Proof.
  intros H1 H2.
  pose proof (chromo_ok_length p1 H1) as Hn.
  destruct H1 as [[Hl1 Ha1] Hp1], H2 as [[Hl2 Ha2] Hp2].
  unfold _order_crossover. rewrite Hn.
  destruct (xo_assign_ok (assignments p1) (assignments p2) (seq 0 (length wos)) g)
    as (c1a & c2a & g1 & E1 & Hc1 & Hc2 & Hc).
  { apply Forall_forall. intros i Hi. apply elem_of_seq in Hi. lia. }
  rewrite E1. simpl.
  assert (Hnd1 : NoDup (order_sequence p1)) by (rewrite Hp1; apply NoDup_seq).
  assert (Hnd2 : NoDup (order_sequence p2)) by (rewrite Hp2; apply NoDup_seq).
  destruct (ox_sequence_ok (order_sequence p1) (order_sequence p2) g1 Hnd1
              ltac:(by rewrite Hp1, Hp2)) as (l1 & g2 & E2 & Hq1 & _ & _).
  rewrite E2. simpl.
  destruct (ox_sequence_ok (order_sequence p2) (order_sequence p1) g2 Hnd2
              ltac:(by rewrite Hp1, Hp2)) as (l2 & g3 & E3 & Hq2 & _ & _).
  rewrite E3. simpl.
  rewrite length_seq in Hc1, Hc2.
  assert (Hpos : forall i,
      (c1a !! i = assignments p1 !! i /\ c2a !! i = assignments p2 !! i) \/
      (c1a !! i = assignments p2 !! i /\ c2a !! i = assignments p1 !! i)).
  { intros i. destruct (decide (i < length wos)%nat) as [Hi|Hi].
    - apply Hc. apply lookup_seq. lia.
    - left. rewrite !lookup_ge_None_2 by lia. done. }
  eexists _, _, g3. split; [reflexivity|]. split_and!.
  - split.
    + split; [done|]. intros i v Hv. simpl in Hv.
      destruct (Hpos i) as [[E _]|[E _]]; rewrite E in Hv; [by apply Ha1|by apply Ha2].
    + exists l1. split; [done|]. by rewrite Hq1.
  - split.
    + split; [done|]. intros i v Hv. simpl in Hv.
      destruct (Hpos i) as [[_ E]|[_ E]]; rewrite E in Hv; [by apply Ha2|by apply Ha1].
    + exists l2. split; [done|]. by rewrite Hq2.
  - exact Hpos.
Qed.

Lemma mutate_assign_ok (rate : Q) (is_ : list nat) (a : list nat) (g : rng) :
  genes_valid wos techs a -> Forall (fun i => i < length wos)%nat is_ ->
  exists a' g', mutate_assign rng random_ randbelow rate (length techs) mask is_ a g
    = Ok (a', g') /\ genes_valid wos techs a'.
Proof.
  intros Hv Hf. revert a g Hv. induction Hf as [|i is_ Hi _ IH]; intros a g Hv; simpl.
  - eauto.
  - destruct (random_ g) as [r g1].
    destruct (Qltb r rate).
    + assert (HT : (0 < length techs)%nat).
      { destruct Hv as [Hl Ha].
        destruct (lookup_lt_is_Some_2 a i ltac:(lia)) as [v Hvi].
        destruct (Ha i v Hvi) as [Hv' _]. lia. }
      destruct (pick_technician_ok i g1 HT Hi) as (v & g2 & E & Hg).
      rewrite E. simpl.
      apply IH. by apply genes_valid_insert.
    + by apply IH.
Qed.

Lemma mutate_ok (c : Genes) (rate : Q) (g : rng) :
  genes_ok wos techs c ->
  exists c' g', _mutate rng random_ randbelow sample_positions c rate (length techs) mask g
    = Ok (c', g') /\ genes_ok wos techs c'.
Proof.
  intros [Hv (l & Hl & Hp)]. unfold _mutate.
  destruct (mutate_assign_ok rate (seq 0 (length (g_assignments c))) (g_assignments c) g Hv)
    as (a' & g1 & E1 & Hv').
  { apply Forall_forall. intros i Hi. apply elem_of_seq in Hi. destruct Hv. lia. }
  rewrite E1. cbn [rbind].
  assert (HlN : length l = length wos) by (by rewrite Hp, length_seq).
  destruct (Nat.leb_spec 2 (length (g_assignments c))) as [Hn|Hn].
  - destruct (random_ g1) as [x g2].
    destruct (Qltb x rate).
    + unfold sample_range.
      destruct (sample_ok g2 (length (g_assignments c)) 2 ltac:(lia))
        as (ps & g3 & E3 & Hps & Hlt).
      rewrite E3. simpl.
      destruct ps as [|i [|j [|? ?]]]; simpl in Hps; try lia.
      apply Forall_cons in Hlt as [Hi Hlt]. apply Forall_cons in Hlt as [Hj _].
      destruct Hv as [HlA _].
      destruct (py_swap_ok i j l ltac:(lia) ltac:(lia)) as [l' Hs].
      rewrite Hl, (py_swap_map Some i j l l' Hs). simpl.
      eexists _, g3. split; [reflexivity|]. split; [done|].
      exists l'. split; [done|]. destruct (py_swap_perm i j l l' Hs) as [Hq _].
      by rewrite Hq.
    + eexists _, g2. split; [reflexivity|]. split; [done|]. by exists l.
  - eexists _, g1. split; [reflexivity|]. split; [done|]. by exists l.
Qed.

Lemma tournament_select_spec (pop : list Chromosome) (ts : Z) (g g' : rng)
  (c : Chromosome) :
  _tournament_select rng sample_positions pop ts g = Ok (c, g') ->
  exists ps, sample_positions g (length pop) (Z.min ts (Z.of_nat (length pop)))
               = Ok (ps, g') /\
    (exists j, j ∈ ps /\ pop !! j = Some c) /\
    forall j d, j ∈ ps -> pop !! j = Some d -> fitness c <= fitness d.
Proof.
  clear - sample_positions. unfold _tournament_select.
  destruct (sample_positions g (length pop) (Z.min ts (Z.of_nat (length pop))))
    as [[ps g1]|e] eqn:E; simpl; [|discriminate].
  destruct (map_result (py_index pop) ps) as [cs|e] eqn:Ecs; simpl; [|discriminate].
  apply map_result_index in Ecs.
  destruct cs as [|c0 cs]; simpl; [discriminate|].
  intros H. injection H as <- <-.
  exists ps. split; [done|].
  destruct (min_fitness_from_spec c0 cs) as (Hm & H0 & Hd).
  assert (Hall : forall d, d ∈ c0 :: cs -> exists j, j ∈ ps /\ pop !! j = Some d).
  { intros d Hdin. apply list_elem_of_lookup_1 in Hdin as [k Hk].
    destruct (Forall2_lookup_r _ _ _ k d Ecs Hk) as (j & Hj & Hjd).
    exists j. split; [by eapply list_elem_of_lookup_2|done]. }
  split.
  - apply Hall. destruct Hm as [->|Hm]; set_solver.
  - intros j d Hj Hjd.
    apply list_elem_of_lookup_1 in Hj as [k Hk].
    destruct (Forall2_lookup_l _ _ _ k j Ecs Hk) as (d' & Hd' & Hjd').
    rewrite Hjd in Hjd'. injection Hjd' as <-.
    destruct k as [|k]; simpl in Hd'.
    + injection Hd' as <-. done.
    + apply Hd. by eapply list_elem_of_lookup_2.
Qed.

Lemma tournament_select_ok (pop : list Chromosome) (ts : Z) (g : rng) :
  pop <> [] -> (1 <= ts)%Z ->
  exists c g', _tournament_select rng sample_positions pop ts g = Ok (c, g') /\ c ∈ pop.
Proof.
  intros Hne Hts.
  assert (Hn : (0 < length pop)%nat) by (destruct pop; [done|simpl; lia]).
  destruct (sample_ok g (length pop) (Z.min ts (Z.of_nat (length pop))) ltac:(lia))
    as (ps & g1 & E & Hl & Hlt).
  destruct (map_result_index_ok pop ps Hlt) as [cs Ecs].
  pose proof (map_result_index _ _ _ Ecs) as Hf2.
  destruct cs as [|c0 cs].
  { apply Forall2_length in Hf2. simpl in Hf2. lia. }
  assert (Ht : _tournament_select rng sample_positions pop ts g
               = Ok (min_fitness_from c0 cs, g1)).
  { unfold _tournament_select. rewrite E. simpl. rewrite Ecs. done. }
  exists (min_fitness_from c0 cs), g1. split; [done|].
  destruct (tournament_select_spec pop ts g g1 _ Ht) as (ps' & _ & (j & _ & Hj) & _).
  by eapply list_elem_of_lookup_2.
Qed.

Lemma breed_round_ok (pop : list Chromosome) (ts : Z) (rate : Q) (g : rng) :
  pop <> [] -> Forall (chromo_ok wos techs) pop -> (1 <= ts)%Z ->
  exists c1 c2 g',
    breed_round rng random_ randbelow sample_positions pop ts rate (length techs) mask g
      = Ok (c1, c2, g') /\ genes_ok wos techs c1 /\ genes_ok wos techs c2.
Proof.
  intros Hne Hall Hts. unfold breed_round.
  rewrite Forall_forall in Hall.
  destruct (tournament_select_ok pop ts g Hne Hts) as (p1 & g1 & E1 & H1).
  rewrite E1. cbn [rbind].
  destruct (tournament_select_ok pop ts g1 Hne Hts) as (p2 & g2 & E2 & H2).
  rewrite E2. cbn [rbind].
  destruct (order_crossover_ok p1 p2 g2 (Hall p1 H1) (Hall p2 H2))
    as (c1 & c2 & g3 & E3 & Hc1 & Hc2 & _).
  rewrite E3. cbn [rbind].
  destruct (mutate_ok c1 rate g3 Hc1) as (c1' & g4 & E4 & Hc1').
  rewrite E4. cbn [rbind].
  destruct (mutate_ok c2 rate g4 Hc2) as (c2' & g5 & E5 & Hc2').
  rewrite E5. cbn [rbind].
  exists c1', c2', g5. split_and!; [reflexivity|done|done].
Qed.

(** X5: [_tournament_select] with [tournament_size <= 0] raises
    [ValueError]: [random.sample] raises for a negative size, and [min] of
    the empty sample raises for size 0. *)
Theorem tournament_select_nonpositive_raises (pop : list Chromosome) (ts : Z) (g : rng) :
  (ts <= 0)%Z ->
  exists e, _tournament_select rng sample_positions pop ts g = Raise (ValueError e).
Proof.
  intros Hts. unfold _tournament_select.
  destruct (Z.eq_dec ts 0%Z) as [->|Hne].
  - replace (Z.min 0 (Z.of_nat (length pop))) with 0%Z by lia.
    destruct (sample_ok g (length pop) 0 ltac:(lia)) as (ps & g1 & E & Hl & _).
    rewrite E. cbn [rbind].
    destruct ps; [|simpl in Hl; lia]. simpl. eauto.
  - destruct (sample_bad g (length pop) (Z.min ts (Z.of_nat (length pop)))
                ltac:(lia)) as [e E].
    rewrite E. simpl. eauto.
Qed.

(** X3: with no technicians, and at least one individual and one order,
    [_initialize_population] raises [ValueError] ([random.randint(0, -1)]:
    empty range). *)
Theorem initialize_population_no_technicians (pop_size : Z) (num_orders : nat)
  (feasible : list (list bool)) (g : rng) :
  (1 <= pop_size)%Z -> (1 <= num_orders)%nat ->
  _initialize_population rng randbelow pop_size num_orders 0 feasible g
  = Raise (ValueError EmptyRange).
Proof.
  intros Hp Hn. unfold _initialize_population.
  replace (Z.to_nat pop_size) with (S (Z.to_nat pop_size - 1)) by lia.
  destruct num_orders as [|n]; [lia|]. reflexivity.
Qed.

(** X4: a tournament winner is one of the competitors [random.sample]
    drew (by position), and its fitness is no more than any of theirs. *)
Theorem tournament_select_winner (pop : list Chromosome) (ts : Z) (g g' : rng)
  (c : Chromosome) :
  _tournament_select rng sample_positions pop ts g = Ok (c, g') ->
  exists ps, sample_positions g (length pop) (Z.min ts (Z.of_nat (length pop)))
               = Ok (ps, g') /\
    (exists j, j ∈ ps /\ pop !! j = Some c) /\
    forall j d, j ∈ ps -> pop !! j = Some d -> fitness c <= fitness d.
Proof. apply tournament_select_spec. Qed.

(** X6: for [seq1] without repeats and [seq2] a permutation of it,
    [_ox_sequence] never raises and leaves no position [None].
    The child is a permutation of [seq1]: [seq1] itself when it has at most
    two entries, and otherwise equal to [seq1] on a slice [start..end]
    with [start < end]. *)
Theorem ox_sequence_permutation (seq1 seq2 : list nat) (g : rng) :
  NoDup seq1 -> seq2 ≡ₚ seq1 ->
  exists l g', _ox_sequence rng randbelow seq1 seq2 g = Ok (map Some l, g') /\
    l ≡ₚ seq1 /\
    ((length seq1 <= 2)%nat -> l = seq1) /\
    ((2 < length seq1)%nat -> exists s e, (s < e < length seq1)%nat /\
       forall k, (s <= k <= e)%nat -> l !! k = seq1 !! k).
Proof. apply ox_sequence_ok. Qed.

(** X7: [_order_crossover] of two valid parents never raises. Both children
    have valid genes and an order sequence that is a permutation of
    [range(N)], and at each position the children's genes are the parents'
    genes, kept or swapped. *)
Theorem order_crossover_valid (p1 p2 : Chromosome) (g : rng) :
  chromo_ok wos techs p1 -> chromo_ok wos techs p2 ->
  exists c1 c2 g', _order_crossover rng random_ randbelow p1 p2 g = Ok (c1, c2, g') /\
    genes_ok wos techs c1 /\ genes_ok wos techs c2 /\
    forall i,
      (g_assignments c1 !! i = assignments p1 !! i /\
       g_assignments c2 !! i = assignments p2 !! i) \/
      (g_assignments c1 !! i = assignments p2 !! i /\
       g_assignments c2 !! i = assignments p1 !! i).
Proof. apply order_crossover_ok. Qed.

(** X8: [_mutate] with the feasibility mask keeps genes valid. A reassigned
    gene is again a feasible technician when one exists, and the swap keeps
    the order sequence a permutation of [range(N)]. *)
Theorem mutate_valid (c : Genes) (rate : Q) (g : rng) :
  genes_ok wos techs c ->
  exists c' g', _mutate rng random_ randbelow sample_positions c rate (length techs) mask g
    = Ok (c', g') /\ genes_ok wos techs c'.
Proof. apply mutate_ok. Qed.

(** X9: one round of the offspring loop of [_solve_impl] (two tournaments,
    crossover, two mutations) on a non-empty population of valid
    chromosomes, with [tournament_size >= 1], never raises and gives two
    children with valid genes. *)
Theorem breed_round_valid (pop : list Chromosome) (ts : Z) (rate : Q) (g : rng) :
  pop <> [] -> Forall (chromo_ok wos techs) pop -> (1 <= ts)%Z ->
  exists c1 c2 g',
    breed_round rng random_ randbelow sample_positions pop ts rate (length techs) mask g
      = Ok (c1, c2, g') /\ genes_ok wos techs c1 /\ genes_ok wos techs c2.
Proof. apply breed_round_ok. Qed.

End GeneticOperatorProofs.

Lemma group_orders_filter (as_ : list nat) (T : nat) (sq : list nat) :
  forall (pre : list nat) (tos0 : list (list nat)),
  length tos0 = T ->
  (forall v, (v < T)%nat -> tos0 !! v = Some (filter (fun i => as_ !! i = Some v) pre)) ->
  Forall (fun i => exists v, as_ !! i = Some v /\ (v < T)%nat) sq ->
  exists tos, group_orders as_ tos0 sq = Ok tos /\ length tos = T /\
    forall v, (v < T)%nat ->
      tos !! v = Some (filter (fun i => as_ !! i = Some v) (pre ++ sq)).
Proof.
  induction sq as [|i sq IH]; intros pre tos0 Hl Hv Hf; simpl.
  - exists tos0. rewrite app_nil_r. done.
  - apply Forall_cons in Hf as [(v0 & Hi & Hv0) Hf].
    rewrite Hi. destruct (Nat.ltb_spec v0 (length tos0)); [|lia].
    destruct (IH (pre ++ [i]) (alter (fun l => l ++ [i]) v0 tos0)) as (tos & E & Hl' & Ht).
    + by rewrite length_alter.
    + intros v Hv'. rewrite filter_app.
      destruct (decide (v = v0)) as [->|Hne].
      * rewrite list_lookup_alter, Hv by done. simpl.
        rewrite filter_cons_True by done. by rewrite decide_True, filter_nil.
      * rewrite list_lookup_alter_ne by done. rewrite Hv by done.
        rewrite filter_cons_False by (rewrite Hi; congruence). by rewrite filter_nil, app_nil_r.
    + done.
    + exists tos. split_and!; [done|done|]. intros v Hv'. rewrite Ht by done.
      by rewrite <- app_assoc.
Qed.

(** X10: for a chromosome whose genes are valid and whose order sequence is
    a permutation of [range(N)], the grouping of [_evaluate_fitness] and
    [_decode_solution] never raises. It gives one list per technician, the
    lists together are a permutation of [range(N)], list [v] holds the
    orders assigned to [v] in sequence order, and every order in list [v]
    has a valid gene [v]. *)
Theorem tech_orders_partition (wos : list WorkOrder) (techs : list Technician)
  (c : Chromosome) :
  chromo_ok wos techs c ->
  exists tos, tech_orders_of techs c = Ok tos /\
    length tos = length techs /\
    concat tos ≡ₚ seq 0 (length wos) /\
    (forall v, (v < length techs)%nat ->
       tos !! v = Some (filter (fun i => assignments c !! i = Some v) (order_sequence c))) /\
    (forall v ws i, tos !! v = Some ws -> i ∈ ws -> gene_ok wos techs i v).
Proof.
  intros [[Hl Ha] Hp]. unfold tech_orders_of.
  destruct (group_orders_filter (assignments c) (length techs) (order_sequence c) []
              (replicate (length techs) []))
    as (tos & E & Hlt & Ht).
  - apply length_replicate.
  - intros v Hv. by rewrite lookup_replicate_2.
  - apply Forall_forall. intros i Hi. rewrite Hp, elem_of_seq in Hi.
    destruct (lookup_lt_is_Some_2 (assignments c) i ltac:(lia)) as [v Hv].
    exists v. split; [done|]. by destruct (Ha i v Hv).
  - exists tos. split_and!; [done|done| | |].
    + rewrite (group_orders_perm _ _ _ _ E), concat_replicate_nil. simpl. done.
    + intros v Hv. rewrite Ht by done. done.
    + intros v ws i Hws Hi.
      assert (Hv : (v < length techs)%nat) by (rewrite <- Hlt; by eapply lookup_lt_Some).
      rewrite Ht in Hws by done. injection Hws as <-.
      apply list_elem_of_filter in Hi as [Hi _]. by apply Ha.
Qed.

(** X11: [build_duration_matrix] raises [ValueError] for a speed [<= 0].
    Otherwise it keeps the shape of the distance matrix, and entry [i][j] is
    [round(d / speed * 60.0, 2)] of distance [d], computed in binary64: the
    value [estimate_travel_time] gives for [d >= 0]. *)
Theorem build_duration_matrix_spec (dm : list (list float)) (speed : float) :
  ((speed <=? 0)%float = true ->
     build_duration_matrix dm speed = value_error (NonPositiveAvgSpeed speed)) /\
  ((speed <=? 0)%float = false -> exists m, build_duration_matrix dm speed = Ok m /\
     length m = length dm /\
     (forall i row, dm !! i = Some row ->
        exists row', m !! i = Some row' /\ length row' = length row) /\
     (forall i j d, lookup2 dm i j = Some d ->
        lookup2 m i j = Some (round2f ((d / speed) * 60)%float) /\
        ((d <? 0)%float = false ->
           estimate_travel_time d speed = Ok (round2f ((d / speed) * 60)%float)))).
Proof.
  unfold build_duration_matrix. split.
  - intros E. by rewrite E.
  - intros E. rewrite E.
    eexists. split; [reflexivity|]. split_and!.
    + apply length_map.
    + intros i row Hr. rewrite lookup_map_list, Hr. simpl.
      eexists. split; [reflexivity|]. apply length_map.
    + intros i j d Hd. unfold lookup2 in *.
      rewrite lookup_map_list. destruct (dm !! i) as [row|]; simpl in *; [|discriminate].
      rewrite lookup_map_list, Hd. simpl. split; [done|].
      intros E1. unfold estimate_travel_time. by rewrite E1, E.
Qed.

Lemma ascii_lower_idem (c : Ascii.ascii) : ascii_lower (ascii_lower c) = ascii_lower c.
Proof.
  destruct c as [[] [] [] [] [] [] [] []]; reflexivity.
Qed.

Lemma str_lower_idem (s : string) : str_lower (str_lower s) = str_lower s.
Proof. induction s as [|c s IH]; simpl; [done|]. by rewrite ascii_lower_idem, IH. Qed.

(** X12: [_get_priority_value] ignores case: a lowered label gets the same
    value as the label itself. *)
Theorem priority_value_case_insensitive (p : string) :
  _get_priority_value (str_lower p) = _get_priority_value p.
Proof. unfold _get_priority_value. by rewrite str_lower_idem. Qed.

(** ** [validate_route] *)

Lemma add_stop_minutes_some wm cm s wo : wm !! stop_key s = Some wo ->
  add_stop_minutes wm cm s =
  (cm + (Q_to_float (wo_duration_minutes wo) + default 0%float (sr_travel_duration s)))%float.
Proof. unfold add_stop_minutes. by intros ->. Qed.

Lemma add_stop_minutes_none wm cm s : wm !! stop_key s = None -> add_stop_minutes wm cm s = cm.
Proof. unfold add_stop_minutes. by intros ->. Qed.

Lemma validate_stops_sound (tech : Technician) (wm : gmap string WorkOrder)
  (route : list StopRecord) :
  forall idx vs cm vs' cm',
  validate_stops tech wm idx route vs cm = Ok (vs', cm') ->
  (vs' = [] <-> vs = [] /\ Forall (stop_valid tech wm) route) /\
  cm' = fold_left (add_stop_minutes wm) route cm.
Proof.
  induction route as [|s route IH]; intros idx vs cm vs' cm' H; simpl in H.
  - injection H as <- <-. simpl. split; [|reflexivity].
    split; [intros ->; split; [done|constructor]|by intros [-> _]].
  - fold (stop_key s) in H. cbn [fold_left].
    destruct (wm !! stop_key s) as [wo|] eqn:Hwo.
    + destruct (sr_arrival_time s) as [a|] eqn:Ha.
      * unfold check_time_window in H.
        destruct (Qltb (wo_time_window_end wo) (wo_time_window_start wo)) eqn:Hw;
          simpl in H; [discriminate|].
        apply IH in H as [Hiff Hcm]. split; [|rewrite Hcm; first [rewrite (add_stop_minutes_some _ _ _ _ Hwo) | rewrite (add_stop_minutes_none _ _ _ Hwo)]; reflexivity].
        rewrite Hiff. rewrite Forall_cons.
        split.
        -- intros [Hnil Hall].
           apply app_eq_nil in Hnil as [-> Hnil].
           apply app_eq_nil in Hnil as [Hsk Hnil].
           apply app_eq_nil in Hnil as [Hwin Hnil].
           apply app_eq_nil in Hnil as [Hst Hen].
           split; [done|]. split; [|done].
           exists wo. split; [done|]. split.
           { destruct (check_skill_match _ _); [done|discriminate]. }
           split.
           { intros a' Ha'. rewrite Ha in Ha'. injection Ha' as <-.
             destruct (Qleb (wo_time_window_start wo) a && Qleb a (wo_time_window_end wo))%bool eqn:Hb;
               [|discriminate].
             apply andb_true_iff in Hb as [Hb1 Hb2].
             apply Qleb_iff in Hb1, Hb2.
             destruct (Qltb a (tech_shift_start tech)) eqn:Hs; [discriminate|].
             apply Qltb_false in Hs. done. }
           { intros d Hd. rewrite Hd in Hen.
             destruct (Qltb (tech_shift_end tech) d) eqn:He; [discriminate|].
             by apply Qltb_false in He. }
        -- intros [-> [(wo' & Hwo' & Hsk & Harr & Hdep) Hall]].
           rewrite Hwo in Hwo'. injection Hwo' as <-.
           split; [|done].
           destruct (Harr a Ha) as [[H1 H2] H3].
           rewrite Hsk.
           assert (E1 : Qleb (wo_time_window_start wo) a = true) by (by apply Qleb_iff).
           assert (E2 : Qleb a (wo_time_window_end wo) = true) by (by apply Qleb_iff).
           assert (E3 : Qltb a (tech_shift_start tech) = false) by (by apply Qltb_false).
           rewrite E1, E2, E3. simpl.
           destruct (sr_departure_time s) as [d|] eqn:Hd; [|done].
           assert (E4 : Qltb (tech_shift_end tech) d = false)
             by (apply Qltb_false; by apply Hdep).
           by rewrite E4.
      * simpl in H. apply IH in H as [Hiff Hcm]. split; [|rewrite Hcm; first [rewrite (add_stop_minutes_some _ _ _ _ Hwo) | rewrite (add_stop_minutes_none _ _ _ Hwo)]; reflexivity].
        rewrite Hiff, Forall_cons. split.
        -- intros [Hnil Hall].
           apply app_eq_nil in Hnil as [-> Hnil].
           apply app_eq_nil in Hnil as [Hsk Hen].
           split; [done|]. split; [|done].
           exists wo. split; [done|]. split.
           { destruct (check_skill_match _ _); [done|discriminate]. }
           split; [intros a' Ha'; rewrite Ha in Ha'; discriminate|].
           intros d Hd. rewrite Hd in Hen.
           destruct (Qltb (tech_shift_end tech) d) eqn:He; [discriminate|].
           by apply Qltb_false in He.
        -- intros [-> [(wo' & Hwo' & Hsk & _ & Hdep) Hall]].
           rewrite Hwo in Hwo'. injection Hwo' as <-.
           split; [|done]. rewrite Hsk. simpl.
           destruct (sr_departure_time s) as [d|] eqn:Hd; [|done].
           assert (E4 : Qltb (tech_shift_end tech) d = false)
             by (apply Qltb_false; by apply Hdep).
           by rewrite E4.
    + apply IH in H as [Hiff Hcm]. split; [|rewrite Hcm; first [rewrite (add_stop_minutes_some _ _ _ _ Hwo) | rewrite (add_stop_minutes_none _ _ _ Hwo)]; reflexivity].
      rewrite Hiff, Forall_cons. split.
      * intros [Hnil _]. exfalso. apply app_eq_nil in Hnil as [_ Hnil]. discriminate.
      * intros [_ [(wo' & Hwo' & _) _]]. rewrite Hwo in Hwo'. discriminate.
Qed.

Lemma validate_stops_raise (tech : Technician) (wm : gmap string WorkOrder)
  (route : list StopRecord) :
  forall idx vs cm,
  (exists e, validate_stops tech wm idx route vs cm = Raise e) <->
  Exists (window_inverted wm) route.
Proof.
  induction route as [|s route IH]; intros idx vs cm; simpl.
  - split; [intros [e He]; discriminate|intros Hx; inversion Hx].
  - fold (stop_key s). rewrite Exists_cons.
    destruct (wm !! stop_key s) as [wo|] eqn:Hwo.
    + destruct (sr_arrival_time s) as [a|] eqn:Ha.
      * unfold check_time_window.
        destruct (Qltb (wo_time_window_end wo) (wo_time_window_start wo)) eqn:Hw; simpl.
        -- split; [intros _; left|intros _; eexists; reflexivity].
           exists wo, a. split_and!; [done|done|]. by apply Qltb_iff.
        -- rewrite IH. split; [by right|].
           intros [(wo' & a' & Hwo' & _ & Hlt)|Hx]; [|done].
           rewrite Hwo in Hwo'. injection Hwo' as <-.
           apply Qltb_false in Hw. exfalso. apply (Qlt_not_le _ _ Hlt Hw).
      * simpl. rewrite IH. split; [by right|].
        intros [(wo' & a' & _ & Ha' & _)|Hx]; [|done]. congruence.
    + rewrite IH. split; [by right|].
      intros [(wo' & a' & Hwo' & _)|Hx]; [|done]. congruence.
Qed.

Lemma stop_valid_not_inverted tech wm s :
  stop_valid tech wm s -> ~ window_inverted wm s.
Proof.
  intros (wo & Hwo & _ & Harr & _) (wo' & a & Hwo' & Ha & Hlt).
  rewrite Hwo in Hwo'. injection Hwo' as <-.
  destruct (Harr a Ha) as [[H1 H2] _].
  apply (Qlt_not_le _ _ Hlt). by apply Qle_trans with a.
Qed.

(** X13: [validate_route] returns no violation exactly when every stop's
    work order exists, the technician has its skills, an arrival lies in
    its window and after the shift start, a departure is before the shift
    end, and the stops' minutes, summed in binary64 in route order (a stop
    adding [duration_minutes + travel_duration]) and divided by [60.0],
    are not greater than [max_hours]. *)
Theorem validate_route_no_violations (route : list StopRecord) (technician : Technician)
  (work_orders : gmap string WorkOrder) :
  validate_route route technician work_orders = Ok [] <->
  Forall (stop_valid technician work_orders) route /\
  float_gtb (fold_left (add_stop_minutes work_orders) route 0%float / 60)%float
    (tech_max_hours technician) = false.
Proof.
  unfold validate_route.
  destruct (validate_stops technician work_orders 0 route [] 0%float) as [[vs cm]|e] eqn:Hv;
    simpl.
  - destruct (validate_stops_sound _ _ _ _ _ _ _ _ Hv) as [Hiff ->].
    destruct (float_gtb _ (tech_max_hours technician)) eqn:Hq.
    + split.
      * intros Heq. injection Heq as Heq. exfalso.
        destruct vs; discriminate.
      * intros [_ Hf]. discriminate.
    + split.
      * intros Heq. injection Heq as ->.
        split; [by apply Hiff|done].
      * intros [Hall _]. f_equal. by apply Hiff.
  - split; [discriminate|].
    intros [Hall _]. exfalso.
    assert (Hx : exists e', validate_stops technician work_orders 0 route [] 0%float = Raise e')
      by (exists e; exact Hv).
    apply validate_stops_raise in Hx.
    apply Exists_exists in Hx as (s & Hs & Hinv).
    rewrite Forall_forall in Hall.
    exact (stop_valid_not_inverted _ _ _ (Hall s Hs) Hinv).
Qed.

(** X14: [validate_route] raises exactly when some stop with an existing
    work order and a set arrival has a window whose end is before its start
    ([check_time_window]'s [ValueError]). Every other input returns a list. *)
Theorem validate_route_raises_iff (route : list StopRecord) (technician : Technician)
  (work_orders : gmap string WorkOrder) :
  (exists e, validate_route route technician work_orders = Raise e) <->
  Exists (window_inverted work_orders) route.
Proof.
  rewrite <- (validate_stops_raise technician work_orders route 0 [] 0%float).
  unfold validate_route.
  destruct (validate_stops technician work_orders 0 route [] 0%float) as [[vs cm]|e] eqn:Hv;
    simpl.
  - split; intros [e He]; discriminate.
  - split; intros _; by exists e.
Qed.

(** ** Sample runs of the genetic operators and the grouping *)

Lemma gene_okb_ok (wos : list WorkOrder) (techs : list Technician) (i v : nat) :
  gene_okb wos techs i v = true -> gene_ok wos techs i v.
Proof.
  unfold gene_okb. intros [Hv Hs]%andb_true_iff.
  apply Nat.ltb_lt in Hv. split; [done|].
  intros [u Hu]. apply orb_true_iff in Hs as [Hn|Hs]; [|done].
  apply negb_true_iff in Hn.
  assert (Hex : existsb (fun u => skill_ok wos techs u i) (seq 0 (length techs)) = true).
  { apply existsb_exists. exists u. split; [|done].
    apply in_seq. pose proof (skill_ok_lt wos techs u i Hu). lia. }
  congruence.
Qed.

Lemma genes_validb_ok (wos : list WorkOrder) (techs : list Technician) (a : list nat) :
  genes_validb wos techs a = true -> genes_valid wos techs a.
Proof.
  unfold genes_validb. intros [Hl Hall]%andb_true_iff.
  apply Nat.eqb_eq in Hl. split; [done|].
  intros i v Hi. rewrite forallb_forall in Hall.
  assert (Hin : In i (seq 0 (length a))).
  { apply in_seq. pose proof (lookup_lt_Some _ _ _ Hi). lia. }
  specialize (Hall i Hin). rewrite Hi in Hall. by apply gene_okb_ok.
Qed.

Lemma counter_randbelow_lt (g k : nat) :
  (0 < k)%nat -> ((CounterRng.randbelow g k).1 < k)%nat.
Proof. intros Hk. simpl. apply Nat.mod_upper_bound. lia. Qed.

Lemma counter_sample_ok (g n : nat) (k : Z) :
  (0 <= k <= Z.of_nat n)%Z ->
  exists ps g', CounterRng.sample_positions g n k = Ok (ps, g') /\
    length ps = Z.to_nat k /\ Forall (fun p => p < n)%nat ps.
Proof.
  intros Hk. unfold CounterRng.sample_positions.
  destruct (Z.leb_spec 0 k); [|lia]. destruct (Z.leb_spec k (Z.of_nat n)); [|lia].
  simpl. eexists _, _. split; [reflexivity|]. split; [apply length_seq|].
  apply Forall_forall. intros p Hp. apply elem_of_seq in Hp. lia.
Qed.

Lemma counter_sample_bad (g n : nat) (k : Z) :
  (k < 0 \/ Z.of_nat n < k)%Z ->
  exists e, CounterRng.sample_positions g n k = Raise (ValueError e).
Proof.
  intros Hk. unfold CounterRng.sample_positions.
  destruct (Z.leb_spec 0 k), (Z.leb_spec k (Z.of_nat n)); try lia; simpl; eauto.
Qed.

Lemma initialize_population_valid_witness :
  (0 < length [Sample.tech_a])%nat /\
  exists pop g',
    _initialize_population nat CounterRng.randbelow 2 (length Sample.orders_mix)
      (length [Sample.tech_a]) (_build_feasibility_mask Sample.orders_mix [Sample.tech_a]) 0%nat
    = Ok (pop, g') /\
    length pop = Z.to_nat 2 /\ Forall (genes_ok Sample.orders_mix [Sample.tech_a]) pop.
Proof.
  split; [simpl; lia|].
  apply (initialize_population_valid nat CounterRng.randbelow counter_randbelow_lt
           Sample.orders_mix [Sample.tech_a] 2 0%nat).
  simpl. lia.
Defined.

Lemma initialize_population_no_technicians_witness :
  (1 <= 2)%Z /\ (1 <= 3)%nat /\
  _initialize_population nat CounterRng.randbelow 2 3 0 [] 0%nat = Raise (ValueError EmptyRange).
Proof.
  split; [lia|]. split; [lia|].
  apply (initialize_population_no_technicians nat CounterRng.randbelow 2 3 [] 0%nat); lia.
Defined.

Lemma tournament_select_winner_witness :
  _tournament_select nat CounterRng.sample_positions sample_population 2 0%nat
    = Ok (set_fitness Sample.b_first_mix 506, 1%nat) /\
  exists ps, CounterRng.sample_positions 0%nat (length sample_population) (Z.min 2 (Z.of_nat (length sample_population)))
               = Ok (ps, 1%nat) /\
    (exists j, j ∈ ps /\ sample_population !! j = Some (set_fitness Sample.b_first_mix 506)) /\
    forall j d, j ∈ ps -> sample_population !! j = Some d ->
      fitness (set_fitness Sample.b_first_mix 506) <= fitness d.
Proof.
  split; [vm_compute; reflexivity|].
  apply (tournament_select_winner nat CounterRng.sample_positions sample_population 2 0%nat 1%nat).
  vm_compute. reflexivity.
Defined.

Lemma tournament_select_nonpositive_raises_witness :
  (0 <= 0)%Z /\
  exists e, _tournament_select nat CounterRng.sample_positions sample_population 0 0%nat = Raise (ValueError e).
Proof.
  split; [lia|].
  apply (tournament_select_nonpositive_raises nat CounterRng.sample_positions
           counter_sample_ok counter_sample_bad sample_population 0 0%nat).
  lia.
Defined.

Lemma ox_sequence_permutation_witness :
  NoDup [0; 1; 2; 3]%nat /\ [3; 2; 1; 0]%nat ≡ₚ [0; 1; 2; 3]%nat /\
  exists l g', _ox_sequence nat CounterRng.randbelow [0; 1; 2; 3]%nat [3; 2; 1; 0]%nat 5%nat
      = Ok (map Some l, g') /\
    l ≡ₚ [0; 1; 2; 3]%nat /\
    ((length [0; 1; 2; 3]%nat <= 2)%nat -> l = [0; 1; 2; 3]%nat) /\
    ((2 < length [0; 1; 2; 3]%nat)%nat -> exists s e, (s < e < length [0; 1; 2; 3]%nat)%nat /\
       forall k, (s <= k <= e)%nat -> l !! k = [0; 1; 2; 3]%nat !! k).
Proof.
  split; [apply (bool_decide_unpack _); vm_compute; reflexivity|]. split; [apply (bool_decide_unpack _); vm_compute; reflexivity|].
  apply (ox_sequence_permutation nat CounterRng.randbelow counter_randbelow_lt);
    apply (bool_decide_unpack _); vm_compute; reflexivity.
Defined.

Lemma order_crossover_valid_witness :
  chromo_ok Sample.orders_mix [Sample.tech_a] Sample.best_mix /\
  chromo_ok Sample.orders_mix [Sample.tech_a] Sample.b_first_mix /\
  exists c1 c2 g', _order_crossover nat CounterRng.random_ CounterRng.randbelow
                     Sample.best_mix Sample.b_first_mix 7%nat = Ok (c1, c2, g') /\
    genes_ok Sample.orders_mix [Sample.tech_a] c1 /\
    genes_ok Sample.orders_mix [Sample.tech_a] c2 /\
    forall i,
      (g_assignments c1 !! i = assignments Sample.best_mix !! i /\
       g_assignments c2 !! i = assignments Sample.b_first_mix !! i) \/
      (g_assignments c1 !! i = assignments Sample.b_first_mix !! i /\
       g_assignments c2 !! i = assignments Sample.best_mix !! i).
Proof.
  assert (H1 : chromo_ok Sample.orders_mix [Sample.tech_a] Sample.best_mix)
    by (split; [apply genes_validb_ok; vm_compute; reflexivity|apply (bool_decide_unpack _); vm_compute; reflexivity]).
  assert (H2 : chromo_ok Sample.orders_mix [Sample.tech_a] Sample.b_first_mix)
    by (split; [apply genes_validb_ok; vm_compute; reflexivity|apply (bool_decide_unpack _); vm_compute; reflexivity]).
  split; [exact H1|]. split; [exact H2|].
  exact (order_crossover_valid nat CounterRng.random_ CounterRng.randbelow
           counter_randbelow_lt Sample.orders_mix [Sample.tech_a]
           Sample.best_mix Sample.b_first_mix 7%nat H1 H2).
Defined.

Lemma mutate_valid_witness :
  genes_ok Sample.orders_mix [Sample.tech_a] sample_genes /\
  exists c' g', _mutate nat CounterRng.random_ CounterRng.randbelow
                  CounterRng.sample_positions sample_genes 1 (length [Sample.tech_a])
                  (_build_feasibility_mask Sample.orders_mix [Sample.tech_a]) 0%nat
    = Ok (c', g') /\ genes_ok Sample.orders_mix [Sample.tech_a] c'.
Proof.
  assert (H : genes_ok Sample.orders_mix [Sample.tech_a] sample_genes).
  { split; [apply genes_validb_ok; vm_compute; reflexivity|].
    exists [2; 0; 1]%nat. split; [reflexivity|apply (bool_decide_unpack _); vm_compute; reflexivity]. }
  split; [exact H|].
  apply (mutate_valid nat CounterRng.random_ CounterRng.randbelow
           CounterRng.sample_positions counter_randbelow_lt Sample.orders_mix
           [Sample.tech_a]);
    first [exact counter_sample_ok | exact counter_sample_bad | exact H].
Defined.

Lemma breed_round_valid_witness :
  sample_population <> [] /\ Forall (chromo_ok Sample.orders_mix [Sample.tech_a]) sample_population /\ (1 <= 2)%Z /\
  exists c1 c2 g',
    breed_round nat CounterRng.random_ CounterRng.randbelow CounterRng.sample_positions
      sample_population 2 1 (length [Sample.tech_a])
      (_build_feasibility_mask Sample.orders_mix [Sample.tech_a]) 0%nat
      = Ok (c1, c2, g') /\ genes_ok Sample.orders_mix [Sample.tech_a] c1 /\
    genes_ok Sample.orders_mix [Sample.tech_a] c2.
Proof.
  assert (Hne : sample_population <> []) by discriminate.
  assert (Hall : Forall (chromo_ok Sample.orders_mix [Sample.tech_a]) sample_population).
  { unfold sample_population. constructor; [|constructor; [|constructor]];
      (split; [apply genes_validb_ok; vm_compute; reflexivity
              |apply (bool_decide_unpack _); vm_compute; reflexivity]). }
  split; [exact Hne|]. split; [exact Hall|]. split; [lia|].
  apply (breed_round_valid nat CounterRng.random_ CounterRng.randbelow
           CounterRng.sample_positions counter_randbelow_lt Sample.orders_mix
           [Sample.tech_a]);
    first [exact counter_sample_ok | exact counter_sample_bad | exact Hne | exact Hall | lia].
Defined.

Lemma tech_orders_partition_witness :
  chromo_ok Sample.orders_mix [Sample.tech_a] Sample.best_mix /\
  exists tos, tech_orders_of [Sample.tech_a] Sample.best_mix = Ok tos /\
    length tos = length [Sample.tech_a] /\
    concat tos ≡ₚ seq 0 (length Sample.orders_mix) /\
    (forall v, (v < length [Sample.tech_a])%nat ->
       tos !! v = Some (filter (fun i => assignments Sample.best_mix !! i = Some v)
                          (order_sequence Sample.best_mix))) /\
    (forall v ws i, tos !! v = Some ws -> i ∈ ws ->
       gene_ok Sample.orders_mix [Sample.tech_a] i v).
Proof.
  assert (H : chromo_ok Sample.orders_mix [Sample.tech_a] Sample.best_mix)
    by (split; [apply genes_validb_ok; vm_compute; reflexivity|apply (bool_decide_unpack _); vm_compute; reflexivity]).
  split; [exact H|].
  exact (tech_orders_partition Sample.orders_mix [Sample.tech_a] Sample.best_mix H).
Defined.
